(** * QueryBuilder: the staged SQL SELECT assembler of graphile-build-pg

    A shallow embedding of the [QueryBuilder] class (locks, draft [data],
    [compiledData], the mutators, the getters, the clause compilers and
    [build]) together with the properties of its lock discipline, and of
    the two functions of [PgMutationPayloadEdgePlugin] that select the
    cursor column through the builder and read it back.

    Conventions of the embedding:
    - a method of the class is a computation [M A] over the builder; a JS
      exception is the outcome [Throws], which keeps the builder as the
      exception left it;
    - closures stored in the builder (pre-lock callbacks, deferred SQL
      producers) are defunctionalised: a callback is one of the two closures
      of the constructor or a straight-line script of method calls on the
      builder, a producer returns a fixed fragment or one built from
      [getTableAlias()];
    - [lock] and the callbacks it runs call each other: the recursion is
      bounded by a fuel argument that stands for the JS call stack;
    - [this.locks] is an object literal: under a name it inherits from
      [Object.prototype] it holds a truthy value from the start. *)

From Stdlib Require Import ZArith Lia.
From Stdlib Require Import Floats.SpecFloat.
From stdpp Require Import base option list strings gmap.

Local Open Scope string_scope.
Local Open Scope list_scope.

(** ** JS numbers *)

(** A JS [number] is an IEEE-754 double: signed zeros, infinities, NaN and
    finite values [(-1)^s * m * 2^e]. *)
Definition number : Type := spec_float.

Definition NaN : number := S754_nan.
Definition zero : number := S754_zero false.

(** [Number(z)] for an integer literal [z]. *)
Definition ofZ (z : Z) : number :=
  match z with
  | Z0 => S754_zero false
  | Zpos p => S754_finite false p 0
  | Zneg p => S754_finite true p 0
  end.

(** [Math.max(a, b)]: NaN as soon as an argument is NaN, and [+0] is larger
    than [-0]. *)
Definition Math_max (a b : number) : number :=
  match SFcompare a b with
  | None => NaN
  | Some Lt => b
  | Some Gt => a
  | Some Eq =>
      match a, b with
      | S754_zero sa, S754_zero sb => S754_zero (sa && sb)
      | _, _ => a
      end
  end.

(** The integer a number denotes, when it denotes one. *)
Definition integerValue (x : number) : option Z :=
  match x with
  | S754_zero _ => Some 0%Z
  | S754_finite s m (Zneg k) =>
      if (Zpos m mod 2 ^ Zpos k =? 0)%Z
      then Some (cond_Zopp s (Zpos m / 2 ^ Zpos k))
      else None
  | S754_finite s m e => Some (cond_Zopp s (Zpos m * 2 ^ e))
  | S754_infinity _ | S754_nan => None
  end.

Definition MAX_SAFE_INTEGER : Z := 9007199254740991.

(** lodash [isSafeInteger], applied to a [?number]: [null] is not a number. *)
Definition isSafeInteger (v : option number) : bool :=
  match v ≫= integerValue with
  | Some z => ((- MAX_SAFE_INTEGER <=? z) && (z <=? MAX_SAFE_INTEGER))%Z
  | None => false
  end.

(** JS truthiness of a number: [0], [-0] and [NaN] are falsy. *)
Definition truthyNumber (x : number) : bool :=
  match x with
  | S754_zero _ | S754_nan => false
  | _ => true
  end.

(** [x < 0] *)
Definition negative (x : number) : bool := SFltb x zero.

(** [Number(b)] and [a ^ b] on the numbers [Number] gives for booleans. *)
Definition Number_of_bool (b : bool) : Z := Z.b2z b.
Definition bitxor (a b : Z) : Z := Z.lxor a b.
Definition truthyInt (z : Z) : bool := negb (z =? 0)%Z.

(** ** SQL fragments (pg-sql2) *)

(** [RawAlias = Symbol | string]; a symbol is identified by its number. *)
Inductive RawAlias :=
| Name (s : string)
| Sym (id : nat).

Inductive JsValue :=
| Null
| Boolean (b : bool)
| Number (n : number)
| Str (s : string)
| SymbolValue (id : nat).

(** JS truthiness of a value. *)
Definition truthy (v : JsValue) : bool :=
  match v with
  | Null => false
  | Boolean b => b
  | Number n => truthyNumber n
  | Str s => negb (String.eqb s "")
  | SymbolValue _ => true
  end.

(** A [?number] as a JS value. *)
Definition optNumber (v : option number) : JsValue :=
  match v with
  | Some n => Number n
  | None => Null
  end.

Definition aliasValue (a : RawAlias) : JsValue :=
  match a with
  | Name s => Str s
  | Sym i => SymbolValue i
  end.

(** The fragments are kept as the calls that build them: a tagged template
    [sql.fragment] is its literal strings and what is interpolated between
    them, and an interpolated expression that is not a fragment (the [false],
    [0], [null] or empty string left by a JS [&&] or [?:]) is the slot
    [novalue]. *)
Module sql.
#[local] Set Warnings "-register-all".
Inductive SQL :=
| fragment (strings : list string) (values : list Slot)
| join (items : list SQL) (separator : string)
| identifier (names : list RawAlias)
| literal (val : JsValue)
with Slot :=
| value (s : SQL)
| novalue (v : JsValue).
End sql.
Abbreviation SQL := sql.SQL.
Abbreviation Slot := sql.Slot.
Coercion sql.value : sql.SQL >-> sql.Slot.

Definition SQLAlias : Type := SQL.
Definition CursorValue : Type := list JsValue.
Definition CursorComparator : Type := CursorValue → bool → SQL.

(** [SQLGen = Gen<SQL> | SQL] *)
Inductive SQLGen :=
| Known (s : SQL)                   (* an SQL value *)
| Deferred (s : SQL)                (* () => s *)
| DeferredOnAlias (k : SQL → SQL).  (* () => k(queryBuilder.getTableAlias()) *)

(** The second argument of [from]: left out, [null], or an alias. *)
Inductive AliasArg :=
| DefaultAlias
| NullAlias
| Alias (a : SQLAlias).

Record BuildOptions := {
  asJson : bool;
  asJsonAggregate : bool;
  onlyJsonField : bool;
  addNullCase : bool;
}.

Definition defaultOptions : BuildOptions :=
  {| asJson := false; asJsonAggregate := false;
     onlyJsonField := false; addNullCase := false |}.

(** ** Closures over the builder *)

(** One call of a method on the builder, its result dropped. *)
#[local] Set Warnings "-register-all".
Inductive Call :=
| call_beforeLock (field : string) (fn : Callback)
| call_setCursorComparator (fn : CursorComparator)
| call_cursorCondition (cursorValue : CursorValue) (isAfter : bool)
| call_select (exprGen : SQLGen) (alias : RawAlias)
| call_selectCursor (exprGen : SQLGen)
| call_from (expr : option SQLGen) (alias : AliasArg)
| call_where (exprGen : SQLGen)
| call_whereBound (exprGen : SQLGen) (isLower : option bool)
| call_setOrderIsUnique
| call_orderBy (exprGen : SQLGen) (ascending : bool)
| call_limit (limit : number)
| call_offset (offset : number)
| call_flip
| call_isOrderUnique
| call_getTableAlias
| call_getSelectCursor
| call_getOffset
| call_getOrderByExpressionsAndDirections
| call_buildSelectFields
| call_buildSelectJson (addNullCase : bool)
| call_buildWhereBoundClause (isLower : bool)
| call_buildWhereClause (includeLowerBound includeUpperBound addNullCase : bool)
| call_build (options : BuildOptions)
| call_lock (type : string)
| call_lockEverything
(** A pre-lock callback [() => void]. *)
with Callback :=
| selectCursorHook   (* the closure the constructor registers on "select" *)
| whereBoundHook     (* the closure the constructor registers on "where" *)
| Script (body : list Call).

(** ** The builder *)

(** [locks[type]]: [true], or in a dev build the stack of the locking call. *)
Inductive LockValue :=
| LockTrue
| LockStack (stack : string).

Module data.
Record t := Build {
  cursorPrefix : list string;
  select : list (SQLGen * RawAlias);
  selectCursor : option SQLGen;
  from : option (SQLGen * SQLAlias);
  join : list SQLGen;
  where_ : list SQLGen;
  whereBound_lower : list SQLGen;
  whereBound_upper : list SQLGen;
  orderBy : list (SQLGen * bool);
  orderIsUnique : bool;
  limit : option number;
  offset : option number;
  flip : bool;
  beforeLock : gmap string (list Callback);
  cursorComparator : option CursorComparator;
}.
End data.

Module compiledData.
Record t := Build {
  cursorPrefix : list string;
  select : list (SQL * RawAlias);
  selectCursor : option SQL;
  from : option (SQL * SQLAlias);
  join : list SQL;
  where_ : list SQL;
  whereBound_lower : list SQL;
  whereBound_upper : list SQL;
  orderBy : list (SQL * bool);
  orderIsUnique : bool;
  limit : option number;
  offset : option number;
  flip : bool;
  cursorComparator : option CursorComparator;
}.
End compiledData.

(** What the run has done so far, in order: [Fired type i] when [lock(type)]
    calls the [i]-th callback registered for [type], [Locked type] when it
    sets [locks[type]]. The history is an observer of the run, not a field
    of the class. *)
Inductive Event :=
| Fired (type : string) (index : nat)
| Locked (type : string).

(** The builder with the part of the process it reads: [isDev] (from
    [NODE_ENV]), the text V8 appends to the stack of an [Error] made in
    [lock], and the number of symbols [Symbol()] has made. *)
Record State := {
  locks : gmap string LockValue;
  finalized : bool;
  data : data.t;
  compiledData : compiledData.t;
  isDev : bool;
  stackFrames : string;
  symbols : nat;
  history : list Event;
}.

Inductive Error :=
| AlreadyLocked (type : string) (site : option string)
    (* '${type}' has already been locked [\n site] *)
| NoCursorComparator      (* No cursor comparator was set! *)
| NoFromSource            (* No from table source! *)
| NoFromAlias             (* No from alias! *)
| IsLowerNotBoolean       (* isLower must be specified as a boolean *)
| NoFromTable             (* No from table has been supplied *)
| UnexpectedLock (type : string)  (* Wasn't expecting to lock '${type}' *)
| NotIterable.            (* TypeError: a boolean is not iterable *)

(** ** Computations on the builder *)

Inductive Outcome (A : Type) :=
| Returns (a : A) (s : State)
| Throws (e : Error) (s : State)
| OutOfFuel.
Arguments Returns {A} a s.
Arguments Throws {A} e s.
Arguments OutOfFuel {A}.

Definition M (A : Type) : Type := State → Outcome A.

Definition ret {A} (a : A) : M A := λ s, Returns a s.
Definition bind {A B} (m : M A) (k : A → M B) : M B :=
  λ s, match m s with
       | Returns a s' => k a s'
       | Throws e s' => Throws e s'
       | OutOfFuel => OutOfFuel
       end.
Definition throw {A} (e : Error) : M A := λ s, Throws e s.
Definition gets {A} (f : State → A) : M A := λ s, Returns (f s) s.
Definition modify (f : State → State) : M unit := λ s, Returns tt (f s).

#[global] Instance M_ret : MRet M := @ret.
#[global] Instance M_bind : MBind M := λ A B k m, bind m k.

Fixpoint forEach {A} (f : A → M unit) (l : list A) : M unit :=
  match l with
  | [] => ret tt
  | x :: l' => f x;; forEach f l'
  end.

(** [array.map(f)] for an effectful [f]: left to right. *)
Fixpoint mapArray {A B} (f : A → M B) (l : list A) : M (list B) :=
  match l with
  | [] => ret []
  | x :: l' => y ← f x; ys ← mapArray f l'; ret (y :: ys)
  end.

(** ** Field updates *)

Module set_data.
Definition select v d :=
    data.Build (data.cursorPrefix d) v (data.selectCursor d) (data.from d)
    (data.join d) (data.where_ d) (data.whereBound_lower d)
    (data.whereBound_upper d) (data.orderBy d) (data.orderIsUnique d)
    (data.limit d) (data.offset d) (data.flip d) (data.beforeLock d)
    (data.cursorComparator d).
Definition selectCursor v d :=
    data.Build (data.cursorPrefix d) (data.select d) v (data.from d)
    (data.join d) (data.where_ d) (data.whereBound_lower d)
    (data.whereBound_upper d) (data.orderBy d) (data.orderIsUnique d)
    (data.limit d) (data.offset d) (data.flip d) (data.beforeLock d)
    (data.cursorComparator d).
Definition from v d :=
    data.Build (data.cursorPrefix d) (data.select d) (data.selectCursor d) v
    (data.join d) (data.where_ d) (data.whereBound_lower d)
    (data.whereBound_upper d) (data.orderBy d) (data.orderIsUnique d)
    (data.limit d) (data.offset d) (data.flip d) (data.beforeLock d)
    (data.cursorComparator d).
Definition where_ v d :=
    data.Build (data.cursorPrefix d) (data.select d) (data.selectCursor d)
    (data.from d) (data.join d) v (data.whereBound_lower d)
    (data.whereBound_upper d) (data.orderBy d) (data.orderIsUnique d)
    (data.limit d) (data.offset d) (data.flip d) (data.beforeLock d)
    (data.cursorComparator d).
Definition whereBound_lower v d :=
    data.Build (data.cursorPrefix d) (data.select d) (data.selectCursor d)
    (data.from d) (data.join d) (data.where_ d) v (data.whereBound_upper d)
    (data.orderBy d) (data.orderIsUnique d) (data.limit d) (data.offset d)
    (data.flip d) (data.beforeLock d) (data.cursorComparator d).
Definition whereBound_upper v d :=
    data.Build (data.cursorPrefix d) (data.select d) (data.selectCursor d)
    (data.from d) (data.join d) (data.where_ d) (data.whereBound_lower d) v
    (data.orderBy d) (data.orderIsUnique d) (data.limit d) (data.offset d)
    (data.flip d) (data.beforeLock d) (data.cursorComparator d).
Definition orderBy v d :=
    data.Build (data.cursorPrefix d) (data.select d) (data.selectCursor d)
    (data.from d) (data.join d) (data.where_ d) (data.whereBound_lower d)
    (data.whereBound_upper d) v (data.orderIsUnique d) (data.limit d)
    (data.offset d) (data.flip d) (data.beforeLock d) (data.cursorComparator
    d).
Definition orderIsUnique v d :=
    data.Build (data.cursorPrefix d) (data.select d) (data.selectCursor d)
    (data.from d) (data.join d) (data.where_ d) (data.whereBound_lower d)
    (data.whereBound_upper d) (data.orderBy d) v (data.limit d) (data.offset
    d) (data.flip d) (data.beforeLock d) (data.cursorComparator d).
Definition limit v d :=
    data.Build (data.cursorPrefix d) (data.select d) (data.selectCursor d)
    (data.from d) (data.join d) (data.where_ d) (data.whereBound_lower d)
    (data.whereBound_upper d) (data.orderBy d) (data.orderIsUnique d) v
    (data.offset d) (data.flip d) (data.beforeLock d) (data.cursorComparator
    d).
Definition offset v d :=
    data.Build (data.cursorPrefix d) (data.select d) (data.selectCursor d)
    (data.from d) (data.join d) (data.where_ d) (data.whereBound_lower d)
    (data.whereBound_upper d) (data.orderBy d) (data.orderIsUnique d)
    (data.limit d) v (data.flip d) (data.beforeLock d) (data.cursorComparator
    d).
Definition flip v d :=
    data.Build (data.cursorPrefix d) (data.select d) (data.selectCursor d)
    (data.from d) (data.join d) (data.where_ d) (data.whereBound_lower d)
    (data.whereBound_upper d) (data.orderBy d) (data.orderIsUnique d)
    (data.limit d) (data.offset d) v (data.beforeLock d)
    (data.cursorComparator d).
Definition beforeLock v d :=
    data.Build (data.cursorPrefix d) (data.select d) (data.selectCursor d)
    (data.from d) (data.join d) (data.where_ d) (data.whereBound_lower d)
    (data.whereBound_upper d) (data.orderBy d) (data.orderIsUnique d)
    (data.limit d) (data.offset d) (data.flip d) v (data.cursorComparator d).
Definition cursorComparator v d :=
    data.Build (data.cursorPrefix d) (data.select d) (data.selectCursor d)
    (data.from d) (data.join d) (data.where_ d) (data.whereBound_lower d)
    (data.whereBound_upper d) (data.orderBy d) (data.orderIsUnique d)
    (data.limit d) (data.offset d) (data.flip d) (data.beforeLock d) v.
End set_data.

Module set_compiled.
Definition cursorPrefix v d :=
    compiledData.Build v (compiledData.select d) (compiledData.selectCursor d)
    (compiledData.from d) (compiledData.join d) (compiledData.where_ d)
    (compiledData.whereBound_lower d) (compiledData.whereBound_upper d)
    (compiledData.orderBy d) (compiledData.orderIsUnique d)
    (compiledData.limit d) (compiledData.offset d) (compiledData.flip d)
    (compiledData.cursorComparator d).
Definition select v d :=
    compiledData.Build (compiledData.cursorPrefix d) v
    (compiledData.selectCursor d) (compiledData.from d) (compiledData.join d)
    (compiledData.where_ d) (compiledData.whereBound_lower d)
    (compiledData.whereBound_upper d) (compiledData.orderBy d)
    (compiledData.orderIsUnique d) (compiledData.limit d) (compiledData.offset
    d) (compiledData.flip d) (compiledData.cursorComparator d).
Definition selectCursor v d :=
    compiledData.Build (compiledData.cursorPrefix d) (compiledData.select d) v
    (compiledData.from d) (compiledData.join d) (compiledData.where_ d)
    (compiledData.whereBound_lower d) (compiledData.whereBound_upper d)
    (compiledData.orderBy d) (compiledData.orderIsUnique d)
    (compiledData.limit d) (compiledData.offset d) (compiledData.flip d)
    (compiledData.cursorComparator d).
Definition from v d :=
    compiledData.Build (compiledData.cursorPrefix d) (compiledData.select d)
    (compiledData.selectCursor d) v (compiledData.join d) (compiledData.where_
    d) (compiledData.whereBound_lower d) (compiledData.whereBound_upper d)
    (compiledData.orderBy d) (compiledData.orderIsUnique d)
    (compiledData.limit d) (compiledData.offset d) (compiledData.flip d)
    (compiledData.cursorComparator d).
Definition join v d :=
    compiledData.Build (compiledData.cursorPrefix d) (compiledData.select d)
    (compiledData.selectCursor d) (compiledData.from d) v (compiledData.where_
    d) (compiledData.whereBound_lower d) (compiledData.whereBound_upper d)
    (compiledData.orderBy d) (compiledData.orderIsUnique d)
    (compiledData.limit d) (compiledData.offset d) (compiledData.flip d)
    (compiledData.cursorComparator d).
Definition where_ v d :=
    compiledData.Build (compiledData.cursorPrefix d) (compiledData.select d)
    (compiledData.selectCursor d) (compiledData.from d) (compiledData.join d)
    v (compiledData.whereBound_lower d) (compiledData.whereBound_upper d)
    (compiledData.orderBy d) (compiledData.orderIsUnique d)
    (compiledData.limit d) (compiledData.offset d) (compiledData.flip d)
    (compiledData.cursorComparator d).
Definition whereBound_lower v d :=
    compiledData.Build (compiledData.cursorPrefix d) (compiledData.select d)
    (compiledData.selectCursor d) (compiledData.from d) (compiledData.join d)
    (compiledData.where_ d) v (compiledData.whereBound_upper d)
    (compiledData.orderBy d) (compiledData.orderIsUnique d)
    (compiledData.limit d) (compiledData.offset d) (compiledData.flip d)
    (compiledData.cursorComparator d).
Definition whereBound_upper v d :=
    compiledData.Build (compiledData.cursorPrefix d) (compiledData.select d)
    (compiledData.selectCursor d) (compiledData.from d) (compiledData.join d)
    (compiledData.where_ d) (compiledData.whereBound_lower d) v
    (compiledData.orderBy d) (compiledData.orderIsUnique d)
    (compiledData.limit d) (compiledData.offset d) (compiledData.flip d)
    (compiledData.cursorComparator d).
Definition orderBy v d :=
    compiledData.Build (compiledData.cursorPrefix d) (compiledData.select d)
    (compiledData.selectCursor d) (compiledData.from d) (compiledData.join d)
    (compiledData.where_ d) (compiledData.whereBound_lower d)
    (compiledData.whereBound_upper d) v (compiledData.orderIsUnique d)
    (compiledData.limit d) (compiledData.offset d) (compiledData.flip d)
    (compiledData.cursorComparator d).
Definition orderIsUnique v d :=
    compiledData.Build (compiledData.cursorPrefix d) (compiledData.select d)
    (compiledData.selectCursor d) (compiledData.from d) (compiledData.join d)
    (compiledData.where_ d) (compiledData.whereBound_lower d)
    (compiledData.whereBound_upper d) (compiledData.orderBy d) v
    (compiledData.limit d) (compiledData.offset d) (compiledData.flip d)
    (compiledData.cursorComparator d).
Definition limit v d :=
    compiledData.Build (compiledData.cursorPrefix d) (compiledData.select d)
    (compiledData.selectCursor d) (compiledData.from d) (compiledData.join d)
    (compiledData.where_ d) (compiledData.whereBound_lower d)
    (compiledData.whereBound_upper d) (compiledData.orderBy d)
    (compiledData.orderIsUnique d) v (compiledData.offset d)
    (compiledData.flip d) (compiledData.cursorComparator d).
Definition offset v d :=
    compiledData.Build (compiledData.cursorPrefix d) (compiledData.select d)
    (compiledData.selectCursor d) (compiledData.from d) (compiledData.join d)
    (compiledData.where_ d) (compiledData.whereBound_lower d)
    (compiledData.whereBound_upper d) (compiledData.orderBy d)
    (compiledData.orderIsUnique d) (compiledData.limit d) v (compiledData.flip
    d) (compiledData.cursorComparator d).
Definition flip v d :=
    compiledData.Build (compiledData.cursorPrefix d) (compiledData.select d)
    (compiledData.selectCursor d) (compiledData.from d) (compiledData.join d)
    (compiledData.where_ d) (compiledData.whereBound_lower d)
    (compiledData.whereBound_upper d) (compiledData.orderBy d)
    (compiledData.orderIsUnique d) (compiledData.limit d) (compiledData.offset
    d) v (compiledData.cursorComparator d).
End set_compiled.

Definition set_locks v s := Build_State v (finalized s) (data s) (compiledData s) (isDev s) (stackFrames s) (symbols s) (history s).
Definition set_finalized v s := Build_State (locks s) v (data s) (compiledData s) (isDev s) (stackFrames s) (symbols s) (history s).
Definition set_data v s := Build_State (locks s) (finalized s) v (compiledData s) (isDev s) (stackFrames s) (symbols s) (history s).
Definition set_compiledData v s := Build_State (locks s) (finalized s) (data s) v (isDev s) (stackFrames s) (symbols s) (history s).
Definition set_symbols v s := Build_State (locks s) (finalized s) (data s) (compiledData s) (isDev s) (stackFrames s) v (history s).
Definition set_history v s := Build_State (locks s) (finalized s) (data s) (compiledData s) (isDev s) (stackFrames s) (symbols s) v.

(** [this.data.x = f(this.data.x)] and [this.compiledData.x = ...] *)
Definition update_data (f : data.t → data.t) : M unit :=
  modify (λ s, set_data (f (data s)) s).
Definition update_compiled (f : compiledData.t → compiledData.t) : M unit :=
  modify (λ s, set_compiledData (f (compiledData s)) s).

Definition record (e : Event) : M unit :=
  modify (λ s, set_history (history s ++ [e]) s).

(** [Symbol()] *)
Definition Symbol : M RawAlias :=
  λ s, Returns (Sym (symbols s)) (set_symbols (S (symbols s)) s).

(** ** The methods of [QueryBuilder] *)

(** JS truthiness of [this.locks[type]]. *)
Definition truthyLock (v : option LockValue) : bool :=
  match v with
  | None => false
  | Some LockTrue => true
  | Some (LockStack stack) => negb (String.eqb stack "")
  end.

(** The names every object inherits from [Object.prototype]: [this.locks]
    is made by [{}], so for these names [this.locks[type]] is a function (for
    [__proto__], the prototype itself) as long as the builder has set no lock
    of that name. *)
Definition Object_prototype : list string :=
  ["constructor"; "__defineGetter__"; "__defineSetter__"; "hasOwnProperty";
   "__lookupGetter__"; "__lookupSetter__"; "isPrototypeOf";
   "propertyIsEnumerable"; "toString"; "valueOf"; "__proto__";
   "toLocaleString"].

Definition inherited (type : string) : bool :=
  bool_decide (type ∈ Object_prototype).

(** JS truthiness of the property [type] of [this.locks]: the lock the
    builder has set, or else what is inherited under that name. *)
Definition truthyProperty (v : option LockValue) (type : string) : bool :=
  match v with
  | Some _ => truthyLock v
  | None => inherited type
  end.

Definition isLocked (type : string) (s : State) : bool :=
  truthyProperty (locks s !! type) type.

(** [new Error("Initally locked here").stack] *)
Definition Error_stack (s : State) : string :=
  ("Error: Initally locked here" ++ stackFrames s)%string.

Definition _finalize : M unit :=
  modify (set_finalized true).

Definition checkLock (type : string) : M unit :=
  λ s, match locks s !! type with
       | Some (LockStack stack) =>
           if truthyLock (locks s !! type)
           then Throws (AlreadyLocked type (Some stack)) s
           else Returns tt s
       | Some LockTrue => Throws (AlreadyLocked type None) s
       | None =>
           (* an inherited function or object is truthy and not a string *)
           if inherited type
           then Throws (AlreadyLocked type None) s
           else Returns tt s
       end.

(** [this.data.beforeLock[field] || []] *)
Definition callbacksOf (field : string) (s : State) : list Callback :=
  default [] (data.beforeLock (data s) !! field).

Definition beforeLock (field : string) (fn : Callback) : M unit :=
  checkLock field;;
  update_data (λ d,
    set_data.beforeLock
      (<[field := default [] (data.beforeLock d !! field) ++ [fn]]>
         (data.beforeLock d)) d).

Definition select (exprGen : SQLGen) (alias : RawAlias) : M unit :=
  checkLock "select";;
  update_data (λ d, set_data.select (data.select d ++ [(exprGen, alias)]) d).

Definition selectCursor (exprGen : SQLGen) : M unit :=
  checkLock "selectCursor";;
  update_data (set_data.selectCursor (Some exprGen)).

Definition where_ (exprGen : SQLGen) : M unit :=
  checkLock "where";;
  update_data (λ d, set_data.where_ (data.where_ d ++ [exprGen]) d).

Definition whereBound (exprGen : SQLGen) (isLower : option bool) : M unit :=
  match isLower with
  | None => throw IsLowerNotBoolean
  | Some isLower =>
      checkLock "whereBound";;
      update_data (λ d,
        if isLower
        then set_data.whereBound_lower (data.whereBound_lower d ++ [exprGen]) d
        else set_data.whereBound_upper (data.whereBound_upper d ++ [exprGen]) d)
  end.

Definition setOrderIsUnique : M unit :=
  update_data (set_data.orderIsUnique true).

Definition orderBy (exprGen : SQLGen) (ascending : bool) : M unit :=
  checkLock "orderBy";;
  update_data (λ d, set_data.orderBy (data.orderBy d ++ [(exprGen, ascending)]) d).

Section Methods.

(** [this.lock], at the depth the call stack still allows. *)
Variable lock : string → M unit.

Definition setCursorComparator (fn : CursorComparator) : M unit :=
  checkLock "cursorComparator";;
  update_data (set_data.cursorComparator (Some fn));;
  lock "cursorComparator".

Definition cursorCondition (cursorValue : CursorValue) (isAfter : bool) : M SQL :=
  lock "cursorComparator";;
  c ← gets (λ s, compiledData.cursorComparator (compiledData s));
  match c with
  | None => throw NoCursorComparator
  | Some cmp => ret (cmp cursorValue isAfter)
  end.

Definition from (expr : option SQLGen) (alias : AliasArg) : M unit :=
  alias ← match alias with
          | DefaultAlias => a ← Symbol; ret (Some (sql.identifier [a]))
          | NullAlias => ret None
          | Alias a => ret (Some a)
          end;
  checkLock "from";;
  match expr, alias with
  | None, _ => throw NoFromSource
  | Some _, None => throw NoFromAlias
  | Some expr, Some alias =>
      update_data (set_data.from (Some (expr, alias)));;
      lock "from"
  end.

Definition limit (limit : number) : M unit :=
  checkLock "limit";;
  update_data (set_data.limit (Some (Math_max zero limit)));;
  lock "limit".

Definition offset (offset : number) : M unit :=
  checkLock "offset";;
  update_data (set_data.offset (Some (Math_max zero offset)));;
  lock "offset".

Definition flip : M unit :=
  checkLock "flip";;
  update_data (set_data.flip true);;
  lock "flip".

Definition isOrderUnique : M bool :=
  lock "orderIsUnique";;
  gets (λ s, compiledData.orderIsUnique (compiledData s)).

Definition getTableAlias : M SQL :=
  lock "from";;
  f ← gets (λ s, compiledData.from (compiledData s));
  match f with
  | None => throw NoFromTable
  | Some f => ret f.2
  end.

Definition getSelectCursor : M (option SQL) :=
  lock "selectCursor";;
  gets (λ s, compiledData.selectCursor (compiledData s)).

Definition getOffset : M number :=
  lock "offset";;
  o ← gets (λ s, compiledData.offset (compiledData s));
  ret (match o with
       | Some n => if truthyNumber n then n else zero
       | None => zero
       end).

Definition getOrderByExpressionsAndDirections : M (list (SQL * bool)) :=
  lock "orderBy";;
  gets (λ s, compiledData.orderBy (compiledData s)).

Definition lockEverything : M unit :=
  _finalize;;
  lock "from";;
  lock "flip";;
  lock "join";;
  lock "offset";;
  lock "limit";;
  lock "orderBy";;
  lock "cursorComparator";;
  lock "where";;
  lock "selectCursor";;
  lock "select".

Definition buildSelectFields : M SQL :=
  lockEverything;;
  sel ← gets (λ s, compiledData.select (compiledData s));
  ret (sql.join
         (map (λ '(sqlFragment, alias),
                 sql.fragment [""; " as "; ""]
                   [sql.value sqlFragment; sql.value (sql.identifier [alias])])
              sel)
         ", ").

Definition buildSelectJson (addNullCase : bool) : M SQL :=
  lockEverything;;
  sel ← gets (λ s, compiledData.select (compiledData s));
  buildObject ←
    (if bool_decide (length sel ≠ 0)
     then ret (sql.fragment ["json_build_object("; ")"]
                 [sql.value (sql.join
                    (map (λ '(sqlFragment, alias),
                            sql.fragment [""; ", "; ""]
                              [sql.value (sql.literal (aliasValue alias));
                               sql.value sqlFragment])
                         sel)
                    ", ")])
     else
       a ← getTableAlias;
       ret (sql.fragment ["to_json("; ".*)"] [sql.value a]));
  if addNullCase
  then
    a ← getTableAlias;
    ret (sql.fragment ["(case when "; " is null then null else "; " end)"]
           [sql.value a; sql.value buildObject])
  else ret buildObject.

Definition buildWhereBoundClause (isLower : bool) : M SQL :=
  lock "whereBound";;
  clauses ← gets (λ s, if isLower
                       then compiledData.whereBound_lower (compiledData s)
                       else compiledData.whereBound_upper (compiledData s));
  if bool_decide (length clauses ≠ 0)
  then ret (sql.fragment ["("; ")"] [sql.value (sql.join clauses ") and (")])
  else ret (sql.literal (Boolean true)).

Definition buildWhereClause
    (includeLowerBound includeUpperBound addNullCase : bool) : M SQL :=
  lock "where";;
  guard ← (if addNullCase
           then
             a ← getTableAlias;
             ret [sql.fragment ["not ("; " is null)"] [sql.value a]]
           else ret []);
  wheres ← gets (λ s, compiledData.where_ (compiledData s));
  lower ← (if includeLowerBound
           then c ← buildWhereBoundClause true; ret [c]
           else ret []);
  upper ← (if includeUpperBound
           then c ← buildWhereBoundClause false; ret [c]
           else ret []);
  let clauses := guard ++ wheres ++ lower ++ upper in
  if bool_decide (length clauses ≠ 0)
  then ret (sql.fragment ["("; ")"] [sql.value (sql.join clauses ") and (")])
  else ret (sql.fragment ["1 = 1"] []).

(** [Number(ascending) ^ Number(this.compiledData.flip) ? ASC : DESC] *)
Definition direction (ascending flipped : bool) : SQL :=
  if truthyInt (bitxor (Number_of_bool ascending) (Number_of_bool flipped))
  then sql.fragment ["ASC"] []
  else sql.fragment ["DESC"] [].

Definition orderByEntry (flipped : bool) (entry : SQL * bool) : SQL :=
  let '(expr, ascending) := entry in
  sql.fragment [""; " "; ""]
    [sql.value expr; sql.value (direction ascending flipped)].

(** The pieces of the template of [build], named after the clause each
    interpolation stands for. *)
Definition joinSlot (c : compiledData.t) : Slot :=
  if bool_decide (length (compiledData.join c) ≠ 0)
  then sql.value (sql.join (compiledData.join c) " ")
  else sql.novalue (Number (ofZ (Z.of_nat (length (compiledData.join c))))).

Definition orderBySlot (c : compiledData.t) : Slot :=
  if bool_decide (length (compiledData.orderBy c) ≠ 0)
  then sql.value (sql.fragment ["order by "; ""]
         [sql.value (sql.join
            (map (orderByEntry (compiledData.flip c)) (compiledData.orderBy c))
            ",")])
  else sql.novalue (Str "").

Definition limitSlot (c : compiledData.t) : Slot :=
  if isSafeInteger (compiledData.limit c)
  then sql.value (sql.fragment ["limit "; ""]
         [sql.value (sql.literal (optNumber (compiledData.limit c)))])
  else sql.novalue (Boolean false).

Definition offsetSlot (c : compiledData.t) : Slot :=
  if truthy (optNumber (compiledData.offset c))
  then sql.value (sql.fragment ["offset "; ""]
         [sql.value (sql.literal (optNumber (compiledData.offset c)))])
  else sql.novalue (optNumber (compiledData.offset c)).

Definition selectStatement (fields : SQL) (fromSlot joinSlot : Slot)
    (whereClause : SQL) (c : compiledData.t) : SQL :=
  sql.fragment
    ["
      select "; "
      "; "
      "; "
      where "; "
      "; "
      "; "
      "; "
    "]
    [sql.value fields; fromSlot; joinSlot; sql.value whereClause;
     orderBySlot c; limitSlot c; offsetSlot c].

Definition flipWrapper (flipAlias : RawAlias) (fragment : SQL) : SQL :=
  sql.fragment
    ["
        with "; " as (
          "; "
        )
        select *
        from "; "
        order by (row_number() over (partition by 1)) desc
        "]
    [sql.value (sql.identifier [flipAlias]); sql.value fragment;
     sql.value (sql.identifier [flipAlias])].

Definition aggregateWrapper (aggAlias : RawAlias) (fragment : SQL) : SQL :=
  sql.fragment ["select coalesce(("; "), '[]'::json)"]
    [sql.value (sql.fragment
       ["select json_agg("; ") from ("; ") as "; ""]
       [sql.value (sql.identifier [aggAlias; Name "object"]);
        sql.value fragment; sql.value (sql.identifier [aggAlias])])].

Definition build (options : BuildOptions) : M SQL :=
  lockEverything;;
  if onlyJsonField options
  then buildSelectJson (addNullCase options)
  else
    fields ←
      (if asJson options || asJsonAggregate options
       then
         j ← buildSelectJson (addNullCase options);
         ret (sql.fragment [""; " as object"] [sql.value j])
       else buildSelectFields);
    cfrom ← gets (λ s, compiledData.from (compiledData s));
    fromSlot ←
      match cfrom with
      | None => ret (sql.novalue Null)
      | Some f =>
          a ← getTableAlias;
          ret (sql.value (sql.fragment ["from "; " as "; ""]
                            [sql.value f.1; sql.value a]))
      end;
    joins ← gets (λ s, joinSlot (compiledData s));
    whereClause ← buildWhereClause true true (addNullCase options);
    c ← gets compiledData;
    let fragment := selectStatement fields fromSlot joins whereClause c in
    fragment ←
      (if compiledData.flip c
       then flipAlias ← Symbol; ret (flipWrapper flipAlias fragment)
       else ret fragment);
    if asJsonAggregate options
    then aggAlias ← Symbol; ret (aggregateWrapper aggAlias fragment)
    else ret fragment.

(** [callIfNecessary]: a producer is called, a value is returned as it is. *)
Definition callIfNecessary (o : SQLGen) : M SQL :=
  match o with
  | Known s => ret s
  | Deferred s => ret s
  | DeferredOnAlias k => a ← getTableAlias; ret (k a)
  end.

Definition callIfNecessaryArray (o : list SQLGen) : M (list SQL) :=
  mapArray callIfNecessary o.

(** The part of [lock] after [this.locks[type] = ...]: the draft of the
    phase is resolved and copied to [compiledData]. *)
Definition compile (type : string) : M unit :=
  d ← gets data;
  if String.eqb type "cursorComparator" then ret tt
  else if String.eqb type "whereBound" then
    lower ← callIfNecessaryArray (data.whereBound_lower d);
    update_compiled (set_compiled.whereBound_lower lower);;
    d ← gets data;
    upper ← callIfNecessaryArray (data.whereBound_upper d);
    update_compiled (set_compiled.whereBound_upper upper)
  else if String.eqb type "select" then
    c ← mapArray (λ '(a, b), a' ← callIfNecessary a; ret (a', b)) (data.select d);
    update_compiled (set_compiled.select c)
  else if String.eqb type "orderBy" then
    c ← mapArray (λ '(a, b), a' ← callIfNecessary a; ret (a', b)) (data.orderBy d);
    update_compiled (set_compiled.orderBy c)
  else if String.eqb type "from" then
    match data.from d with
    | Some f =>
        f0 ← callIfNecessary f.1;
        update_compiled (set_compiled.from (Some (f0, f.2)))
    | None => ret tt
    end
  else if String.eqb type "join" then
    c ← callIfNecessaryArray (data.join d);
    update_compiled (set_compiled.join c)
  else if String.eqb type "where" then
    c ← callIfNecessaryArray (data.where_ d);
    update_compiled (set_compiled.where_ c)
  else if String.eqb type "selectCursor" then
    c ← match data.selectCursor d with
        | Some g => c ← callIfNecessary g; ret (Some c)
        | None => ret None
        end;
    update_compiled (set_compiled.selectCursor c)
  else if String.eqb type "cursorPrefix" then
    update_compiled (set_compiled.cursorPrefix (data.cursorPrefix d))
  else if String.eqb type "orderIsUnique" then
    update_compiled (set_compiled.orderIsUnique (data.orderIsUnique d))
  else if String.eqb type "limit" then
    update_compiled (set_compiled.limit (data.limit d))
  else if String.eqb type "offset" then
    update_compiled (set_compiled.offset (data.offset d))
  else if String.eqb type "flip" then
    update_compiled (set_compiled.flip (data.flip d))
  else throw (UnexpectedLock type).

(** A method call whose result is not used. *)
Definition call (c : Call) : M unit :=
  match c with
  | call_beforeLock field fn => beforeLock field fn
  | call_setCursorComparator fn => setCursorComparator fn
  | call_cursorCondition v isAfter => cursorCondition v isAfter;; ret tt
  | call_select g alias => select g alias
  | call_selectCursor g => selectCursor g
  | call_from expr alias => from expr alias
  | call_where g => where_ g
  | call_whereBound g isLower => whereBound g isLower
  | call_setOrderIsUnique => setOrderIsUnique
  | call_orderBy g ascending => orderBy g ascending
  | call_limit n => limit n
  | call_offset n => offset n
  | call_flip => flip
  | call_isOrderUnique => isOrderUnique;; ret tt
  | call_getTableAlias => getTableAlias;; ret tt
  | call_getSelectCursor => getSelectCursor;; ret tt
  | call_getOffset => getOffset;; ret tt
  | call_getOrderByExpressionsAndDirections =>
      getOrderByExpressionsAndDirections;; ret tt
  | call_buildSelectFields => buildSelectFields;; ret tt
  | call_buildSelectJson addNullCase => buildSelectJson addNullCase;; ret tt
  | call_buildWhereBoundClause isLower => buildWhereBoundClause isLower;; ret tt
  | call_buildWhereClause l u n => buildWhereClause l u n;; ret tt
  | call_build options => build options;; ret tt
  | call_lock type => lock type
  | call_lockEverything => lockEverything
  end.

(** Calling a pre-lock callback. *)
Definition invoke (fn : Callback) : M unit :=
  match fn with
  | selectCursorHook =>
      lock "selectCursor";;
      c ← gets (λ s, compiledData.selectCursor (compiledData s));
      match c with
      | Some cursor => select (Known cursor) (Name "__cursor")
      | None => ret tt
      end
  | whereBoundHook => lock "whereBound"
  | Script body => forEach call body
  end.

End Methods.

(** [this.locks[type] = isDev ? new Error("Initally locked here").stack : true] *)
Definition setLock (type : string) : M unit :=
  modify (λ s,
    set_locks
      (<[type := if isDev s then LockStack (Error_stack s) else LockTrue]>
         (locks s)) s);;
  record (Locked type).

(** [lock(type)]. The [for ... of] loop reads the array of callbacks as it
    is when each index is reached, so a callback pushed by an earlier one is
    called too. *)
Fixpoint lock (fuel : nat) (type : string) : M unit :=
  λ s,
    if isLocked type s then Returns tt s
    else
      match fuel with
      | 0 => OutOfFuel
      | S fuel' =>
          (runBeforeLock fuel' type 0;;
           setLock type;;
           compile (lock fuel') type) s
      end
with runBeforeLock (fuel : nat) (type : string) (i : nat) : M unit :=
  λ s,
    match callbacksOf type s !! i with
    | None => Returns tt s
    | Some fn =>
        match fuel with
        | 0 => OutOfFuel
        | S fuel' =>
            (record (Fired type i);;
             invoke (lock fuel') fn;;
             runBeforeLock fuel' type (S i)) s
        end
    end.

(** ** The constructor *)

Definition emptyData : data.t :=
  data.Build ["natural"] [] None None [] [] [] [] [] false None None false ∅ None.

Definition emptyCompiledData : compiledData.t :=
  compiledData.Build ["natural"] [] None None [] [] [] [] [] false None None false
    None.

Definition constructor : M unit :=
  modify (λ s,
    set_compiledData emptyCompiledData
      (set_data emptyData (set_finalized false (set_locks ∅ s))));;
  beforeLock "select" selectCursorHook;;
  beforeLock "where" whereBoundHook.

(** [new QueryBuilder()] in a process with the given [NODE_ENV] and stack. *)
Definition new (isDev : bool) (stackFrames : string) : State :=
  let blank :=
    {| locks := ∅; finalized := false; data := emptyData;
       compiledData := emptyCompiledData; isDev := isDev;
       stackFrames := stackFrames; symbols := 0; history := [] |} in
  match constructor blank with
  | Returns _ s => s
  | _ => blank
  end.

(** ** Reasoning about computations *)

Lemma bind_unfold {A B} (m : M A) (k : A → M B) s :
  (m ≫= k) s =
  match m s with
  | Returns a s' => k a s'
  | Throws e s' => Throws e s'
  | OutOfFuel => OutOfFuel
  end.
Proof. reflexivity. Qed.

(** [after m s Q]: the state [m] leaves, by a return or by an exception,
    satisfies [Q]. *)
Definition after {A} (m : M A) (s : State) (Q : State → Prop) : Prop :=
  match m s with
  | Returns _ s' | Throws _ s' => Q s'
  | OutOfFuel => True
  end.

Definition preserves (R : State → State → Prop) {A} (m : M A) : Prop :=
  ∀ s, after m s (R s).

Lemma preserves_returns R {A} (m : M A) s a s' :
  preserves R m → m s = Returns a s' → R s s'.
Proof. intros H E. specialize (H s). unfold after in H. by rewrite E in H. Qed.

Lemma preserves_throws R {A} (m : M A) s e s' :
  preserves R m → m s = Throws e s' → R s s'.
Proof. intros H E. specialize (H s). unfold after in H. by rewrite E in H. Qed.

(** A draft update that leaves the callbacks and the two clamped numbers
    alone. *)
Definition benign (f : data.t → data.t) : Prop :=
  ∀ d, data.beforeLock (f d) = data.beforeLock d
       ∧ data.limit (f d) = data.limit d
       ∧ data.offset (f d) = data.offset d.

Section Preservation.

Variable R : State → State → Prop.
Hypothesis R_refl : ∀ s, R s s.
Hypothesis R_trans : ∀ s1 s2 s3, R s1 s2 → R s2 s3 → R s1 s3.

Lemma preserves_ret {A} (a : A) : preserves R (ret a).
Proof. intros s. apply R_refl. Qed.

Lemma preserves_throw {A} e : preserves R (@throw A e).
Proof. intros s. apply R_refl. Qed.

Lemma preserves_gets {A} (f : State → A) : preserves R (gets f).
Proof. intros s. apply R_refl. Qed.

Lemma preserves_modify f : (∀ s, R s (f s)) → preserves R (modify f).
Proof. intros H s. apply H. Qed.

Lemma preserves_bind {A B} (m : M A) (k : A → M B) :
  preserves R m → (∀ a, preserves R (k a)) → preserves R (m ≫= k).
Proof.
  intros Hm Hk s. unfold after. rewrite bind_unfold.
  specialize (Hm s). unfold after in Hm.
  destruct (m s) as [a s1|e s1|] eqn:E; [|done..].
  specialize (Hk a s1). unfold after in Hk.
  destruct (k a s1); eauto.
Qed.

Lemma preserves_checkLock type : preserves R (checkLock type).
Proof.
  intros s. unfold after, checkLock.
  destruct (locks s !! type) as [[|stack]|]; [apply R_refl| |].
  - destruct (truthyLock _); apply R_refl.
  - destruct (inherited type); apply R_refl.
Qed.

Lemma preserves_forEach {A} (f : A → M unit) l :
  (∀ x, preserves R (f x)) → preserves R (forEach f l).
Proof.
  intros Hf. induction l as [|x l IH]; simpl.
  - apply preserves_ret.
  - apply preserves_bind; auto.
Qed.

Lemma preserves_mapArray {A B} (f : A → M B) l :
  (∀ x, preserves R (f x)) → preserves R (mapArray f l).
Proof.
  intros Hf. induction l as [|x l IH]; simpl.
  - apply preserves_ret.
  - apply preserves_bind; [auto|]. intros y.
    apply preserves_bind; [auto|]. intros ys. apply preserves_ret.
Qed.

Hypothesis R_data : ∀ f s, benign f → R s (set_data (f (data s)) s).
Hypothesis R_limit : ∀ n s,
  R s (set_data (set_data.limit (Some (Math_max zero n)) (data s)) s).
Hypothesis R_offset : ∀ n s,
  R s (set_data (set_data.offset (Some (Math_max zero n)) (data s)) s).
Hypothesis R_beforeLock : ∀ field fn, preserves R (beforeLock field fn).
Hypothesis R_Symbol : ∀ s, R s (set_symbols (S (symbols s)) s).
Hypothesis R_finalize : ∀ s, R s (set_finalized true s).

Lemma preserves_update_data f : benign f → preserves R (update_data f).
Proof. intros Hf. apply preserves_modify. intros s. by apply R_data. Qed.

Lemma preserves_Symbol : preserves R Symbol.
Proof. intros s. apply R_Symbol. Qed.

Variable lock : string → M unit.
Hypothesis R_lock : ∀ type, preserves R (lock type).

Ltac pres :=
  repeat first
    [ apply preserves_ret
    | apply preserves_throw
    | apply preserves_gets
    | apply preserves_checkLock
    | apply preserves_Symbol
    | apply R_lock
    | apply R_beforeLock
    | apply preserves_modify; intros; first [apply R_finalize | apply R_limit | apply R_offset]
    | apply preserves_update_data; intros ?; simpl; by repeat split
    | apply preserves_update_data; intros ?; simpl; repeat case_match; by repeat split
    | apply preserves_bind; [|intros ?]
    | apply preserves_mapArray; intros ?
    | apply preserves_forEach; intros ?
    | match goal with
      | |- preserves _ (match ?x with _ => _ end) => destruct x
      | |- preserves _ (let _ := _ in _) => cbv zeta
      end ].

Lemma preserves_select g alias : preserves R (select g alias).
Proof. unfold select. pres. Qed.

Lemma preserves_getTableAlias : preserves R (getTableAlias lock).
Proof. unfold getTableAlias. pres. Qed.

Lemma preserves_callIfNecessary g : preserves R (callIfNecessary lock g).
Proof. unfold callIfNecessary, getTableAlias. pres. Qed.

Lemma preserves_lockEverything : preserves R (lockEverything lock).
Proof. unfold lockEverything, _finalize. pres. Qed.

Lemma preserves_buildSelectJson n : preserves R (buildSelectJson lock n).
Proof.
  unfold buildSelectJson. apply preserves_bind; [apply preserves_lockEverything|].
  intros _. unfold getTableAlias. pres.
Qed.

Lemma preserves_buildSelectFields : preserves R (buildSelectFields lock).
Proof.
  unfold buildSelectFields. apply preserves_bind; [apply preserves_lockEverything|].
  intros _. pres.
Qed.

Lemma preserves_buildWhereBoundClause b :
  preserves R (buildWhereBoundClause lock b).
Proof. unfold buildWhereBoundClause. pres. Qed.

Lemma preserves_buildWhereClause l u n :
  preserves R (buildWhereClause lock l u n).
Proof.
  unfold buildWhereClause, getTableAlias.
  repeat first [ apply preserves_buildWhereBoundClause | progress pres ].
Qed.

Lemma preserves_build options : preserves R (build lock options).
Proof.
  unfold build. apply preserves_bind; [apply preserves_lockEverything|].
  intros _. destruct (onlyJsonField options);
    [apply preserves_buildSelectJson|].
  apply preserves_bind.
  { destruct (_ || _); [|apply preserves_buildSelectFields].
    apply preserves_bind; [apply preserves_buildSelectJson|]. intros; pres. }
  intros fields. unfold getTableAlias.
  repeat first [ apply preserves_buildWhereClause | progress pres ].
Qed.

Lemma preserves_call c : preserves R (call lock c).
Proof.
  destruct c; simpl;
    try (apply preserves_bind; [|intros; apply preserves_ret]);
    first
      [ apply preserves_build
      | apply preserves_buildWhereClause
      | apply preserves_buildWhereBoundClause
      | apply preserves_buildSelectJson
      | apply preserves_buildSelectFields
      | apply preserves_lockEverything
      | apply preserves_getTableAlias
      | idtac ];
    unfold setCursorComparator, cursorCondition, select, selectCursor, from,
      where_, whereBound, setOrderIsUnique, orderBy, limit, offset, flip,
      isOrderUnique, getSelectCursor, getOffset,
      getOrderByExpressionsAndDirections;
    pres.
Qed.

Lemma preserves_invoke fn : preserves R (invoke lock fn).
Proof.
  destruct fn; simpl.
  - apply preserves_bind; [apply R_lock|]. intros _.
    apply preserves_bind; [apply preserves_gets|]. intros [c|];
      [apply preserves_select|apply preserves_ret].
  - apply R_lock.
  - apply preserves_forEach, preserves_call.
Qed.

End Preservation.

(** ** What a run never undoes *)

Definition lockSite (v : option LockValue) : option string :=
  match v with
  | Some (LockStack stack) => Some stack
  | _ => None
  end.

Lemma checkLock_unfold type s :
  checkLock type s =
  if isLocked type s
  then Throws (AlreadyLocked type (lockSite (locks s !! type))) s
  else Returns tt s.
Proof.
  unfold checkLock, isLocked.
  by destruct (locks s !! type) as [[|stack]|].
Qed.

(** The part of [compiledData] that [lock(type)] writes is unchanged. *)
Definition frozen (type : string) (c c' : compiledData.t) : Prop :=
  (type = "cursorPrefix" →
     compiledData.cursorPrefix c' = compiledData.cursorPrefix c)
  ∧ (type = "select" → compiledData.select c' = compiledData.select c)
  ∧ (type = "selectCursor" →
       compiledData.selectCursor c' = compiledData.selectCursor c)
  ∧ (type = "from" → compiledData.from c' = compiledData.from c)
  ∧ (type = "join" → compiledData.join c' = compiledData.join c)
  ∧ (type = "where" → compiledData.where_ c' = compiledData.where_ c)
  ∧ (type = "whereBound" →
       compiledData.whereBound_lower c' = compiledData.whereBound_lower c
       ∧ compiledData.whereBound_upper c' = compiledData.whereBound_upper c)
  ∧ (type = "orderBy" → compiledData.orderBy c' = compiledData.orderBy c)
  ∧ (type = "orderIsUnique" →
       compiledData.orderIsUnique c' = compiledData.orderIsUnique c)
  ∧ (type = "limit" → compiledData.limit c' = compiledData.limit c)
  ∧ (type = "offset" → compiledData.offset c' = compiledData.offset c)
  ∧ (type = "flip" → compiledData.flip c' = compiledData.flip c).

Definition nonNegative (v : option number) : Prop :=
  match v with
  | Some n => negative n = false
  | None => True
  end.

(** No stored limit or offset is below zero. *)
Definition clamped (s : State) : Prop :=
  nonNegative (data.limit (data s))
  ∧ nonNegative (data.offset (data s))
  ∧ nonNegative (compiledData.limit (compiledData s))
  ∧ nonNegative (compiledData.offset (compiledData s)).

(** [evolvesBut X s s']: how a state [s'] reached from [s] relates to [s].
    A locked phase stays locked, keeps its callbacks and, unless it is the
    phase [X] being compiled, its compiled data. *)
Record evolvesBut (X : option string) (s s' : State) : Prop := {
  ev_locks : ∀ P, isLocked P s = true → isLocked P s' = true;
  ev_callbacks : ∀ P, isLocked P s = true → callbacksOf P s' = callbacksOf P s;
  ev_registered : ∀ P, callbacksOf P s `prefix_of` callbacksOf P s';
  ev_history : history s `prefix_of` history s';
  ev_isDev : isDev s' = isDev s;
  ev_stackFrames : stackFrames s' = stackFrames s;
  ev_finalized : finalized s = true → finalized s' = true;
  ev_comparator :
    compiledData.cursorComparator (compiledData s') =
    compiledData.cursorComparator (compiledData s);
  ev_frozen : ∀ P, isLocked P s = true → X ≠ Some P →
    frozen P (compiledData s) (compiledData s');
  ev_clamped : clamped s → clamped s';
}.

Definition evolves : State → State → Prop := evolvesBut None.

Lemma frozen_refl P c : frozen P c c.
Proof. unfold frozen. by repeat apply conj. Qed.

Lemma frozen_trans P c1 c2 c3 : frozen P c1 c2 → frozen P c2 c3 → frozen P c1 c3.
Proof.
  unfold frozen. intros H1 H2. repeat apply conj; intros ->;
    repeat match goal with
           | H : _ ∧ _ |- _ => destruct H
           | H : ?x = ?x → _ |- _ => specialize (H eq_refl)
           end; try split; congruence.
Qed.

Lemma evolvesBut_refl X s : evolvesBut X s s.
Proof. split; auto using frozen_refl. Qed.

Lemma evolvesBut_trans X s1 s2 s3 :
  evolvesBut X s1 s2 → evolvesBut X s2 s3 → evolvesBut X s1 s3.
Proof.
  intros [] []. split; intros.
  - auto.
  - etrans; [apply ev_callbacks1|]; auto.
  - etrans; eauto.
  - etrans; eauto.
  - congruence.
  - congruence.
  - auto.
  - congruence.
  - eapply frozen_trans; eauto.
  - auto.
Qed.

Lemma evolves_evolvesBut X s s' : evolves s s' → evolvesBut X s s'.
Proof. intros []. split; auto; intros; by apply ev_frozen0. Qed.

(** What the phase being compiled excuses does not matter when that phase
    was open at the start. *)
Lemma evolvesBut_evolves T s s' :
  isLocked T s = false → evolvesBut (Some T) s s' → evolves s s'.
Proof.
  intros HT []. split; auto. intros P HP _. apply ev_frozen0; [done|].
  intros [= ->]. congruence.
Qed.

Lemma Math_max_zero_nonNegative n : negative (Math_max zero n) = false.
Proof. by destruct n as [[]|[]| |[] m e]. Qed.

Lemma evolvesBut_data X f s : benign f → evolvesBut X s (set_data (f (data s)) s).
Proof.
  intros Hf. destruct (Hf (data s)) as (Hb & Hl & Ho).
  split; simpl; auto using frozen_refl; unfold callbacksOf; simpl;
    try by rewrite Hb.
  unfold clamped; simpl. by rewrite Hl, Ho.
Qed.

Lemma evolvesBut_limit X n s :
  evolvesBut X s (set_data (set_data.limit (Some (Math_max zero n)) (data s)) s).
Proof.
  split; simpl; auto using frozen_refl.
  unfold clamped; simpl. intros (_ & ? & ? & ?).
  auto using Math_max_zero_nonNegative.
Qed.

Lemma evolvesBut_offset X n s :
  evolvesBut X s (set_data (set_data.offset (Some (Math_max zero n)) (data s)) s).
Proof.
  split; simpl; auto using frozen_refl.
  unfold clamped; simpl. intros (? & _ & ? & ?).
  auto using Math_max_zero_nonNegative.
Qed.

Lemma callbacksOf_register field fn P s :
  callbacksOf P
    (set_data
       (set_data.beforeLock
          (<[field := default [] (data.beforeLock (data s) !! field) ++ [fn]]>
             (data.beforeLock (data s))) (data s)) s) =
  if decide (field = P) then callbacksOf P s ++ [fn] else callbacksOf P s.
Proof.
  unfold callbacksOf; simpl. rewrite lookup_insert.
  by destruct (decide (field = P)) as [->|].
Qed.

Lemma evolvesBut_beforeLock X field fn : preserves (evolvesBut X) (beforeLock field fn).
Proof.
  intros s. unfold after, beforeLock. rewrite bind_unfold, checkLock_unfold.
  destruct (isLocked field s) eqn:E; [apply evolvesBut_refl|].
  unfold update_data, modify.
  split; simpl; auto using frozen_refl; intros P;
    rewrite ?callbacksOf_register; destruct (decide (field = P)) as [->|];
    try done.
  - congruence.
  - by apply prefix_app_r.
Qed.

Lemma evolvesBut_Symbol X s : evolvesBut X s (set_symbols (S (symbols s)) s).
Proof. split; simpl; auto using frozen_refl. Qed.

Lemma evolvesBut_finalize X s : evolvesBut X s (set_finalized true s).
Proof. split; simpl; auto using frozen_refl. Qed.

Lemma evolvesBut_record X e s :
  evolvesBut X s (set_history (history s ++ [e]) s).
Proof. split; simpl; auto using frozen_refl. by apply prefix_app_r. Qed.

Lemma isLocked_insert type P v s :
  isLocked P (set_locks (<[type := v]> (locks s)) s) =
  if decide (type = P) then truthyLock (Some v) else isLocked P s.
Proof.
  unfold isLocked; simpl. rewrite lookup_insert.
  by destruct (decide (type = P)).
Qed.

Lemma truthy_lockValue s :
  truthyLock (Some (if isDev s then LockStack (Error_stack s) else LockTrue)) = true.
Proof. by destruct (isDev s). Qed.

Lemma evolvesBut_setLock X type : preserves (evolvesBut X) (setLock type).
Proof.
  intros s. unfold after, setLock. rewrite bind_unfold. unfold modify, record.
  eapply evolvesBut_trans; [|apply evolvesBut_record].
  split; simpl; auto using frozen_refl.
  intros P HP. rewrite isLocked_insert.
  destruct (decide _); [apply truthy_lockValue|done].
Qed.

Lemma lock_unfold fuel type s :
  lock (S fuel) type s =
  if isLocked type s then Returns tt s
  else (runBeforeLock fuel type 0;; setLock type;; compile (lock fuel) type) s.
Proof. reflexivity. Qed.

Lemma lock_locked fuel type s :
  isLocked type s = true → lock fuel type s = Returns tt s.
Proof. intros H. destruct fuel; simpl; by rewrite H. Qed.

Lemma runBeforeLock_unfold fuel type i s :
  runBeforeLock (S fuel) type i s =
  match callbacksOf type s !! i with
  | None => Returns tt s
  | Some fn =>
      (record (Fired type i);;
       invoke (lock fuel) fn;;
       runBeforeLock fuel type (S i)) s
  end.
Proof. reflexivity. Qed.

Lemma after_mono {A} (m : M A) s (Q Q' : State → Prop) :
  (∀ s', Q s' → Q' s') → after m s Q → after m s Q'.
Proof. unfold after. destruct (m s); auto. Qed.

Lemma after_gets_bind {A B} (f : State → A) (k : A → M B) s Q :
  after (k (f s)) s Q → after (gets f ≫= k) s Q.
Proof. done. Qed.

(** Writing the compiled data of the phase [T] only. *)
Lemma evolvesBut_compiled T f s :
  (∀ P c, P ≠ T → frozen P c (f c)) →
  (∀ c, compiledData.cursorComparator (f c) = compiledData.cursorComparator c) →
  (clamped s → clamped (set_compiledData (f (compiledData s)) s)) →
  evolvesBut (Some T) s (set_compiledData (f (compiledData s)) s).
Proof.
  intros Hf Hc Hcl. split; simpl; auto.
  intros P _ HP. apply Hf. congruence.
Qed.

Ltac frozen_field :=
  intros ? ? ?; unfold frozen; repeat apply conj; intros ->; done.

Ltac keeps_clamped :=
  unfold clamped; simpl; tauto.

Section Evolving.

Variable X : option string.
Variable lock : string → M unit.
Hypothesis lock_evolves : ∀ type, preserves (evolvesBut X) (lock type).

Lemma call_evolvesBut c : preserves (evolvesBut X) (call lock c).
Proof.
  exact (preserves_call (evolvesBut X) (evolvesBut_refl X)
           (evolvesBut_trans X) (evolvesBut_data X) (evolvesBut_limit X)
           (evolvesBut_offset X) (evolvesBut_beforeLock X)
           (evolvesBut_Symbol X) (evolvesBut_finalize X) lock lock_evolves c).
Qed.

Lemma invoke_evolvesBut fn : preserves (evolvesBut X) (invoke lock fn).
Proof.
  exact (preserves_invoke (evolvesBut X) (evolvesBut_refl X)
           (evolvesBut_trans X) (evolvesBut_data X) (evolvesBut_limit X)
           (evolvesBut_offset X) (evolvesBut_beforeLock X)
           (evolvesBut_Symbol X) (evolvesBut_finalize X) lock lock_evolves fn).
Qed.

Lemma callIfNecessary_evolvesBut g : preserves (evolvesBut X) (callIfNecessary lock g).
Proof.
  exact (preserves_callIfNecessary (evolvesBut X) (evolvesBut_refl X)
           (evolvesBut_trans X) lock lock_evolves g).
Qed.

End Evolving.

Lemma compile_evolvesBut lock T :
  (∀ type, preserves evolves (lock type)) →
  preserves (evolvesBut (Some T)) (compile lock T).
Proof.
  intros Hlock.
  assert (Hl : ∀ type, preserves (evolvesBut (Some T)) (lock type)).
  { intros type s. eapply after_mono; [|apply Hlock].
    auto using evolves_evolvesBut. }
  pose proof (evolvesBut_refl (Some T)) as Hrefl.
  pose proof (evolvesBut_trans (Some T)) as Htrans.
  pose proof (callIfNecessary_evolvesBut (Some T) lock Hl) as Hgen.
  assert (Hpair : ∀ B (x : SQLGen * B),
    preserves (evolvesBut (Some T))
      (let '(a, b) := x in a' ← callIfNecessary lock a; ret (a', b))).
  { intros B [a b]. apply preserves_bind; auto using preserves_ret. }
  assert (Hwrite : ∀ (f : compiledData.t → compiledData.t) s,
    (∀ P c, P ≠ T → frozen P c (f c)) →
    (∀ c, compiledData.cursorComparator (f c) = compiledData.cursorComparator c) →
    (clamped s → clamped (set_compiledData (f (compiledData s)) s)) →
    after (update_compiled f) s (evolvesBut (Some T) s)).
  { intros f s ? ? ?. by apply evolvesBut_compiled. }
  pose proof (λ A B, @preserves_bind _ Htrans A B) as Hbind.
  pose proof (λ A B, @preserves_mapArray _ Hrefl Htrans A B) as Hmap.
  pose proof (λ A, @preserves_ret _ Hrefl A) as Hret.
  intros s. unfold compile. apply after_gets_bind.
  repeat match goal with
         | |- context [String.eqb T ?x] =>
             destruct (String.eqb_spec T x) as [->|]
         end.
  - apply Hret.
  - apply Hbind; [by apply Hmap|intros lower].
    apply Hbind; [|intros _].
    { intros s'. apply Hwrite; [frozen_field|done|keeps_clamped]. }
    apply Hbind; [by apply preserves_gets|intros d].
    apply Hbind; [by apply Hmap|intros upper s'].
    apply Hwrite; [frozen_field|done|keeps_clamped].
  - apply Hbind; [by apply Hmap|intros c s'].
    apply Hwrite; [frozen_field|done|keeps_clamped].
  - apply Hbind; [by apply Hmap|intros c s'].
    apply Hwrite; [frozen_field|done|keeps_clamped].
  - destruct (data.from (data s)) as [f|]; [|apply Hret].
    apply Hbind; [done|intros c s'].
    apply Hwrite; [frozen_field|done|keeps_clamped].
  - apply Hbind; [by apply Hmap|intros c s'].
    apply Hwrite; [frozen_field|done|keeps_clamped].
  - apply Hbind; [by apply Hmap|intros c s'].
    apply Hwrite; [frozen_field|done|keeps_clamped].
  - apply Hbind; [|intros c s'].
    { destruct (data.selectCursor (data s)); [|apply Hret].
      apply Hbind; [done|intros; apply Hret]. }
    apply Hwrite; [frozen_field|done|keeps_clamped].
  - apply Hwrite; [frozen_field|done|keeps_clamped].
  - apply Hwrite; [frozen_field|done|keeps_clamped].
  - apply Hwrite; [frozen_field|done|keeps_clamped].
  - apply Hwrite; [frozen_field|done|keeps_clamped].
  - apply Hwrite; [frozen_field|done|keeps_clamped].
  - by apply preserves_throw.
Qed.

(** Every run of [lock], and of the callbacks it calls, evolves the state. *)
Lemma lock_runBeforeLock_evolves fuel :
  (∀ type, preserves evolves (lock fuel type))
  ∧ (∀ type i, preserves evolves (runBeforeLock fuel type i)).
Proof.
  induction fuel as [|fuel [IHlock IHrun]].
  - split.
    + intros type s. unfold after. simpl.
      destruct (isLocked type s); [apply evolvesBut_refl|done].
    + intros type i s. unfold after. simpl.
      destruct (callbacksOf type s !! i); [done|apply evolvesBut_refl].
  - split.
    + intros type s. unfold after. rewrite lock_unfold.
      destruct (isLocked type s) eqn:E; [apply evolvesBut_refl|].
      assert (H : preserves (evolvesBut (Some type))
                    (runBeforeLock fuel type 0;; setLock type;;
                     compile (lock fuel) type)).
      { apply preserves_bind; [apply evolvesBut_trans| |].
        - intros s'. eapply after_mono; [|apply IHrun].
          auto using evolves_evolvesBut.
        - intros _. apply preserves_bind; [apply evolvesBut_trans| |].
          + apply evolvesBut_setLock.
          + intros _. by apply compile_evolvesBut. }
      eapply after_mono; [|apply H]. eauto using evolvesBut_evolves.
    + intros type i s. unfold after. rewrite runBeforeLock_unfold.
      destruct (callbacksOf type s !! i) as [fn|]; [|apply evolvesBut_refl].
      change (after (record (Fired type i);; invoke (lock fuel) fn;;
                     runBeforeLock fuel type (S i)) s (evolves s)).
      revert s. apply preserves_bind; [apply evolvesBut_trans| |].
      * apply preserves_modify. intros. apply evolvesBut_record.
      * intros _. apply preserves_bind; [apply evolvesBut_trans| |]; [|auto].
        by apply invoke_evolvesBut.
Qed.

Lemma lock_evolves fuel type : preserves evolves (lock fuel type).
Proof. apply lock_runBeforeLock_evolves. Qed.

Lemma call_evolves fuel c : preserves evolves (call (lock fuel) c).
Proof. apply call_evolvesBut, lock_evolves. Qed.

Lemma runBeforeLock_evolves fuel type i :
  preserves evolves (runBeforeLock fuel type i).
Proof. apply lock_runBeforeLock_evolves. Qed.

Lemma invoke_evolves fuel fn : preserves evolves (invoke (lock fuel) fn).
Proof. apply invoke_evolvesBut, lock_evolves. Qed.

Lemma bind_returns {A B} (m : M A) (k : A → M B) s b s' :
  (m ≫= k) s = Returns b s' →
  ∃ a s1, m s = Returns a s1 ∧ k a s1 = Returns b s'.
Proof. rewrite bind_unfold. destruct (m s) eqn:E; [eauto|done..]. Qed.

(** The state [setLock] leaves. *)
Definition marked (type : string) (s : State) : State :=
  let s' :=
    set_locks
      (<[type := if isDev s then LockStack (Error_stack s) else LockTrue]>
         (locks s)) s in
  set_history (history s' ++ [Locked type]) s'.

Lemma setLock_unfold type s : setLock type s = Returns tt (marked type s).
Proof. reflexivity. Qed.

Lemma isLocked_marked type P s :
  isLocked P (marked type s) = if decide (type = P) then true else isLocked P s.
Proof.
  unfold marked, isLocked; simpl. rewrite lookup_insert.
  destruct (decide (type = P)); [apply truthy_lockValue|done].
Qed.

(** The steps of a [lock(type)] that finds the phase open. *)
Lemma lock_returns_open fuel type s s' :
  isLocked type s = false →
  lock fuel type s = Returns tt s' →
  ∃ fuel' s1,
    fuel = S fuel'
    ∧ runBeforeLock fuel' type 0 s = Returns tt s1
    ∧ compile (lock fuel') type (marked type s1) = Returns tt s'.
Proof.
  intros E H. destruct fuel as [|fuel]; [simpl in H; by rewrite E in H|].
  rewrite lock_unfold, E in H.
  apply bind_returns in H as ([] & s1 & H1 & H).
  apply bind_returns in H as ([] & s2 & H2 & H).
  rewrite setLock_unfold in H2. injection H2 as <-. eauto.
Qed.

Lemma lock_returns_locked fuel type s s' :
  lock fuel type s = Returns tt s' → isLocked type s' = true.
Proof.
  intros H. destruct (isLocked type s) eqn:E.
  - rewrite lock_locked in H by done. by injection H as <-.
  - apply lock_returns_open in H as (fuel' & s1 & -> & H1 & H2); [|done].
    eapply ev_locks.
    + eapply preserves_returns; [|exact H2].
      apply compile_evolvesBut, lock_evolves.
    + rewrite isLocked_marked. by rewrite decide_True.
Qed.

(** ** States a builder goes through *)

(** [reaches s s']: [s'] is what some sequence of method calls, returned or
    thrown, makes of [s]. *)
Inductive reaches (s : State) : State → Prop :=
| reaches_here : reaches s s
| reaches_returns s1 s2 fuel c :
    reaches s s1 → call (lock fuel) c s1 = Returns tt s2 → reaches s s2
| reaches_throws s1 s2 fuel c e :
    reaches s s1 → call (lock fuel) c s1 = Throws e s2 → reaches s s2.

Lemma reaches_evolves s s' : reaches s s' → evolves s s'.
Proof.
  induction 1 as [|s1 s2 fuel c _ IH H|s1 s2 fuel c e _ IH H].
  - apply evolvesBut_refl.
  - eapply evolvesBut_trans; [exact IH|].
    eapply preserves_returns; [apply call_evolves|exact H].
  - eapply evolvesBut_trans; [exact IH|].
    eapply preserves_throws; [apply call_evolves|exact H].
Qed.

Lemma reaches_trans s1 s2 s3 : reaches s1 s2 → reaches s2 s3 → reaches s1 s3.
Proof. induction 2; eauto using reaches. Qed.

(** ** The history of one [lock] *)

(** The events of a loop over callbacks: callback [i], what it did, callback
    [i + 1], what it did, and so on. *)
Fixpoint firing (type : string) (i : nat) (bodies : list (list Event)) : list Event :=
  match bodies with
  | [] => []
  | body :: bodies' => Fired type i :: body ++ firing type (S i) bodies'
  end.

Lemma runBeforeLock_history fuel : ∀ (type : string) (i : nat) s s',
  (i ≤ length (callbacksOf type s))%nat →
  runBeforeLock fuel type i s = Returns tt s' →
  ∃ bodies,
    history s' = history s ++ firing type i bodies
    ∧ (i + length bodies = length (callbacksOf type s'))%nat.
Proof.
  induction fuel as [|fuel IH]; intros type i s s' Hi H.
  - simpl in H. destruct (callbacksOf type s !! i) eqn:E; [done|].
    injection H as <-. exists []. simpl. rewrite app_nil_r. split; [done|].
    apply lookup_ge_None in E. lia.
  - rewrite runBeforeLock_unfold in H.
    destruct (callbacksOf type s !! i) as [fn|] eqn:E.
    + apply bind_returns in H as ([] & s1 & H1 & H).
      apply bind_returns in H as ([] & s2 & H2 & H).
      injection H1 as <-.
      pose proof (preserves_returns _ _ _ _ _ (invoke_evolves fuel fn) H2) as Hev.
      destruct (ev_history _ _ _ Hev) as [body Hbody]. simpl in Hbody.
      apply IH in H as (bodies & Hh & Hl).
      * exists (body :: bodies). simpl. split; [|lia].
        rewrite Hh, Hbody. by rewrite <- !app_assoc.
      * apply lookup_lt_Some in E.
        pose proof (ev_registered _ _ _ Hev type) as Hp. simpl in Hp.
        apply prefix_length in Hp. unfold callbacksOf in *. simpl in *. lia.
    + injection H as <-. exists []. simpl. rewrite app_nil_r. split; [done|].
      apply lookup_ge_None in E. lia.
Qed.

#[global] Instance Event_eq_dec : EqDecision Event.
Proof. solve_decision. Defined.

(** How often an event occurs in a history. *)
Definition times (e : Event) (h : list Event) : nat :=
  length (filter (λ e', e' = e) h).

(** A configuration whose callbacks and lazy predicate call back into the
    builder: the source is configured last, its phase has a callback that
    reads the ordering, the ordering has a callback that locks "where", and
    the predicate needs the table alias. *)
Definition reentrantConfiguration : M unit :=
  beforeLock "from" (Script [call_getOrderByExpressionsAndDirections]);;
  beforeLock "orderBy" (Script [call_buildWhereClause false false false]);;
  where_ (DeferredOnAlias
            (λ a, sql.fragment [""; ".age > 18"] [sql.value a]));;
  from (lock 12) (Some (Known (sql.identifier [Name "users"])))
    (Alias (sql.identifier [Name "u"])).

(** A new builder in a dev build after [lock("select")]. *)
Definition afterLockSelect : State :=
  Eval vm_compute in
    match lock 3 "select" (new true "") with
    | Returns _ s => s
    | _ => new true ""
    end.

(** A new builder after [lockEverything()]. *)
Definition finalizedBuilder : State :=
  Eval vm_compute in
    match lockEverything (lock 3) (new false "") with
    | Returns _ s => s
    | _ => new false ""
    end.

(** A new builder after [buildWhereClause] and after
    [buildWhereBoundClause]. *)
Definition whereLockedBuilder : State :=
  Eval vm_compute in
    match lock 3 "where" (new false "") with
    | Returns _ s => s
    | _ => new false ""
    end.

Definition boundLockedBuilder : State :=
  Eval vm_compute in
    match lock 3 "whereBound" (new false "") with
    | Returns _ s => s
    | _ => new false ""
    end.

(** What [build()] returns on a new builder, and the builder it leaves. *)
Definition builtByDefault : SQL * State :=
  Eval vm_compute in
    match build (lock 3) defaultOptions (new false "") with
    | Returns r s => (r, s)
    | _ => (sql.literal Null, new false "")
    end.



(** A new builder after [limit(-3)]. *)
Definition limitedBuilder : State :=
  Eval vm_compute in
    match limit (lock 1) (ofZ (-3)) (new false "") with
    | Returns _ s => s
    | _ => new false ""
    end.

(** [limitedBuilder] after [orderBy(sql.identifier("id"))]. *)
Definition orderedBuilder : State :=
  Eval vm_compute in
    match orderBy (Known (sql.identifier [Name "id"])) true limitedBuilder with
    | Returns _ s => s
    | _ => limitedBuilder
    end.

(** [orderedBuilder] after
    [from(sql.identifier("users"), sql.identifier("u"))]. *)
Definition sourcedBuilder : State :=
  Eval vm_compute in
    match
      from (lock 1) (Some (Known (sql.identifier [Name "users"])))
        (Alias (sql.identifier [Name "u"])) orderedBuilder
    with
    | Returns _ s => s
    | _ => orderedBuilder
    end.

Definition finalizedSourcedBuilder : State :=
  Eval vm_compute in
    match lockEverything (lock 3) sourcedBuilder with
    | Returns _ s => s
    | _ => sourcedBuilder
    end.

(** A new builder after [isOrderUnique()], and after [setOrderIsUnique()]
    on top of that. *)
Definition askedBuilder : State :=
  Eval vm_compute in
    match isOrderUnique (lock 1) (new false "") with
    | Returns _ s => s
    | _ => new false ""
    end.

Definition uniqueLateBuilder : State :=
  Eval vm_compute in
    match setOrderIsUnique askedBuilder with
    | Returns _ s => s
    | _ => askedBuilder
    end.

(** Evaluates the run a statement is about. *)
Ltac run_builder :=
  match goal with
  | |- match ?o with _ => _ end =>
      let v := eval vm_compute in o in
      replace o with v by (vm_compute; reflexivity);
      cbv beta iota
  end.

(** ** The lock discipline *)

(** C1, at the failing input: on a new builder, [isOrderUnique()] locks the
    phase "orderIsUnique" (a mutator that checked the lock would throw the
    already-locked error there), and [setOrderIsUnique()] then returns
    normally and changes the draft from [false] to [true]; the compiled flag
    stays [false]. *)
Theorem setOrderIsUnique_ignores_lock isDev frames fuel :
  match isOrderUnique (lock (S fuel)) (new isDev frames) with
  | Returns unique s1 =>
      isLocked "orderIsUnique" s1 = true
      ∧ match checkLock "orderIsUnique" s1 with
        | Throws (AlreadyLocked type _) _ => type = "orderIsUnique"
        | _ => False
        end
      ∧ match setOrderIsUnique s1 with
        | Returns _ s2 =>
            data.orderIsUnique (data s1) = false
            ∧ data.orderIsUnique (data s2) = true
            ∧ compiledData.orderIsUnique (compiledData s2) = false
            ∧ isLocked "orderIsUnique" s2 = true
        | _ => False
        end
  | _ => False
  end.
Proof. destruct isDev, fuel; vm_compute; by repeat split. Qed.

(** C2, counterexample: with [reentrantConfiguration] on a new builder every
    call returns, and during the one [lock("from")] of [from] the callback
    registered for "from" is called twice and "from" is locked and compiled
    twice; the same holds for "orderBy". *)
Lemma lock_runs_callbacks_twice :
  match reentrantConfiguration (new false "") with
  | Returns _ s =>
      times (Fired "from" 0) (history s) = 2
      ∧ times (Locked "from") (history s) = 2
      ∧ times (Fired "orderBy" 0) (history s) = 2
      ∧ times (Locked "orderBy") (history s) = 2
  | _ => False
  end.
Proof. vm_compute. done. Qed.

(** C6, at the failing input: on a new builder [setCursorComparator(fn)]
    stores [fn] in the draft and locks the phase, but [lock] never copies it
    to [compiledData], and [cursorCondition(cursorValue, isAfter)] throws
    "No cursor comparator was set!" instead of returning
    [fn(cursorValue, isAfter)]. *)
Theorem cursorCondition_ignores_comparator isDev frames fuel fn cursorValue isAfter :
  match setCursorComparator (lock (S fuel)) fn (new isDev frames) with
  | Returns _ s1 =>
      data.cursorComparator (data s1) = Some fn
      ∧ isLocked "cursorComparator" s1 = true
      ∧ match cursorCondition (lock (S fuel)) cursorValue isAfter s1 with
        | Throws e _ => e = NoCursorComparator
        | _ => False
        end
  | _ => False
  end.
Proof. destruct isDev, fuel; vm_compute; by repeat split. Qed.

(** ** The wiring of the constructor *)

(** The callback the constructor registers on "where" is still the first
    one, and "where" is locked only once "whereBound" is. *)
Definition wired (s : State) : Prop :=
  (isLocked "where" s = true → isLocked "whereBound" s = true)
  ∧ callbacksOf "where" s !! 0 = Some whereBoundHook.

Definition keepsWired (s s' : State) : Prop := wired s → wired s'.

Lemma after_bind {A B} (m : M A) (k : A → M B) s (Q : State → Prop) :
  (∀ e s1, m s = Throws e s1 → Q s1) →
  (∀ a s1, m s = Returns a s1 → after (k a) s1 Q) →
  after (m ≫= k) s Q.
Proof.
  intros Ht Hr. unfold after in *. rewrite bind_unfold.
  destruct (m s) as [a s1|e s1|]; [by apply Hr|by eapply Ht|done].
Qed.

Section CompilePreservation.

Variable R : State → State → Prop.
Hypothesis R_refl : ∀ s, R s s.
Hypothesis R_trans : ∀ s1 s2 s3, R s1 s2 → R s2 s3 → R s1 s3.
Hypothesis R_compiled : ∀ f s, R s (set_compiledData (f (compiledData s)) s).
Variable lock : string → M unit.
Hypothesis R_lock : ∀ type, preserves R (lock type).

Lemma preserves_compile T : preserves R (compile lock T).
Proof.
  pose proof (λ A B, @preserves_bind _ R_trans A B) as Hbind.
  pose proof (λ A B, @preserves_mapArray _ R_refl R_trans A B) as Hmap.
  pose proof (λ A, @preserves_ret _ R_refl A) as Hret.
  pose proof (preserves_callIfNecessary _ R_refl R_trans lock R_lock) as Hgen.
  assert (Hwrite : ∀ f, preserves R (update_compiled f)).
  { intros f s. apply R_compiled. }
  assert (Hpair : ∀ B (x : SQLGen * B),
    preserves R (let '(a, b) := x in a' ← callIfNecessary lock a; ret (a', b))).
  { intros B [a b]. apply Hbind; [done|intros; apply Hret]. }
  unfold compile. apply Hbind; [by apply preserves_gets|intros d].
  repeat match goal with
         | |- context [String.eqb T ?x] => destruct (String.eqb T x)
         end;
    try done; try by apply preserves_throw.
  - apply Hbind; [by apply Hmap|intros lower].
    apply Hbind; [done|intros _].
    apply Hbind; [by apply preserves_gets|intros d'].
    apply Hbind; [by apply Hmap|done].
  - apply Hbind; [by apply Hmap|done].
  - apply Hbind; [by apply Hmap|done].
  - destruct (data.from d); [|done]. apply Hbind; done.
  - apply Hbind; [by apply Hmap|done].
  - apply Hbind; [by apply Hmap|done].
  - apply Hbind; [|done].
    destruct (data.selectCursor d); [|done].
    apply Hbind; [done|intros; apply Hret].
Qed.

End CompilePreservation.

Lemma keepsWired_refl s : keepsWired s s.
Proof. by intros ?. Qed.

Lemma keepsWired_trans s1 s2 s3 :
  keepsWired s1 s2 → keepsWired s2 s3 → keepsWired s1 s3.
Proof. unfold keepsWired. auto. Qed.

Lemma keepsWired_same s s' :
  locks s' = locks s →
  data.beforeLock (data s') = data.beforeLock (data s) →
  keepsWired s s'.
Proof.
  intros Hl Hb. unfold keepsWired, wired, isLocked, callbacksOf.
  by rewrite Hl, Hb.
Qed.

Lemma keepsWired_beforeLock field fn : preserves keepsWired (beforeLock field fn).
Proof.
  intros s. unfold after, beforeLock. rewrite bind_unfold, checkLock_unfold.
  destruct (isLocked field s) eqn:E; [apply keepsWired_refl|].
  unfold update_data, modify. intros [Hw Hc]. split; [done|].
  rewrite callbacksOf_register. destruct (decide _); [|done].
  by apply lookup_app_l_Some.
Qed.

Lemma call_keepsWired lock c :
  (∀ type, preserves keepsWired (lock type)) →
  preserves keepsWired (call lock c).
Proof.
  intros Hlock.
  apply (preserves_call keepsWired keepsWired_refl keepsWired_trans);
    try done; intros; try by apply keepsWired_same.
  - apply keepsWired_same; [done|]. simpl. apply H.
  - apply keepsWired_beforeLock.
Qed.

Lemma invoke_keepsWired lock fn :
  (∀ type, preserves keepsWired (lock type)) →
  preserves keepsWired (invoke lock fn).
Proof.
  intros Hlock.
  apply (preserves_invoke keepsWired keepsWired_refl keepsWired_trans);
    try done; intros; try by apply keepsWired_same.
  - apply keepsWired_same; [done|]. simpl. apply H.
  - apply keepsWired_beforeLock.
Qed.

(** The callbacks of "where" lock "whereBound". *)
Lemma runBeforeLock_where fuel s s1 :
  wired s →
  runBeforeLock fuel "where" 0 s = Returns tt s1 →
  isLocked "whereBound" s1 = true.
Proof.
  intros [_ Hhook] H.
  destruct fuel as [|fuel]; [simpl in H; by rewrite Hhook in H|].
  rewrite runBeforeLock_unfold, Hhook in H.
  apply bind_returns in H as ([] & sa & Ha & H). injection Ha as <-.
  apply bind_returns in H as ([] & sb & Hb & H). simpl in Hb.
  apply lock_returns_locked in Hb.
  eapply ev_locks; [|exact Hb].
  eapply preserves_returns; [apply runBeforeLock_evolves|exact H].
Qed.

Lemma lock_runBeforeLock_keepsWired fuel :
  (∀ type, preserves keepsWired (lock fuel type))
  ∧ (∀ type i, preserves keepsWired (runBeforeLock fuel type i)).
Proof.
  induction fuel as [|fuel [IHlock IHrun]].
  - split.
    + intros type s. unfold after. simpl.
      destruct (isLocked type s); [apply keepsWired_refl|done].
    + intros type i s. unfold after. simpl.
      destruct (callbacksOf type s !! i); [done|apply keepsWired_refl].
  - split.
    + intros type s. unfold after. rewrite lock_unfold.
      destruct (isLocked type s) eqn:E; [apply keepsWired_refl|].
      apply after_bind.
      { intros e s1 H. eapply preserves_throws; [apply IHrun|exact H]. }
      intros [] s1 Hrun. apply after_bind; [done|].
      intros [] s2 [= <-].
      assert (Hm : keepsWired s (marked type s1)).
      { intros Hw.
        pose proof (preserves_returns _ _ _ _ _ (IHrun type 0) Hrun Hw) as [Hw1 Hc1].
        split; [|exact Hc1].
        rewrite !isLocked_marked.
        destruct (decide (type = "whereBound")); [done|].
        destruct (decide (type = "where")) as [->|]; [|done].
        intros _. by eapply runBeforeLock_where. }
      eapply after_mono; [intros s'; by apply keepsWired_trans|].
      apply (preserves_compile keepsWired keepsWired_refl keepsWired_trans);
        [|exact IHlock].
      intros. by apply keepsWired_same.
    + intros type i s. unfold after. rewrite runBeforeLock_unfold.
      destruct (callbacksOf type s !! i) as [fn|]; [|apply keepsWired_refl].
      change (after (record (Fired type i);; invoke (lock fuel) fn;;
                     runBeforeLock fuel type (S i)) s (keepsWired s)).
      revert s. apply preserves_bind; [apply keepsWired_trans| |].
      * apply preserves_modify. intros. by apply keepsWired_same.
      * intros _. apply preserves_bind; [apply keepsWired_trans| |]; [|auto].
        by apply invoke_keepsWired.
Qed.

Lemma reaches_wired isDev frames s : reaches (new isDev frames) s → wired s.
Proof.
  induction 1 as [|s1 s2 fuel c _ IH H|s1 s2 fuel c e _ IH H].
  - by destruct isDev.
  - eapply (preserves_returns keepsWired); [|exact H|exact IH].
    apply call_keepsWired, lock_runBeforeLock_keepsWired.
  - eapply (preserves_throws keepsWired); [|exact H|exact IH].
    apply call_keepsWired, lock_runBeforeLock_keepsWired.
Qed.

(** ** Finalization *)

(** The phases [lockEverything] calls [lock] on, in its order. *)
Definition lockedByLockEverything : list string :=
  ["from"; "flip"; "join"; "offset"; "limit"; "orderBy"; "cursorComparator";
   "where"; "selectCursor"; "select"].

(** The phase whose lock a mutator checks before it does anything else;
    [setOrderIsUnique] checks none, and [whereBound] checks the type of
    [isLower] first. *)
Definition checkedPhase (c : Call) : option string :=
  match c with
  | call_beforeLock field _ => Some field
  | call_setCursorComparator _ => Some "cursorComparator"
  | call_select _ _ => Some "select"
  | call_selectCursor _ => Some "selectCursor"
  | call_from _ _ => Some "from"
  | call_where _ => Some "where"
  | call_whereBound _ (Some _) => Some "whereBound"
  | call_orderBy _ _ => Some "orderBy"
  | call_limit _ => Some "limit"
  | call_offset _ => Some "offset"
  | call_flip => Some "flip"
  | _ => None
  end.

(** The fields of the class are the same in both states. *)
Definition sameBuilder (s s' : State) : Prop :=
  locks s' = locks s
  ∧ finalized s' = finalized s
  ∧ data s' = data s
  ∧ compiledData s' = compiledData s.

Lemma checked_mutator_throws lock c P s :
  checkedPhase c = Some P →
  isLocked P s = true →
  ∃ s', call lock c s = Throws (AlreadyLocked P (lockSite (locks s !! P))) s'
        ∧ sameBuilder s s'.
Proof.
  intros Hc HP.
  destruct c as [| | | | |expr alias| |g [isLower|]| | | | | | | | | | | | | | | | |];
    simpl in Hc; try discriminate; injection Hc as <-; simpl;
    unfold beforeLock, setCursorComparator, select, selectCursor, from, where_,
      whereBound, orderBy, limit, offset, flip;
    try destruct alias;
    unfold isLocked in HP;
    rewrite ?bind_unfold; simpl; rewrite ?bind_unfold, checkLock_unfold;
    unfold isLocked; simpl; rewrite HP;
    by eexists.
Qed.

Lemma forEach_lock_returns fuel l : ∀ s s1,
  forEach (lock fuel) l s = Returns tt s1 →
  Forall (λ P, isLocked P s1 = true) l ∧ evolves s s1.
Proof.
  induction l as [|P l IH]; intros s s1 H; simpl in H.
  - injection H as <-. split; [done|apply evolvesBut_refl].
  - apply bind_returns in H as ([] & sa & Ha & H).
    apply IH in H as [Hl Hev]. split.
    + constructor; [|done].
      apply (ev_locks _ _ _ Hev). by eapply lock_returns_locked.
    + eapply evolvesBut_trans; [|exact Hev].
      eapply preserves_returns; [apply lock_evolves|exact Ha].
Qed.

Lemma lockEverything_forEach lock s :
  lockEverything lock s = (_finalize;; forEach lock lockedByLockEverything) s.
Proof.
  unfold lockEverything, lockedByLockEverything. simpl.
  rewrite !bind_unfold. simpl.
  repeat (rewrite ?bind_unfold;
          match goal with
          | |- context [lock ?P ?s'] => destruct (lock P s') as [[] ?| |]
          end; try done).
Qed.

Lemma lockEverything_returns fuel s s1 :
  lockEverything (lock fuel) s = Returns tt s1 →
  finalized s1 = true
  ∧ Forall (λ P, isLocked P s1 = true) lockedByLockEverything
  ∧ evolves s s1.
Proof.
  rewrite lockEverything_forEach. intros H.
  apply bind_returns in H as ([] & sa & [= <-] & H).
  apply forEach_lock_returns in H as [Hl Hev].
  split; [by apply (ev_finalized _ _ _ Hev)|]. split; [done|].
  eapply evolvesBut_trans; [apply evolvesBut_finalize|exact Hev].
Qed.

(** C4, counterexample: on a new builder [lockEverything()] returns with
    [finalized] set, and afterwards the mutator call
    [beforeLock("orderIsUnique", fn)] returns normally and adds [fn] to the
    draft. *)
Lemma mutator_returns_after_lockEverything :
  match lockEverything (lock 3) (new false "") with
  | Returns _ s1 =>
      finalized s1 = true
      ∧ match beforeLock "orderIsUnique" (Script []) s1 with
        | Returns _ s2 =>
            callbacksOf "orderIsUnique" s1 = []
            ∧ callbacksOf "orderIsUnique" s2 = [Script []]
        | _ => False
        end
  | _ => False
  end.
Proof. vm_compute. done. Qed.

(** ** The where clause *)

(** The spec's where compiler: the clauses ANDed in order, an always-true
    condition when there is none. *)
Definition spec_allOf (clauses : list SQL) : SQL :=
  match clauses with
  | [] => sql.fragment ["1 = 1"] []
  | _ => sql.fragment ["("; ")"] [sql.value (sql.join clauses ") and (")]
  end.

(** The spec's bound-clause compiler: the predicates of one bound ANDed, the
    literal [true] when there is none. *)
Definition spec_bound (clauses : list SQL) : SQL :=
  match clauses with
  | [] => sql.literal (Boolean true)
  | _ => sql.fragment ["("; ")"] [sql.value (sql.join clauses ") and (")]
  end.

Definition spec_nullGuard (alias : SQL) : SQL :=
  sql.fragment ["not ("; " is null)"] [sql.value alias].

Definition boundOf (isLower : bool) (c : compiledData.t) : list SQL :=
  if isLower then compiledData.whereBound_lower c
  else compiledData.whereBound_upper c.

Lemma evolves_frozen P s s' :
  evolves s s' → isLocked P s = true →
  frozen P (compiledData s) (compiledData s').
Proof. intros Hev HP. by apply (ev_frozen _ _ _ Hev). Qed.

Lemma getTableAlias_returns fuel s a s' :
  getTableAlias (lock fuel) s = Returns a s' →
  lock fuel "from" s = Returns tt s'
  ∧ ∃ f, compiledData.from (compiledData s') = Some f ∧ a = f.2.
Proof.
  unfold getTableAlias. intros H.
  apply bind_returns in H as ([] & s1 & H1 & H).
  apply bind_returns in H as (f & s2 & [= <- <-] & H).
  destruct (compiledData.from (compiledData s1)) as [f|] eqn:E; [|done].
  injection H as <- <-. eauto.
Qed.

Lemma buildWhereBoundClause_returns fuel isLower s r s' :
  buildWhereBoundClause (lock fuel) isLower s = Returns r s' →
  lock fuel "whereBound" s = Returns tt s'
  ∧ r = spec_bound (boundOf isLower (compiledData s')).
Proof.
  unfold buildWhereBoundClause. intros H.
  apply bind_returns in H as ([] & s1 & H1 & H).
  apply bind_returns in H as (clauses & s2 & [= <- <-] & H).
  unfold boundOf. destruct isLower.
  - destruct (compiledData.whereBound_lower (compiledData s1)) eqn:El;
      simpl in H; injection H as <- <-; by rewrite El.
  - destruct (compiledData.whereBound_upper (compiledData s1)) eqn:El;
      simpl in H; injection H as <- <-; by rewrite El.
Qed.

Lemma optional_bound_returns fuel (requested isLower : bool) s l s' :
  (if requested
   then c ← buildWhereBoundClause (lock fuel) isLower; ret [c]
   else ret []) s = Returns l s' →
  evolves s s'
  ∧ (requested = true → isLocked "whereBound" s' = true)
  ∧ l = if requested
        then [spec_bound (boundOf isLower (compiledData s'))]
        else [].
Proof.
  destruct requested.
  - intros H. apply bind_returns in H as (c & s1 & H1 & [= <- <-]).
    apply buildWhereBoundClause_returns in H1 as [H1 ->].
    split; [|split; [|done]].
    + eapply preserves_returns; [apply lock_evolves|exact H1].
    + intros _. by eapply lock_returns_locked.
  - intros [= <- <-]. split; [apply evolvesBut_refl|done].
Qed.

Lemma spec_allOf_length clauses :
  (if bool_decide (length clauses ≠ 0)
   then ret (sql.fragment ["("; ")"] [sql.value (sql.join clauses ") and (")])
   else ret (sql.fragment ["1 = 1"] [])) = ret (spec_allOf clauses).
Proof. by destruct clauses. Qed.

(** What [buildWhereClause] returns, in terms of the compiled state it
    leaves. *)
Lemma buildWhereClause_returns fuel lower upper nullCase s r s' :
  buildWhereClause (lock fuel) lower upper nullCase s = Returns r s' →
  isLocked "where" s' = true
  ∧ ∃ guard,
      (if nullCase
       then ∃ f, compiledData.from (compiledData s') = Some f
                 ∧ guard = [spec_nullGuard f.2]
       else guard = [])
      ∧ r = spec_allOf
              (guard
               ++ compiledData.where_ (compiledData s')
               ++ (if lower then [spec_bound (boundOf true (compiledData s'))]
                   else [])
               ++ (if upper then [spec_bound (boundOf false (compiledData s'))]
                   else [])).
Proof.
  unfold buildWhereClause. intros H.
  apply bind_returns in H as ([] & s1 & H1 & H).
  apply lock_returns_locked in H1.
  apply bind_returns in H as (guard & s2 & Hg & H).
  apply bind_returns in H as (wheres & s2' & [= <- <-] & H).
  apply bind_returns in H as (lo & s3 & Hlo & H).
  apply bind_returns in H as (up & s4 & Hup & H).
  cbv zeta in H. rewrite spec_allOf_length in H. injection H as <- <-.
  apply optional_bound_returns in Hlo as (Hev3 & Hl3 & ->).
  apply optional_bound_returns in Hup as (Hev4 & _ & ->).
  assert (Hev2 : evolves s1 s2
                 ∧ (nullCase = true → isLocked "from" s2 = true)).
  { destruct nullCase.
    - apply bind_returns in Hg as (a & sx & Ha & [= _ <-]).
      apply getTableAlias_returns in Ha as [Ha _]. split.
      + eapply preserves_returns; [apply lock_evolves|exact Ha].
      + intros _. by eapply lock_returns_locked.
    - injection Hg as _ <-. split; [apply evolvesBut_refl|done]. }
  destruct Hev2 as [Hev2 Hfrom].
  pose proof (ev_locks _ _ _ Hev2 _ H1) as Hw2.
  pose proof (evolvesBut_trans _ _ _ _ Hev3 Hev4) as Hev24.
  split; [by apply (ev_locks _ _ _ Hev24)|].
  destruct (evolves_frozen _ _ _ Hev24 Hw2) as (_&_&_&_&_&Hwhere&_).
  rewrite <- (Hwhere eq_refl).
  assert (Hlower : lower = true →
    boundOf true (compiledData s3) = boundOf true (compiledData s4)).
  { intros Hlo. destruct (evolves_frozen _ _ _ Hev4 (Hl3 Hlo))
      as (_&_&_&_&_&_&Hb&_).
    destruct (Hb eq_refl) as [Hb1 _]. simpl. by rewrite Hb1. }
  exists guard. split.
  - destruct nullCase; [|by injection Hg as <- _].
    apply bind_returns in Hg as (a & sx & Ha & [= <- <-]).
    apply getTableAlias_returns in Ha as (_ & f & Hf & ->).
    destruct (evolves_frozen _ _ _ Hev24 (Hfrom eq_refl)) as (_&_&_&Hfr&_).
    exists f. by rewrite (Hfr eq_refl).
  - destruct lower; [|done]. by rewrite Hlower.
Qed.

(** C5, counterexample: on a builder with a source and no predicate,
    [buildWhereClause(false, false, {addNullCase: true})] compiles the null
    guard alone, not [1 = 1]. *)
Lemma guard_alone_is_not_always_true :
  match
    (from (lock 3) (Some (Known (sql.identifier [Name "users"])))
       (Alias (sql.identifier [Name "u"]));;
     buildWhereClause (lock 3) false false true) (new false "")
  with
  | Returns r s =>
      data.where_ (data s) = []
      ∧ compiledData.where_ (compiledData s) = []
      ∧ r = sql.fragment ["("; ")"]
              [sql.value (sql.join
                 [sql.fragment ["not ("; " is null)"]
                    [sql.value (sql.identifier [Name "u"])]]
                 ") and (")]
      ∧ r ≠ sql.fragment ["1 = 1"] []
  | _ => False
  end.
Proof. vm_compute. by repeat split. Qed.

(** C5, amended: when [buildWhereClause] returns, the phase "where" is
    locked and the clause is the conjunction, in this order, of the null
    guard [not (alias is null)] when [addNullCase] is set, the compiled
    predicates, the lower bound when requested and the upper bound when
    requested; with no predicate, no bound requested and no null guard it is
    [1 = 1]. When [buildWhereBoundClause] returns, it is the conjunction of
    the compiled predicates of that bound, the literal [true] when there is
    none. *)
Theorem where_clause_compiled :
  (∀ fuel lower upper nullCase s r s',
     buildWhereClause (lock fuel) lower upper nullCase s = Returns r s' →
     (∃ guard,
        (if nullCase
         then ∃ f, compiledData.from (compiledData s') = Some f
                   ∧ guard = [spec_nullGuard f.2]
         else guard = [])
        ∧ r = spec_allOf
                (guard
                 ++ compiledData.where_ (compiledData s')
                 ++ (if lower then [spec_bound (boundOf true (compiledData s'))]
                     else [])
                 ++ (if upper then [spec_bound (boundOf false (compiledData s'))]
                     else [])))
     ∧ (nullCase = false → lower = false → upper = false →
        compiledData.where_ (compiledData s') = [] →
        r = sql.fragment ["1 = 1"] []))
  ∧ (∀ fuel isLower s r s',
       buildWhereBoundClause (lock fuel) isLower s = Returns r s' →
       r = spec_bound (boundOf isLower (compiledData s'))
       ∧ (boundOf isLower (compiledData s') = [] →
          r = sql.literal (Boolean true))).
Proof.
  split.
  - intros fuel lower upper nullCase s r s' H.
    apply buildWhereClause_returns in H as (_ & guard & Hg & ->).
    split; [by exists guard|].
    intros -> -> -> Hw. subst guard. by rewrite Hw.
  - intros fuel isLower s r s' H.
    apply buildWhereBoundClause_returns in H as [_ ->].
    split; [done|]. by intros ->.
Qed.

Lemma where_clause_compiled_witness :
  buildWhereClause (lock 3) false false false (new false "") =
    Returns (sql.fragment ["1 = 1"] []) whereLockedBuilder
  ∧ buildWhereBoundClause (lock 3) true (new false "") =
      Returns (sql.literal (Boolean true)) boundLockedBuilder
  ∧ sql.fragment ["1 = 1"] [] = sql.fragment ["1 = 1"] []
  ∧ sql.literal (Boolean true) = sql.literal (Boolean true).
Proof.
  assert (H1 : buildWhereClause (lock 3) false false false (new false "") =
               Returns (sql.fragment ["1 = 1"] []) whereLockedBuilder)
    by (vm_compute; reflexivity).
  assert (H2 : buildWhereBoundClause (lock 3) true (new false "") =
               Returns (sql.literal (Boolean true)) boundLockedBuilder)
    by (vm_compute; reflexivity).
  split; [exact H1|]. split; [exact H2|]. split.
  - apply (proj1 where_clause_compiled 3 false false false (new false "")
             _ whereLockedBuilder H1); vm_compute; reflexivity.
  - apply (proj2 where_clause_compiled 3 true (new false "")
             _ boundLockedBuilder H2); vm_compute; reflexivity.
Defined.

(** ** The assembled statement *)

(** The [i]-th interpolation of a template. *)
Definition clauseAt (i : nat) (q : SQL) : option Slot :=
  match q with
  | sql.fragment _ values => values !! i
  | _ => None
  end.

(** What [build] makes of the select statement: the reversal wrapper when
    the builder is flipped, then the aggregation wrapper in aggregate mode. *)
Definition assembled (aggregate : bool) (c : compiledData.t)
    (flipAlias aggAlias : RawAlias) (statement : SQL) : SQL :=
  let flipped :=
    if compiledData.flip c then flipWrapper flipAlias statement else statement in
  if aggregate then aggregateWrapper aggAlias flipped else flipped.




Lemma Symbol_returns s a s' :
  Symbol s = Returns a s' → compiledData s' = compiledData s.
Proof. by intros [= <- <-]. Qed.

Lemma build_returns fuel options s r s' :
  onlyJsonField options = false →
  build (lock fuel) options s = Returns r s' →
  ∃ fields fromSlot joins whereClause flipAlias aggAlias,
    r = assembled (asJsonAggregate options) (compiledData s') flipAlias aggAlias
          (selectStatement fields fromSlot joins whereClause (compiledData s')).
Proof.
  unfold build. intros Hjson H. rewrite Hjson in H.
  apply bind_returns in H as ([] & s1 & _ & H).
  apply bind_returns in H as (fields & s2 & _ & H).
  apply bind_returns in H as (cfrom & s3 & _ & H).
  apply bind_returns in H as (fromSlot & s4 & _ & H).
  apply bind_returns in H as (joins & s5 & _ & H).
  apply bind_returns in H as (whereClause & s6 & _ & H).
  apply bind_returns in H as (c & s7 & [= <- <-] & H).
  cbv zeta in H.
  apply bind_returns in H as (flipped & s8 & Hflip & H).
  exists fields, fromSlot, joins, whereClause.
  unfold assembled.
  destruct (compiledData.flip (compiledData s6)) eqn:Ef.
  - apply bind_returns in Hflip as (flipAlias & s9 & Hs & [= <- <-]).
    apply Symbol_returns in Hs as Hc9. exists flipAlias.
    destruct (asJsonAggregate options).
    + apply bind_returns in H as (aggAlias & s10 & Ha & [= <- <-]).
      apply Symbol_returns in Ha as Hc10. exists aggAlias.
      by rewrite Hc10, Hc9, Ef.
    + injection H as <- <-. exists (Sym 0). by rewrite Hc9, Ef.
  - injection Hflip as <- <-. exists (Sym 0).
    destruct (asJsonAggregate options).
    + apply bind_returns in H as (aggAlias & s10 & Ha & [= <- <-]).
      apply Symbol_returns in Ha as Hc10. exists aggAlias.
      by rewrite Hc10, Ef.
    + injection H as <- <-. exists (Sym 0). by rewrite Ef.
Qed.







(** ** LIMIT and OFFSET *)

(** The spec's well-formed non-negative integer. *)
Definition spec_wellFormedCount (v : option number) : Prop :=
  ∃ n z, v = Some n ∧ integerValue n = Some z
         ∧ (0 ≤ z ≤ MAX_SAFE_INTEGER)%Z.

(** The interpolation holds a clause. *)
Definition emitted (slot : Slot) : Prop := ∃ q, slot = sql.value q.

Lemma reaches_clamped isDev frames s : reaches (new isDev frames) s → clamped s.
Proof.
  intros H. apply (ev_clamped _ _ _ (reaches_evolves _ _ H)).
  by destruct isDev.
Qed.

Lemma integerValue_nonNegative n z :
  negative n = false → integerValue n = Some z → (0 ≤ z)%Z.
Proof.
  destruct n as [sg|sg| |sg m e]; simpl; try done.
  - by intros _ [= <-].
  - destruct sg; [done|]. intros _.
    destruct e as [|p|p]; simpl.
    + intros [= <-]. lia.
    + intros [= <-]. apply Z.mul_nonneg_nonneg; [lia|].
      apply Z.pow_nonneg. lia.
    + destruct (_ =? 0)%Z; [|done]. intros [= <-].
      apply Z.div_pos; [lia|]. apply Z.pow_pos_nonneg; lia.
Qed.

Lemma isSafeInteger_spec v :
  nonNegative v → isSafeInteger v = true ↔ spec_wellFormedCount v.
Proof.
  intros Hn. unfold isSafeInteger, spec_wellFormedCount. split.
  - destruct v as [n|]; simpl; [|done].
    destruct (integerValue n) as [z|] eqn:E; [|done].
    intros H. apply andb_true_iff in H as [_ H]. apply Z.leb_le in H.
    exists n, z. repeat split; try done.
    by eapply integerValue_nonNegative.
  - intros (n & z & -> & E & H1 & H2). simpl. rewrite E.
    apply andb_true_iff. split; apply Z.leb_le; unfold MAX_SAFE_INTEGER in *; lia.
Qed.

Lemma positive_integer_truthy n z :
  integerValue n = Some z → (0 < z)%Z → truthyNumber n = true.
Proof. destruct n; simpl; try done. intros [= <-]. lia. Qed.

(** C7, counterexample: after [offset(0)] the compiled offset is the
    well-formed non-negative integer 0, and the statement [build] returns
    has no OFFSET clause: the interpolation holds the number itself. *)
Lemma offset_zero_not_emitted :
  match (offset (lock 3) (ofZ 0);; build (lock 3) defaultOptions) (new false "") with
  | Returns r s =>
      spec_wellFormedCount (compiledData.offset (compiledData s))
      ∧ clauseAt 6 r = Some (sql.novalue (Number zero))
      ∧ ¬ emitted (sql.novalue (Number zero))
  | _ => False
  end.
Proof.
  run_builder. split; [|split; [done|]].
  - exists (S754_zero false), 0%Z. by repeat split.
  - by intros [q Hq].
Qed.

(** Beside the claim: a positive offset that is no integer is emitted, here
    [offset 1.5]. *)
Lemma fractional_offset_emitted :
  match
    (offset (lock 3) (S754_finite false 3 (-1));; build (lock 3) defaultOptions)
      (new false "")
  with
  | Returns r s =>
      integerValue (S754_finite false 3 (-1)) = None
      ∧ clauseAt 6 r =
          Some (sql.value (sql.fragment ["offset "; ""]
                  [sql.value (sql.literal (Number (S754_finite false 3 (-1))))]))
  | _ => False
  end.
Proof. run_builder. by split. Qed.

(** C7, amended: in the statement [build] returns for a builder made by
    [new QueryBuilder()] and method calls, the LIMIT clause is emitted if and
    only if the compiled limit is a well-formed non-negative integer (a safe
    integer, at least 0), and it is then [limit n]; the OFFSET clause
    [offset n] is emitted when the compiled offset is a well-formed positive
    integer, and it is not emitted when the offset is unset, zero or NaN. *)
Theorem limit_offset_clauses isDev frames s fuel options r s' :
  reaches (new isDev frames) s →
  onlyJsonField options = false →
  build (lock fuel) options s = Returns r s' →
  ∃ statement flipAlias aggAlias limitClause offsetClause,
    r = assembled (asJsonAggregate options) (compiledData s') flipAlias aggAlias statement
    ∧ clauseAt 5 statement = Some limitClause
    ∧ clauseAt 6 statement = Some offsetClause
    ∧ (emitted limitClause ↔
       spec_wellFormedCount (compiledData.limit (compiledData s')))
    ∧ (∀ n, compiledData.limit (compiledData s') = Some n →
            emitted limitClause →
            limitClause = sql.value (sql.fragment ["limit "; ""]
                            [sql.value (sql.literal (Number n))]))
    ∧ (∀ n z, compiledData.offset (compiledData s') = Some n →
              integerValue n = Some z → (0 < z)%Z →
              offsetClause = sql.value (sql.fragment ["offset "; ""]
                               [sql.value (sql.literal (Number n))]))
    ∧ (compiledData.offset (compiledData s') = None
       ∨ (∃ sg, compiledData.offset (compiledData s') = Some (S754_zero sg))
       ∨ compiledData.offset (compiledData s') = Some NaN →
       ¬ emitted offsetClause).
Proof.
  intros Hs Hjson H.
  assert (Hc : clamped s').
  { apply (reaches_clamped isDev frames).
    apply (reaches_returns _ s s' fuel (call_build options)); [done|].
    simpl. by rewrite bind_unfold, H. }
  destruct Hc as (_ & _ & Hlimit & _).
  apply build_returns in H
    as (fields & fromSlot & joins & whereClause & flipAlias & aggAlias & ->);
    [|done].
  set (c := compiledData s') in *.
  exists (selectStatement fields fromSlot joins whereClause c),
    flipAlias, aggAlias, (limitSlot c), (offsetSlot c).
  split; [done|]. split; [done|]. split; [done|].
  pose proof (isSafeInteger_spec _ Hlimit) as Hsafe.
  unfold limitSlot, offsetSlot. repeat split.
  - intros [q Hq]. apply Hsafe.
    by destruct (isSafeInteger (compiledData.limit c)).
  - intros Hw. apply Hsafe in Hw. rewrite Hw. by eexists.
  - intros n Hn [q Hq]. rewrite Hn in *.
    by destruct (isSafeInteger (Some n)).
  - intros n z Hn Hz Hpos. rewrite Hn. simpl.
    by rewrite (positive_integer_truthy n z).
  - intros [Ho|[[sg Ho]|Ho]] [q Hq]; by rewrite Ho in Hq.
Qed.

Lemma limit_offset_clauses_witness :
  reaches (new false "") (new false "")
  ∧ onlyJsonField defaultOptions = false
  ∧ build (lock 3) defaultOptions (new false "") =
      Returns builtByDefault.1 builtByDefault.2
  ∧ ∃ statement limitClause,
      clauseAt 5 statement = Some limitClause
      ∧ (emitted limitClause ↔
         spec_wellFormedCount
           (compiledData.limit (compiledData builtByDefault.2))).
Proof.
  assert (H : build (lock 3) defaultOptions (new false "") =
              Returns builtByDefault.1 builtByDefault.2)
    by (vm_compute; reflexivity).
  split; [apply reaches_here|]. split; [reflexivity|]. split; [exact H|].
  destruct (limit_offset_clauses false "" (new false "") 3 defaultOptions
              builtByDefault.1 builtByDefault.2 (reaches_here _) eq_refl H)
    as (statement & _ & _ & limitClause & _ & _ & Hl & _ & Hiff & _).
  exists statement, limitClause. split; assumption.
Defined.

(** ** Building without a source *)

(** After finalization: [finalized] is set and every phase [lockEverything]
    goes through is locked. *)
Definition settled (s : State) : Prop :=
  finalized s = true
  ∧ Forall (λ P, isLocked P s = true) ("whereBound" :: lockedByLockEverything).

Definition noFields (c : compiledData.t) : bool :=
  bool_decide (length (compiledData.select c) = 0).

Lemma set_finalized_id s : finalized s = true → set_finalized true s = s.
Proof. destruct s; simpl. by intros ->. Qed.

Ltac settle H :=
  destruct H as [? H]; unfold lockedByLockEverything in H;
  repeat match type of H with
         | Forall _ (_ :: _) => apply Forall_cons in H as [? H]
         end.

Ltac step_locked :=
  rewrite bind_unfold, lock_locked by assumption; cbv beta iota.

Lemma lockEverything_settled fuel s :
  settled s → lockEverything (lock fuel) s = Returns tt s.
Proof.
  intros H. settle H. unfold lockEverything, _finalize, modify.
  rewrite bind_unfold. rewrite set_finalized_id by assumption.
  repeat step_locked. by apply lock_locked.
Qed.

Lemma getTableAlias_settled fuel s :
  settled s →
  getTableAlias (lock fuel) s =
  match compiledData.from (compiledData s) with
  | Some f => Returns f.2 s
  | None => Throws NoFromTable s
  end.
Proof.
  intros H. settle H. unfold getTableAlias. step_locked.
  rewrite bind_unfold. simpl. by destruct (compiledData.from _).
Qed.

Lemma buildSelectFields_settled fuel s :
  settled s → ∃ r, buildSelectFields (lock fuel) s = Returns r s.
Proof.
  intros H. unfold buildSelectFields.
  rewrite bind_unfold, lockEverything_settled by done. by eexists.
Qed.

Lemma buildSelectJson_settled fuel nullCase s :
  settled s →
  compiledData.from (compiledData s) = None →
  if noFields (compiledData s) || nullCase
  then buildSelectJson (lock fuel) nullCase s = Throws NoFromTable s
  else ∃ r, buildSelectJson (lock fuel) nullCase s = Returns r s.
Proof.
  intros H Hfrom. unfold buildSelectJson, noFields.
  rewrite bind_unfold, lockEverything_settled by done. cbv beta iota.
  rewrite bind_unfold. simpl.
  destruct (compiledData.select (compiledData s)) as [|e l]; simpl.
  - rewrite !bind_unfold, getTableAlias_settled, Hfrom by done. done.
  - rewrite bind_unfold. simpl. destruct nullCase; simpl.
    + rewrite bind_unfold, getTableAlias_settled, Hfrom by done. done.
    + by eexists.
Qed.

Lemma buildWhereBoundClause_settled fuel isLower s :
  settled s →
  buildWhereBoundClause (lock fuel) isLower s =
    Returns (spec_bound (boundOf isLower (compiledData s))) s.
Proof.
  intros H. settle H. unfold buildWhereBoundClause. step_locked.
  rewrite bind_unfold. simpl. unfold boundOf.
  by destruct isLower;
    [destruct (compiledData.whereBound_lower _)
    |destruct (compiledData.whereBound_upper _)].
Qed.

Lemma buildWhereClause_settled fuel (nullCase : bool) s :
  settled s →
  compiledData.from (compiledData s) = None →
  if nullCase
  then buildWhereClause (lock fuel) true true nullCase s = Throws NoFromTable s
  else ∃ r, buildWhereClause (lock fuel) true true nullCase s = Returns r s.
Proof.
  intros H Hfrom. pose proof H as H'. settle H'.
  unfold buildWhereClause. step_locked. rewrite bind_unfold.
  destruct nullCase.
  - by rewrite bind_unfold, getTableAlias_settled, Hfrom by done.
  - simpl. rewrite !bind_unfold. simpl.
    rewrite !bind_unfold, !buildWhereBoundClause_settled by done. simpl.
    rewrite !bind_unfold, !buildWhereBoundClause_settled by done. simpl.
    destruct (bool_decide _); by eexists.
Qed.

Lemma ret_bind {A B} (a : A) (k : A → M B) s : (ret a ≫= k) s = k a s.
Proof. reflexivity. Qed.

Lemma gets_bind {A B} (f : State → A) (k : A → M B) s :
  (gets f ≫= k) s = k (f s) s.
Proof. reflexivity. Qed.

Lemma Symbol_bind {B} (k : RawAlias → M B) s :
  (Symbol ≫= k) s = k (Sym (symbols s)) (set_symbols (S (symbols s)) s).
Proof. reflexivity. Qed.

Lemma bind_eq_returns {A B} (m : M A) (k : A → M B) s a s1 :
  m s = Returns a s1 → (m ≫= k) s = k a s1.
Proof. intros H. by rewrite bind_unfold, H. Qed.

Lemma bind_eq_throws {A B} (m : M A) (k : A → M B) s e s1 :
  m s = Throws e s1 → (m ≫= k) s = Throws e s1.
Proof. intros H. by rewrite bind_unfold, H. Qed.

Ltac mstep :=
  first
    [ rewrite ret_bind
    | rewrite gets_bind
    | rewrite Symbol_bind
    | match goal with
      | H : ?m ?s = Returns _ _ |- context [(?m ≫= _) ?s] =>
          rewrite (bind_eq_returns _ _ _ _ _ H)
      | H : ?m ?s = Throws _ _ |- context [(?m ≫= _) ?s] =>
          rewrite (bind_eq_throws _ _ _ _ _ H)
      end ];
  cbv beta.

(** [build] once [lockEverything] has returned on a builder without a
    compiled source. *)
Lemma build_rest_returns fuel (aggregate : bool) fields s :
  settled s →
  compiledData.from (compiledData s) = None →
  ∃ r s' statement flipAlias aggAlias,
    (cfrom ← gets (λ s, compiledData.from (compiledData s));
     fromSlot ←
       match cfrom with
       | None => ret (sql.novalue Null)
       | Some f =>
           a ← getTableAlias (lock fuel);
           ret (sql.value (sql.fragment ["from "; " as "; ""]
                             [sql.value f.1; sql.value a]))
       end;
     joins ← gets (λ s, joinSlot (compiledData s));
     whereClause ← buildWhereClause (lock fuel) true true false;
     c ← gets compiledData;
     let fragment := selectStatement fields fromSlot joins whereClause c in
     fragment ←
       (if compiledData.flip c
        then flipAlias ← Symbol; ret (flipWrapper flipAlias fragment)
        else ret fragment);
     if aggregate
     then aggAlias ← Symbol; ret (aggregateWrapper aggAlias fragment)
     else ret fragment) s = Returns r s'
    ∧ r = assembled aggregate (compiledData s') flipAlias aggAlias statement
    ∧ clauseAt 1 statement = Some (sql.novalue Null).
Proof.
  intros H Hfrom.
  destruct (buildWhereClause_settled fuel false s H Hfrom) as [rw Hw].
  rewrite gets_bind, Hfrom, ret_bind, gets_bind.
  rewrite (bind_eq_returns _ _ _ _ _ Hw), gets_bind. cbv zeta.
  unfold assembled.
  destruct (compiledData.flip (compiledData s)) eqn:Ef; destruct aggregate;
    rewrite ?bind_unfold;
    [ eexists _, _,
        (selectStatement fields (sql.novalue Null) _ rw (compiledData s)),
        (Sym (symbols s)), (Sym (S (symbols s)))
    | eexists _, _,
        (selectStatement fields (sql.novalue Null) _ rw (compiledData s)),
        (Sym (symbols s)), (Sym 0)
    | eexists _, _,
        (selectStatement fields (sql.novalue Null) _ rw (compiledData s)),
        (Sym 0), (Sym (symbols s))
    | eexists _, _,
        (selectStatement fields (sql.novalue Null) _ rw (compiledData s)),
        (Sym 0), (Sym 0) ];
    (split; [reflexivity|]); cbn [compiledData set_symbols]; rewrite Ef;
    by split.
Qed.

Lemma build_rest_throws fuel (aggregate : bool) fields s :
  settled s →
  compiledData.from (compiledData s) = None →
  (cfrom ← gets (λ s, compiledData.from (compiledData s));
   fromSlot ←
     match cfrom with
     | None => ret (sql.novalue Null)
     | Some f =>
         a ← getTableAlias (lock fuel);
         ret (sql.value (sql.fragment ["from "; " as "; ""]
                           [sql.value f.1; sql.value a]))
     end;
   joins ← gets (λ s, joinSlot (compiledData s));
   whereClause ← buildWhereClause (lock fuel) true true true;
   c ← gets compiledData;
   let fragment := selectStatement fields fromSlot joins whereClause c in
   fragment ←
     (if compiledData.flip c
      then flipAlias ← Symbol; ret (flipWrapper flipAlias fragment)
      else ret fragment);
   if aggregate
   then aggAlias ← Symbol; ret (aggregateWrapper aggAlias fragment)
   else ret fragment) s = Throws NoFromTable s.
Proof.
  intros H Hfrom.
  pose proof (buildWhereClause_settled fuel true s H Hfrom) as Hw.
  cbv beta iota in Hw.
  rewrite gets_bind, Hfrom, ret_bind, gets_bind.
  by rewrite (bind_eq_throws _ _ _ _ _ Hw).
Qed.

Lemma build_settled fuel options s :
  settled s →
  compiledData.from (compiledData s) = None →
  if addNullCase options
     || (onlyJsonField options || asJson options || asJsonAggregate options)
        && noFields (compiledData s)
  then build (lock fuel) options s = Throws NoFromTable s
  else ∃ r s',
    build (lock fuel) options s = Returns r s'
    ∧ (onlyJsonField options = false →
       ∃ statement flipAlias aggAlias,
         r = assembled (asJsonAggregate options) (compiledData s')
               flipAlias aggAlias statement
         ∧ clauseAt 1 statement = Some (sql.novalue Null)).
Proof.
  intros H Hfrom. unfold build.
  rewrite (bind_eq_returns _ _ _ _ _ (lockEverything_settled fuel s H)).
  destruct options as [json aggregate only nullCase]. cbn [onlyJsonField
    asJson asJsonAggregate addNullCase].
  pose proof (buildSelectJson_settled fuel nullCase s H Hfrom) as Hj.
  destruct (buildSelectFields_settled fuel s H) as [rf Hf].
  destruct only; cbn [orb].
  { rewrite orb_comm. destruct (_ || _); [done|].
    destruct Hj as [r Hj]. by exists r, s. }
  assert (Hrest : ∀ fields, ∃ r s',
    (cfrom ← gets (λ s, compiledData.from (compiledData s));
     fromSlot ←
       match cfrom with
       | None => ret (sql.novalue Null)
       | Some f =>
           a ← getTableAlias (lock fuel);
           ret (sql.value (sql.fragment ["from "; " as "; ""]
                             [sql.value f.1; sql.value a]))
       end;
     joins ← gets (λ s, joinSlot (compiledData s));
     whereClause ← buildWhereClause (lock fuel) true true false;
     c ← gets compiledData;
     let fragment := selectStatement fields fromSlot joins whereClause c in
     fragment ←
       (if compiledData.flip c
        then flipAlias ← Symbol; ret (flipWrapper flipAlias fragment)
        else ret fragment);
     if aggregate
     then aggAlias ← Symbol; ret (aggregateWrapper aggAlias fragment)
     else ret fragment) s = Returns r s'
    ∧ (false = false →
       ∃ statement flipAlias aggAlias,
         r = assembled aggregate (compiledData s') flipAlias aggAlias statement
         ∧ clauseAt 1 statement = Some (sql.novalue Null))).
  { intros fields.
    destruct (build_rest_returns fuel aggregate fields s H Hfrom)
      as (r & s' & statement & flipAlias & aggAlias & Hr & Has & Hc).
    exists r, s'. split; [done|]. intros _.
    by exists statement, flipAlias, aggAlias. }
  destruct (json || aggregate) eqn:Ejson; cbn [andb orb].
  - destruct (noFields (compiledData s)); cbn [orb] in Hj.
    { rewrite orb_true_r.
      by rewrite (bind_eq_throws _ _ _ _ _ (bind_eq_throws _ _ _ _ _ Hj)). }
    rewrite orb_false_r.
    destruct nullCase; cbn [orb] in Hj.
    { by rewrite (bind_eq_throws _ _ _ _ _ (bind_eq_throws _ _ _ _ _ Hj)). }
    destruct Hj as [rj Hj].
    assert (Hfields :
      (j ← buildSelectJson (lock fuel) false;
       ret (sql.fragment [""; " as object"] [sql.value j])) s =
      Returns (sql.fragment [""; " as object"] [sql.value rj]) s)
      by (by rewrite (bind_eq_returns _ _ _ _ _ Hj)).
    rewrite (bind_eq_returns _ _ _ _ _ Hfields).
    apply Hrest.
  - rewrite (bind_eq_returns _ _ _ _ _ Hf), orb_false_r.
    destruct nullCase.
    + by apply build_rest_throws.
    + apply Hrest.
Qed.

Lemma build_after_lockEverything fuel options s s1 :
  lockEverything (lock fuel) s = Returns tt s1 →
  settled s1 →
  build (lock fuel) options s = build (lock fuel) options s1.
Proof.
  intros Hle Hs. unfold build.
  rewrite (bind_eq_returns _ _ _ _ _ Hle).
  by rewrite (bind_eq_returns _ _ _ _ _ (lockEverything_settled fuel s1 Hs)).
Qed.

Lemma lockEverything_settles isDev frames s fuel s1 :
  reaches (new isDev frames) s →
  lockEverything (lock fuel) s = Returns tt s1 →
  settled s1.
Proof.
  intros Hs Hle.
  assert (Hr1 : reaches (new isDev frames) s1)
    by (by apply (reaches_returns _ s s1 fuel call_lockEverything)).
  destruct (reaches_wired _ _ _ Hr1) as [Hw _].
  apply lockEverything_returns in Hle as (Hf & Hl & _).
  split; [done|]. constructor; [|done]. apply Hw.
  rewrite Forall_forall in Hl. apply Hl.
  unfold lockedByLockEverything. rewrite !elem_of_cons. tauto.
Qed.

(** C8, counterexample: [build()] on a new builder, with no source
    configured, returns a statement; the interpolation of its FROM clause
    holds [null]. *)
Lemma build_returns_without_source :
  match build (lock 3) defaultOptions (new false "") with
  | Returns r s =>
      data.from (data s) = None
      ∧ clauseAt 1 r = Some (sql.novalue Null)
  | _ => False
  end.
Proof. run_builder. by split. Qed.

(** C8, amended: [from] throws "No from table source!" when the source is
    missing and "No from alias!" when the alias is [null] (on an open
    phase). [build] first locks every phase, and an error thrown there is
    the error of [build]: on a builder without a source, "No from table has
    been supplied" as soon as a lazy expression, such as a predicate of
    [where], calls [getTableAlias()].  When the phases have locked on a
    builder (made by [new QueryBuilder()] and method calls) and no source is
    compiled, [build] throws "No from table has been supplied" exactly when
    it needs the table alias itself: with [addNullCase], or in a JSON mode
    ([onlyJsonField], [asJson], [asJsonAggregate]) with no selected field.
    Otherwise it returns, and a statement it returns has no FROM clause. *)
Theorem build_without_source :
  (∀ lock alias s,
     isLocked "from" s = false →
     (∃ s', from lock None alias s = Throws NoFromSource s')
     ∧ ∀ expr, from lock (Some expr) NullAlias s = Throws NoFromAlias s)
  ∧ (∀ fuel options s e s1,
       lockEverything (lock fuel) s = Throws e s1 →
       build (lock fuel) options s = Throws e s1)
  ∧ (∀ isDev frames k options,
       ∃ s1,
         (where_ (DeferredOnAlias k);; build (lock 3) options)
           (new isDev frames) = Throws NoFromTable s1
         ∧ compiledData.from (compiledData s1) = None)
  ∧ ∀ isDev frames s fuel s1 options,
      reaches (new isDev frames) s →
      lockEverything (lock fuel) s = Returns tt s1 →
      compiledData.from (compiledData s1) = None →
      if addNullCase options
         || (onlyJsonField options || asJson options || asJsonAggregate options)
            && noFields (compiledData s1)
      then build (lock fuel) options s = Throws NoFromTable s1
      else ∃ r s',
        build (lock fuel) options s = Returns r s'
        ∧ (onlyJsonField options = false →
           ∃ statement flipAlias aggAlias,
             r = assembled (asJsonAggregate options) (compiledData s')
                   flipAlias aggAlias statement
             ∧ clauseAt 1 statement = Some (sql.novalue Null)).
Proof.
  split; [|split; [|split]].
  - intros lock alias s Hopen. split.
    + unfold from. destruct alias; rewrite ?bind_unfold; simpl;
        rewrite ?bind_unfold, checkLock_unfold;
        change (isLocked "from" (set_symbols _ s)) with (isLocked "from" s);
        rewrite Hopen; by eexists.
    + intros expr. unfold from. rewrite bind_unfold. simpl.
      by rewrite bind_unfold, checkLock_unfold, Hopen.
  - intros fuel options s e s1 H. unfold build.
    by rewrite bind_unfold, H.
  - intros isDev frames k options. destruct isDev; eexists; by vm_compute.
  - intros isDev frames s fuel s1 options Hs Hle Hfrom.
    pose proof (lockEverything_settles _ _ _ _ _ Hs Hle) as Hset.
    rewrite (build_after_lockEverything _ _ _ _ Hle Hset).
    by apply build_settled.
Qed.

Lemma build_without_source_witness :
  reaches (new false "") (new false "")
  ∧ lockEverything (lock 3) (new false "") = Returns tt finalizedBuilder
  ∧ compiledData.from (compiledData finalizedBuilder) = None
  ∧ ∃ r s', build (lock 3) defaultOptions (new false "") = Returns r s'.
Proof.
  assert (H : lockEverything (lock 3) (new false "") =
              Returns tt finalizedBuilder) by (vm_compute; reflexivity).
  split; [apply reaches_here|]. split; [exact H|]. split; [reflexivity|].
  pose proof (proj2 (proj2 (proj2 build_without_source)) false ""
                (new false "") 3 finalizedBuilder defaultOptions
                (reaches_here _) H eq_refl)
    as W.
  assert (Hc : addNullCase defaultOptions
               || (onlyJsonField defaultOptions || asJson defaultOptions
                   || asJsonAggregate defaultOptions)
                  && noFields (compiledData finalizedBuilder) = false)
    by reflexivity.
  rewrite Hc in W. destruct W as (r & s' & W & _). by exists r, s'.
Defined.



(** ** Callbacks that only configure *)

(** A call that adds configuration and locks nothing; the callbacks it
    registers are of the same kind. *)
Inductive tameCall : Call → Prop :=
| tame_beforeLock field body :
    Forall tameCall body → tameCall (call_beforeLock field (Script body))
| tame_select g alias : tameCall (call_select g alias)
| tame_selectCursor g : tameCall (call_selectCursor g)
| tame_where g : tameCall (call_where g)
| tame_whereBound g isLower : tameCall (call_whereBound g isLower)
| tame_setOrderIsUnique : tameCall call_setOrderIsUnique
| tame_orderBy g ascending : tameCall (call_orderBy g ascending).

Definition tameCallback (fn : Callback) : Prop :=
  ∃ body, fn = Script body ∧ Forall tameCall body.

(** The phases locked so far, in the order they were locked. *)
Definition lockedPhases (h : list Event) : list string :=
  omap (λ e, match e with Locked P => Some P | Fired _ _ => None end) h.

(** [tamely s s']: what configuration alone makes of a state. *)
Record tamely (s s' : State) : Prop := {
  tm_locks : locks s' = locks s;
  tm_events : lockedPhases (history s') = lockedPhases (history s);
  tm_compiled : compiledData s' = compiledData s;
  tm_limit : data.limit (data s') = data.limit (data s);
  tm_offset : data.offset (data s') = data.offset (data s);
  tm_added : ∀ P, ∃ added,
    callbacksOf P s' = callbacksOf P s ++ added ∧ Forall tameCallback added;
}.

Lemma tamely_refl s : tamely s s.
Proof.
  split; try done. intros P. exists []. by rewrite app_nil_r.
Qed.

Lemma tamely_trans s1 s2 s3 : tamely s1 s2 → tamely s2 s3 → tamely s1 s3.
Proof.
  intros [] []. split; try congruence.
  intros P. destruct (tm_added0 P) as (a1 & E1 & F1).
  destruct (tm_added1 P) as (a2 & E2 & F2).
  exists (a1 ++ a2). split; [by rewrite E2, E1, app_assoc|].
  by apply Forall_app.
Qed.

Lemma tamely_data f s :
  benign f → tamely s (set_data (f (data s)) s).
Proof.
  intros Hf. destruct (Hf (data s)) as (Hb & Hl & Ho).
  split; simpl; try done.
  intros P. exists []. unfold callbacksOf. simpl. by rewrite Hb, app_nil_r.
Qed.

Lemma tamely_fired P i s :
  tamely s (set_history (history s ++ [Fired P i]) s).
Proof.
  split; simpl; try done.
  - unfold lockedPhases. by rewrite omap_app, app_nil_r.
  - intros Q. exists []. by rewrite app_nil_r.
Qed.

Lemma tame_call lock c s : tameCall c → after (call lock c) s (tamely s).
Proof.
  intros Hc. unfold after.
  destruct Hc as [field body Hbody| | | |g [isLower|]| |]; simpl;
    unfold beforeLock, select, selectCursor, where_, whereBound,
      setOrderIsUnique, orderBy, throw;
    rewrite ?bind_unfold, ?checkLock_unfold;
    try match goal with
        | |- context [isLocked ?P s] => destruct (isLocked P s)
        end;
    try apply tamely_refl;
    unfold update_data, modify;
    try (apply tamely_data; intros d; simpl; by repeat case_match).
  - split; simpl; try done. intros P. rewrite callbacksOf_register.
    destruct (decide (field = P)).
    + exists [Script body]. split; [done|]. constructor; [|done].
      by exists body.
    + exists []. by rewrite app_nil_r.
  - destruct isLower.
    + by apply (tamely_data
        (λ d, set_data.whereBound_lower (data.whereBound_lower d ++ [g]) d)).
    + by apply (tamely_data
        (λ d, set_data.whereBound_upper (data.whereBound_upper d ++ [g]) d)).
Qed.

Lemma tame_script lock body s :
  Forall tameCall body → after (forEach (call lock) body) s (tamely s).
Proof.
  intros Hbody. revert s. induction Hbody as [|c body Hc _ IH]; intros s.
  - apply tamely_refl.
  - simpl. apply after_bind.
    + intros e s1 H. pose proof (tame_call lock c s Hc) as Ht.
      unfold after in Ht. by rewrite H in Ht.
    + intros [] s1 H. pose proof (tame_call lock c s Hc) as Ht.
      unfold after in Ht. rewrite H in Ht.
      eapply after_mono; [|apply IH]. intros s'. by apply tamely_trans.
Qed.

(** The loop over callbacks that are all of this kind, from index [i] on. *)
Lemma runBeforeLock_tame fuel : ∀ (P : string) (i : nat) s,
  Forall tameCallback (drop i (callbacksOf P s)) →
  after (runBeforeLock fuel P i) s (tamely s).
Proof.
  induction fuel as [|fuel IH]; intros P i s Hi; unfold after.
  - simpl. destruct (callbacksOf P s !! i); [done|apply tamely_refl].
  - rewrite runBeforeLock_unfold.
    destruct (callbacksOf P s !! i) as [fn|] eqn:E; [|apply tamely_refl].
    assert (Hfn : tameCallback fn).
    { rewrite Forall_forall in Hi. apply Hi.
      apply list_elem_of_lookup. exists 0. by rewrite lookup_drop, Nat.add_0_r. }
    destruct Hfn as (body & -> & Hbody).
    change (after (record (Fired P i);; invoke (lock fuel) (Script body);;
                   runBeforeLock fuel P (S i)) s (tamely s)).
    apply after_bind; [done|]. intros [] s1 [= <-].
    pose proof (tamely_fired P i s) as Hf.
    pose proof (tame_script (lock fuel) body
                  (set_history (history s ++ [Fired P i]) s) Hbody) as Ht.
    unfold after in Ht.
    apply after_bind.
    + intros e s2 H. simpl in H. rewrite H in Ht.
      by eapply tamely_trans.
    + intros [] s2 H. simpl in H. rewrite H in Ht.
      pose proof (tamely_trans _ _ _ Hf Ht) as H02.
      eapply after_mono; [intros s'; by apply tamely_trans|].
      apply IH. destruct (tm_added _ _ H02 P) as (added & -> & Hadded).
      rewrite <- (Nat.add_1_r i), <- drop_drop.
      apply Forall_drop. rewrite drop_app. apply Forall_app. split.
      * done.
      * by apply Forall_drop.
Qed.

(** ** Clamping *)

Lemma integerValue_finite sg m e z :
  integerValue (S754_finite sg m e) = Some z →
  ∃ x, (0 ≤ x)%Z ∧ z = cond_Zopp sg x.
Proof.
  simpl. destruct e as [|p|p].
  - intros [= <-]. eexists. split; [|done]. lia.
  - intros [= <-]. eexists. split; [|done].
    apply Z.mul_nonneg_nonneg; [lia|]. apply Z.pow_nonneg. lia.
  - destruct (_ =? 0)%Z; [|done]. intros [= <-]. eexists. split; [|done].
    apply Z.div_pos; [lia|]. apply Z.pow_pos_nonneg; lia.
Qed.

(** [Math.max(0, n)] on the integers is [Z.max 0]. *)
Lemma Math_max_integer n z :
  integerValue n = Some z →
  integerValue (Math_max zero n) = Some (Z.max 0 z).
Proof.
  destruct n as [sg|sg| |sg m e]; try done.
  - intros [= <-]. by destruct sg.
  - intros H. pose proof H as (x & Hx & ->)%integerValue_finite.
    destruct sg.
    + change (Math_max zero (S754_finite true m e)) with zero.
      simpl. f_equal. lia.
    + change (Math_max zero (S754_finite false m e))
        with (S754_finite false m e).
      rewrite H. simpl. f_equal. lia.
Qed.

Lemma compile_limit fuel s :
  compile (lock fuel) "limit" s =
  Returns tt
    (set_compiledData
       (set_compiled.limit (data.limit (data s)) (compiledData s)) s).
Proof. reflexivity. Qed.

Lemma compile_offset fuel s :
  compile (lock fuel) "offset" s =
  Returns tt
    (set_compiledData
       (set_compiled.offset (data.offset (data s)) (compiledData s)) s).
Proof. reflexivity. Qed.

Lemma limit_returns fuel n s s' :
  Forall tameCallback (callbacksOf "limit" s) →
  limit (lock fuel) n s = Returns tt s' →
  data.limit (data s') = Some (Math_max zero n)
  ∧ compiledData.limit (compiledData s') = Some (Math_max zero n).
Proof.
  intros Htame H. unfold limit in H.
  apply bind_returns in H as ([] & s0 & H0 & H).
  rewrite checkLock_unfold in H0.
  destruct (isLocked "limit" s) eqn:E; [done|]. injection H0 as <-.
  apply bind_returns in H as ([] & sa & [= <-] & H).
  apply lock_returns_open in H as (fuel' & sb & -> & Hrun & Hc); [|done].
  match type of Hrun with
  | runBeforeLock _ _ _ ?sa = _ =>
      pose proof (runBeforeLock_tame fuel' "limit" 0 sa Htame) as Ht
  end.
  unfold after in Ht. rewrite Hrun in Ht.
  rewrite compile_limit in Hc. injection Hc as <-. simpl.
  by rewrite (tm_limit _ _ Ht).
Qed.

Lemma offset_returns fuel n s s' :
  Forall tameCallback (callbacksOf "offset" s) →
  offset (lock fuel) n s = Returns tt s' →
  data.offset (data s') = Some (Math_max zero n)
  ∧ compiledData.offset (compiledData s') = Some (Math_max zero n).
Proof.
  intros Htame H. unfold offset in H.
  apply bind_returns in H as ([] & s0 & H0 & H).
  rewrite checkLock_unfold in H0.
  destruct (isLocked "offset" s) eqn:E; [done|]. injection H0 as <-.
  apply bind_returns in H as ([] & sa & [= <-] & H).
  apply lock_returns_open in H as (fuel' & sb & -> & Hrun & Hc); [|done].
  match type of Hrun with
  | runBeforeLock _ _ _ ?sa = _ =>
      pose proof (runBeforeLock_tame fuel' "offset" 0 sa Htame) as Ht
  end.
  unfold after in Ht. rewrite Hrun in Ht.
  rewrite compile_offset in Hc. injection Hc as <-. simpl.
  by rewrite (tm_offset _ _ Ht).
Qed.

(** ** The order of finalization *)

(** The fixed order: the phases of [lockEverything], with "whereBound"
    where the callback of "where" locks it. *)
Definition lockOrder : list string :=
  ["from"; "flip"; "join"; "offset"; "limit"; "orderBy"; "cursorComparator";
   "whereBound"; "where"; "selectCursor"; "select"].

(** The callbacks the constructor registers for a phase. *)
Definition hooksOf (P : string) : list Callback :=
  if String.eqb P "select" then [selectCursorHook]
  else if String.eqb P "where" then [whereBoundHook]
  else [].

(** The callbacks of the constructor come first, and whatever else is
    registered only configures. *)
Definition tameTable (s : State) : Prop :=
  ∀ P, ∃ l, callbacksOf P s = hooksOf P ++ l ∧ Forall tameCallback l.

(** The mutators a caller configures the builder with; a callback given to
    [beforeLock] only configures. *)
Definition configuring (c : Call) : Prop :=
  tameCall c
  ∨ match c with
    | call_setCursorComparator _ | call_from _ _ | call_limit _
    | call_offset _ | call_flip => True
    | _ => False
    end.

(** The builders made by [new QueryBuilder()] and mutator calls, returned
    or thrown, in any order and number. *)
Inductive configured (isDev : bool) (frames : string) : State → Prop :=
| configured_new : configured isDev frames (new isDev frames)
| configured_returns s s' fuel c :
    configured isDev frames s → configuring c →
    call (lock fuel) c s = Returns tt s' → configured isDev frames s'
| configured_throws s s' fuel c e :
    configured isDev frames s → configuring c →
    call (lock fuel) c s = Throws e s' → configured isDev frames s'.

Definition keepsTame (s s' : State) : Prop := tameTable s → tameTable s'.

(** What compiling lazy expressions does once "from" is locked: nothing but
    writes to [compiledData]. *)
Record quietly (s s' : State) : Prop := {
  q_locks : locks s' = locks s;
  q_history : history s' = history s;
  q_data : data s' = data s;
}.

Definition quietlyIfFrom (s s' : State) : Prop :=
  isLocked "from" s = true → quietly s s'.

(** The phases one [lock] of [lockEverything] locks. *)
Definition phasesOf (P : string) : list string :=
  if String.eqb P "where" then ["whereBound"; "where"] else [P].

Definition unlockedIn (s : State) (P : string) : bool := negb (isLocked P s).

Lemma configured_reaches isDev frames s :
  configured isDev frames s → reaches (new isDev frames) s.
Proof. induction 1; eauto using reaches. Qed.

Lemma tamely_tameTable s s' : tameTable s → tamely s s' → tameTable s'.
Proof.
  intros Ht Hs P. destruct (Ht P) as (l & E & Hl).
  destruct (tm_added _ _ Hs P) as (added & E' & Ha).
  exists (l ++ added). split; [by rewrite E', E, app_assoc|].
  by apply Forall_app.
Qed.

Lemma keepsTame_refl s : keepsTame s s.
Proof. by intros ?. Qed.

Lemma keepsTame_trans s1 s2 s3 :
  keepsTame s1 s2 → keepsTame s2 s3 → keepsTame s1 s3.
Proof. unfold keepsTame. auto. Qed.

Lemma keepsTame_same s s' :
  data.beforeLock (data s') = data.beforeLock (data s) → keepsTame s s'.
Proof. intros Hb Ht P. unfold callbacksOf. rewrite Hb. apply Ht. Qed.

Lemma after_impl {A} (m : M A) s (H : Prop) (Q : State → Prop) :
  (H → after m s Q) → after m s (λ s', H → Q s').
Proof. unfold after. destruct (m s); auto. Qed.

Lemma tame_call_keepsTame lock c : tameCall c → preserves keepsTame (call lock c).
Proof.
  intros Hc s. eapply after_mono; [|by apply tame_call].
  intros s' Hs Ht. by eapply tamely_tameTable.
Qed.

Lemma callbacks_kind P s fn :
  tameTable s → fn ∈ callbacksOf P s →
  fn = selectCursorHook ∨ fn = whereBoundHook ∨ tameCallback fn.
Proof.
  intros Ht Hfn. destruct (Ht P) as (l & E & Hl). rewrite E in Hfn.
  apply elem_of_app in Hfn as [Hfn|Hfn].
  - unfold hooksOf in Hfn.
    destruct (String.eqb P "select");
      [apply list_elem_of_singleton in Hfn; auto|].
    destruct (String.eqb P "where");
      [apply list_elem_of_singleton in Hfn; auto|].
    by apply elem_of_nil in Hfn.
  - rewrite Forall_forall in Hl. auto.
Qed.

Lemma lock_runBeforeLock_keepsTame fuel :
  (∀ type, preserves keepsTame (lock fuel type))
  ∧ (∀ type i, preserves keepsTame (runBeforeLock fuel type i)).
Proof.
  induction fuel as [|fuel [IHlock IHrun]].
  - split.
    + intros type s. unfold after. simpl.
      destruct (isLocked type s); [apply keepsTame_refl|done].
    + intros type i s. unfold after. simpl.
      destruct (callbacksOf type s !! i); [done|apply keepsTame_refl].
  - split.
    + intros type s. unfold after. rewrite lock_unfold.
      destruct (isLocked type s) eqn:E; [apply keepsTame_refl|].
      change (after (runBeforeLock fuel type 0;; setLock type;;
                     compile (lock fuel) type) s (keepsTame s)).
      revert s E. intros s _. revert s.
      apply preserves_bind; [apply keepsTame_trans|apply IHrun|].
      intros _. apply preserves_bind; [apply keepsTame_trans| |].
      * intros s. by apply keepsTame_same.
      * intros _.
        apply (preserves_compile keepsTame keepsTame_refl keepsTame_trans);
          [|exact IHlock].
        intros. by apply keepsTame_same.
    + intros type i s. unfold after. rewrite runBeforeLock_unfold.
      destruct (callbacksOf type s !! i) as [fn|] eqn:E;
        [|apply keepsTame_refl].
      change (after (record (Fired type i);; invoke (lock fuel) fn;;
                     runBeforeLock fuel type (S i)) s (keepsTame s)).
      apply after_impl. intros Ht.
      assert (Hfn : fn = selectCursorHook ∨ fn = whereBoundHook
                    ∨ tameCallback fn).
      { eapply callbacks_kind; [exact Ht|].
        apply list_elem_of_lookup. eauto. }
      apply after_bind; [done|]. intros [] s1 [= <-].
      assert (Ht1 : tameTable (set_history (history s ++ [Fired type i]) s))
        by (by apply (keepsTame_same s)).
      assert (Hinv : preserves keepsTame (invoke (lock fuel) fn)).
      { destruct Hfn as [->|[->|(body & -> & Hbody)]]; simpl.
        - apply preserves_bind; [apply keepsTame_trans|apply IHlock|].
          intros _. apply preserves_bind;
            [apply keepsTame_trans|apply preserves_gets, keepsTame_refl|].
          intros [c|]; [|apply preserves_ret, keepsTame_refl].
          apply (tame_call_keepsTame (lock fuel)
                   (call_select (Known c) (Name "__cursor"))).
          constructor.
        - apply IHlock.
        - intros s'. eapply after_mono; [|by apply tame_script].
          intros s'' Hs Ht'. by eapply tamely_tameTable. }
      eapply after_mono; [intros s' Hs; exact (Hs Ht1)|].
      apply (preserves_bind keepsTame keepsTame_trans); [exact Hinv|].
      intros _. apply IHrun.
Qed.

Lemma call_keepsTame fuel c :
  configuring c → preserves keepsTame (call (lock fuel) c).
Proof.
  pose proof (proj1 (lock_runBeforeLock_keepsTame fuel)) as Hlock.
  pose proof (λ A B, @preserves_bind keepsTame keepsTame_trans A B) as Hbind.
  assert (Hdata : ∀ f, benign f → preserves keepsTame (update_data f)).
  { intros f Hf s. apply keepsTame_same. simpl. apply Hf. }
  intros [Hc|Hc]; [by apply tame_call_keepsTame|].
  destruct c; try done; simpl;
    unfold setCursorComparator, from, limit, offset, flip.
  - apply Hbind; [apply preserves_checkLock, keepsTame_refl|intros _].
    apply Hbind; [by apply Hdata|intros _]. apply Hlock.
  - apply Hbind; [|intros a].
    { destruct alias.
      - apply Hbind; [|intros; apply preserves_ret, keepsTame_refl].
        intros s. by apply keepsTame_same.
      - apply preserves_ret, keepsTame_refl.
      - apply preserves_ret, keepsTame_refl. }
    apply Hbind; [apply preserves_checkLock, keepsTame_refl|intros _].
    destruct expr as [e|]; [|apply preserves_throw, keepsTame_refl].
    destruct a as [a|]; [|apply preserves_throw, keepsTame_refl].
    apply Hbind; [by apply Hdata|intros _]. apply Hlock.
  - apply Hbind; [apply preserves_checkLock, keepsTame_refl|intros _].
    apply Hbind; [|intros _; apply Hlock].
    intros s. by apply keepsTame_same.
  - apply Hbind; [apply preserves_checkLock, keepsTame_refl|intros _].
    apply Hbind; [|intros _; apply Hlock].
    intros s. by apply keepsTame_same.
  - apply Hbind; [apply preserves_checkLock, keepsTame_refl|intros _].
    apply Hbind; [by apply Hdata|intros _]. apply Hlock.
Qed.

Lemma new_tameTable isDev frames : tameTable (new isDev frames).
Proof.
  intros P. exists []. rewrite app_nil_r. unfold hooksOf.
  destruct (String.eqb_spec P "select") as [->|Hs]; [by destruct isDev|].
  destruct (String.eqb_spec P "where") as [->|Hw]; [by destruct isDev|].
  split; [|done]. unfold callbacksOf.
  change (data.beforeLock (data (new isDev frames)))
    with (<["where" := [whereBoundHook]]>
            (<["select" := [selectCursorHook]]> (∅ : gmap string (list Callback)))).
  by rewrite !lookup_insert_ne, lookup_empty by done.
Qed.

Lemma configured_tameTable isDev frames s :
  configured isDev frames s → tameTable s.
Proof.
  induction 1 as [|s s' fuel c _ IH Hc H|s s' fuel c e _ IH Hc H].
  - apply new_tameTable.
  - by eapply (preserves_returns keepsTame); [apply call_keepsTame|exact H|].
  - by eapply (preserves_throws keepsTame); [apply call_keepsTame|exact H|].
Qed.

Lemma quietly_refl s : quietly s s.
Proof. by split. Qed.

Lemma compile_quiet fuel T s s' :
  isLocked "from" s = true →
  compile (lock fuel) T s = Returns tt s' →
  quietly s s'.
Proof.
  intros Hfrom H.
  change (compile (lock fuel) T) with (compile (λ _, lock fuel "from") T) in H.
  eapply (preserves_returns quietlyIfFrom); [|exact H|exact Hfrom].
  apply preserves_compile.
  - intros s0 _. apply quietly_refl.
  - intros s1 s2 s3 H12 H23 Hl. destruct (H12 Hl) as [Hl2 Hh2 Hd2].
    assert (Hl' : isLocked "from" s2 = true)
      by (unfold isLocked; by rewrite Hl2).
    destruct (H23 Hl'). split; congruence.
  - by intros f s0 _.
  - intros _ s0. apply after_impl. intros Hl. unfold after.
    rewrite lock_locked by done. apply quietly_refl.
Qed.

Lemma lockedPhases_marked P s :
  lockedPhases (history (marked P s)) = lockedPhases (history s) ++ [P].
Proof. simpl. unfold lockedPhases. by rewrite omap_app. Qed.

(** What remains of [lock] once the callbacks have run. *)
Lemma lock_finish fuel P s sa s' :
  tameTable s →
  tamely s sa →
  (P = "from" ∨ isLocked "from" s = true) →
  compile (lock fuel) P (marked P sa) = Returns tt s' →
  tameTable s'
  ∧ lockedPhases (history s') = lockedPhases (history s) ++ [P]
  ∧ ∀ Q, isLocked Q s' = if decide (P = Q) then true else isLocked Q s.
Proof.
  intros Ht Hta Hfrom Hc.
  assert (Hq : quietly (marked P sa) s').
  { eapply compile_quiet; [|exact Hc]. rewrite isLocked_marked.
    destruct (decide (P = "from")); [done|]. destruct Hfrom as [->|Hf]; [done|].
    unfold isLocked. by rewrite (tm_locks _ _ Hta). }
  split; [|split].
  - intros Q. destruct (tamely_tameTable _ _ Ht Hta Q) as (l & El & Hl).
    exists l. split; [|done]. unfold callbacksOf in *.
    by rewrite (q_data _ _ Hq).
  - by rewrite (q_history _ _ Hq), lockedPhases_marked, (tm_events _ _ Hta).
  - intros Q. unfold isLocked at 1. rewrite (q_locks _ _ Hq).
    fold (isLocked Q (marked P sa)). rewrite isLocked_marked.
    destruct (decide (P = Q)); [done|]. unfold isLocked.
    by rewrite (tm_locks _ _ Hta).
Qed.

Lemma lock_plain fuel P s s' :
  tameTable s →
  hooksOf P = [] →
  (P = "from" ∨ isLocked "from" s = true) →
  isLocked P s = false →
  lock fuel P s = Returns tt s' →
  tameTable s'
  ∧ lockedPhases (history s') = lockedPhases (history s) ++ [P]
  ∧ ∀ Q, isLocked Q s' = if decide (P = Q) then true else isLocked Q s.
Proof.
  intros Ht Hh Hfrom E H.
  apply lock_returns_open in H as (f & sa & -> & Hrun & Hc); [|done].
  assert (Hta : tamely s sa).
  { pose proof (runBeforeLock_tame f P 0 s) as Hl. unfold after in Hl.
    rewrite Hrun in Hl. apply Hl. destruct (Ht P) as (l & El & Hl').
    by rewrite El, Hh. }
  by eapply lock_finish.
Qed.

Lemma lock_where fuel s s' :
  tameTable s →
  isLocked "from" s = true →
  isLocked "where" s = false →
  lock fuel "where" s = Returns tt s' →
  tameTable s'
  ∧ lockedPhases (history s') =
      lockedPhases (history s)
      ++ (if isLocked "whereBound" s then [] else ["whereBound"]) ++ ["where"]
  ∧ ∀ Q, isLocked Q s' =
         if decide ("whereBound" = Q) then true
         else if decide ("where" = Q) then true else isLocked Q s.
Proof.
  intros Ht Hfrom E H.
  apply lock_returns_open in H as (f & sa & -> & Hrun & Hc); [|done].
  destruct (Ht "where") as (l & El & Hl). change (hooksOf "where")
    with [whereBoundHook] in El.
  destruct f as [|f]; [simpl in Hrun; by rewrite El in Hrun|].
  rewrite runBeforeLock_unfold, El in Hrun. simpl in Hrun.
  apply bind_returns in Hrun as ([] & sr & [= <-] & Hrun).
  apply bind_returns in Hrun as ([] & sb & Hhook & Hrun).
  set (sr := set_history (history s ++ [Fired "where" 0]) s) in *.
  pose proof (tamely_fired "where" 0 s) as Hsr. fold sr in Hsr.
  pose proof (tamely_tameTable _ _ Ht Hsr) as Htr.
  assert (Hb : tameTable sb
    ∧ lockedPhases (history sb) =
        lockedPhases (history s)
        ++ (if isLocked "whereBound" s then [] else ["whereBound"])
    ∧ ∀ Q, isLocked Q sb =
           if decide ("whereBound" = Q) then true else isLocked Q s).
  { destruct (isLocked "whereBound" s) eqn:Ewb.
    - rewrite lock_locked in Hhook by done. injection Hhook as <-.
      split; [done|]. split; [by rewrite (tm_events _ _ Hsr), app_nil_r|].
      intros Q. by destruct (decide _) as [<-|].
    - apply lock_plain in Hhook as (Htb & Hpb & Hlb); try done; [|by right].
      split; [done|]. split; [by rewrite Hpb, (tm_events _ _ Hsr)|done]. }
  destruct Hb as (Htb & Hpb & Hlb).
  assert (Hta : tamely sb sa).
  { pose proof (runBeforeLock_tame f "where" 1 sb) as Hloop.
    unfold after in Hloop. rewrite Hrun in Hloop. apply Hloop.
    destruct (Htb "where") as (l' & El' & Hl').
    change (hooksOf "where") with [whereBoundHook] in El'. by rewrite El'. }
  assert (Hfb : "where" = "from" ∨ isLocked "from" sb = true).
  { right. rewrite Hlb. by destruct (decide _). }
  destruct (lock_finish _ _ _ _ _ Htb Hta Hfb Hc) as (Ht' & Hp' & Hl').
  split; [done|]. split; [by rewrite Hp', Hpb, <- app_assoc|].
  intros Q. rewrite Hl', Hlb.
  destruct (decide ("where" = Q)) as [<-|]; by repeat destruct (decide _).
Qed.

Lemma lock_select fuel s s' :
  tameTable s →
  isLocked "from" s = true →
  isLocked "selectCursor" s = true →
  isLocked "select" s = false →
  lock fuel "select" s = Returns tt s' →
  tameTable s'
  ∧ lockedPhases (history s') = lockedPhases (history s) ++ ["select"]
  ∧ ∀ Q, isLocked Q s' = if decide ("select" = Q) then true else isLocked Q s.
Proof.
  intros Ht Hfrom Hsc E H.
  apply lock_returns_open in H as (f & sa & -> & Hrun & Hc); [|done].
  destruct (Ht "select") as (l & El & Hl). change (hooksOf "select")
    with [selectCursorHook] in El.
  destruct f as [|f]; [simpl in Hrun; by rewrite El in Hrun|].
  rewrite runBeforeLock_unfold, El in Hrun. simpl in Hrun.
  apply bind_returns in Hrun as ([] & sr & [= <-] & Hrun).
  apply bind_returns in Hrun as ([] & sb & Hhook & Hrun).
  set (sr := set_history (history s ++ [Fired "select" 0]) s) in *.
  pose proof (tamely_fired "select" 0 s) as Hsr. fold sr in Hsr.
  rewrite bind_unfold, lock_locked in Hhook by done.
  assert (Hrb : tamely sr sb).
  { rewrite gets_bind in Hhook.
    destruct (compiledData.selectCursor (compiledData sr)) as [c|].
    - pose proof (tame_call (lock f) (call_select (Known c) (Name "__cursor"))
                    sr (tame_select _ _)) as Hcall.
      unfold after in Hcall. simpl in Hcall. by rewrite Hhook in Hcall.
    - injection Hhook as <-. apply tamely_refl. }
  pose proof (tamely_trans _ _ _ Hsr Hrb) as Hsb.
  pose proof (tamely_tameTable _ _ Ht Hsb) as Htb.
  assert (Hta : tamely sb sa).
  { pose proof (runBeforeLock_tame f "select" 1 sb) as Hloop.
    unfold after in Hloop. rewrite Hrun in Hloop. apply Hloop.
    destruct (Htb "select") as (l' & El' & Hl').
    change (hooksOf "select") with [selectCursorHook] in El'. by rewrite El'. }
  eapply lock_finish; [exact Ht|by eapply tamely_trans|by right|exact Hc].
Qed.

(** One [lock] of [lockEverything]. *)
Lemma lock_step fuel P s s' :
  tameTable s →
  (isLocked "where" s = true → isLocked "whereBound" s = true) →
  (P = "from" ∨ isLocked "from" s = true) →
  (P = "select" → isLocked "selectCursor" s = true) →
  lock fuel P s = Returns tt s' →
  tameTable s'
  ∧ lockedPhases (history s') =
      lockedPhases (history s) ++ List.filter (unlockedIn s) (phasesOf P)
  ∧ ∀ Q, isLocked Q s' = isLocked Q s || bool_decide (Q ∈ phasesOf P).
Proof.
  intros Ht Hw Hfrom Hsel H. unfold phasesOf, unlockedIn.
  destruct (isLocked P s) eqn:E.
  - rewrite lock_locked in H by done. injection H as <-. split; [done|].
    destruct (String.eqb_spec P "where") as [->|Hne]; simpl.
    + rewrite E, (Hw E). simpl. split; [by rewrite app_nil_r|].
      intros Q. destruct (bool_decide_reflect (Q ∈ ["whereBound"; "where"]))
        as [HQ|]; [|by rewrite orb_false_r].
      rewrite !elem_of_cons in HQ. destruct HQ as [->|[->|HQ]];
        [by rewrite (Hw E)|by rewrite E|by apply elem_of_nil in HQ].
    + rewrite E. simpl. split; [by rewrite app_nil_r|].
      intros Q. destruct (bool_decide_reflect (Q ∈ [P])) as [HQ|];
        [|by rewrite orb_false_r].
      apply list_elem_of_singleton in HQ as ->. by rewrite E.
  - destruct (String.eqb_spec P "where") as [->|Hne].
    + destruct Hfrom as [?|Hfrom]; [done|].
      destruct (lock_where _ _ _ Ht Hfrom E H) as (Ht' & Hp' & Hl').
      split; [done|]. simpl. rewrite E. simpl. split.
      * rewrite Hp'. by destruct (isLocked "whereBound" s).
      * intros Q. rewrite Hl'.
        destruct (decide ("whereBound" = Q)) as [<-|]; [by rewrite orb_true_r|].
        destruct (decide ("where" = Q)) as [<-|]; [by rewrite orb_true_r|].
        rewrite bool_decide_eq_false_2; [by rewrite orb_false_r|].
        rewrite !elem_of_cons, elem_of_nil. intros [->|[->|[]]]; congruence.
    + assert (Hplain : tameTable s'
        ∧ lockedPhases (history s') = lockedPhases (history s) ++ [P]
        ∧ ∀ Q, isLocked Q s' = if decide (P = Q) then true else isLocked Q s).
      { destruct (String.eqb_spec P "select") as [->|Hns].
        - destruct Hfrom as [?|Hfrom]; [done|].
          apply (lock_select fuel s s'); try done. by apply Hsel.
        - apply (lock_plain fuel P s s'); try done. unfold hooksOf.
          by rewrite (proj2 (String.eqb_neq _ _) Hns),
                     (proj2 (String.eqb_neq _ _) Hne). }
      destruct Hplain as (Ht' & Hp' & Hl'). split; [done|].
      simpl. rewrite E. simpl. split; [done|].
      intros Q. rewrite Hl'. destruct (decide (P = Q)) as [<-|Hn].
      * rewrite bool_decide_eq_true_2; [by rewrite orb_true_r|].
        by apply list_elem_of_singleton.
      * rewrite bool_decide_eq_false_2; [by rewrite orb_false_r|].
        by intros ->%list_elem_of_singleton.
Qed.

(** [progress s0 visited s]: [lockEverything], started in [s0], has gone
    through the phases [visited] and stands in [s]. *)
Record progress (s0 : State) (visited : list string) (s : State) : Prop := {
  pg_tame : tameTable s;
  pg_phases : lockedPhases (history s) =
              lockedPhases (history s0) ++ List.filter (unlockedIn s0) visited;
  pg_locks : ∀ Q, isLocked Q s = isLocked Q s0 || bool_decide (Q ∈ visited)
}.

(** What the order of the calls in [lockEverything] has to provide. *)
Fixpoint inOrder (l visited : list string) : Prop :=
  match l with
  | [] => True
  | P :: l' =>
      (Forall (λ Q, Q ∉ visited) (phasesOf P)
       ∧ (P = "from" ∨ "from" ∈ visited)
       ∧ (P = "select" → "selectCursor" ∈ visited)
       ∧ ("where" ∈ visited → "whereBound" ∈ visited))
      ∧ inOrder l' (visited ++ phasesOf P)
  end.

Lemma progress_step fuel s0 visited P s s' :
  (isLocked "where" s0 = true → isLocked "whereBound" s0 = true) →
  progress s0 visited s →
  Forall (λ Q, Q ∉ visited) (phasesOf P) →
  (P = "from" ∨ "from" ∈ visited) →
  (P = "select" → "selectCursor" ∈ visited) →
  ("where" ∈ visited → "whereBound" ∈ visited) →
  lock fuel P s = Returns tt s' →
  progress s0 (visited ++ phasesOf P) s'.
Proof.
  intros Hw0 [Ht Hp Hl] Hnew Hfrom Hsel Hw H.
  apply lock_step in H as (Ht' & Hp' & Hl'); [|done|..].
  - split; [done|..].
    + rewrite Hp', Hp, List.filter_app, <- app_assoc. do 2 f_equal.
      apply List.filter_ext_in. intros Q HQ%list_elem_of_In.
      unfold unlockedIn. rewrite Hl.
      rewrite bool_decide_eq_false_2; [by rewrite orb_false_r|].
      by apply (proj1 (Forall_forall _ _) Hnew).
    + intros Q. rewrite Hl', Hl, <- orb_assoc. f_equal.
      destruct (bool_decide_reflect (Q ∈ visited ++ phasesOf P)) as [HQ|HQ];
        rewrite elem_of_app in HQ.
      * destruct HQ as [HQ|HQ].
        -- by rewrite (bool_decide_eq_true_2 _ HQ).
        -- by rewrite (bool_decide_eq_true_2 _ HQ), orb_true_r.
      * rewrite !bool_decide_eq_false_2; [done|tauto..].
  - rewrite !Hl. intros [E|E%bool_decide_eq_true]%orb_true_iff.
    + by rewrite (Hw0 E).
    + by rewrite (bool_decide_eq_true_2 _ (Hw E)), orb_true_r.
  - destruct Hfrom as [->|Hv]; [by left|right].
    by rewrite Hl, (bool_decide_eq_true_2 _ Hv), orb_true_r.
  - intros E. by rewrite Hl, (bool_decide_eq_true_2 _ (Hsel E)), orb_true_r.
Qed.

Lemma forEach_progress fuel s0 l : ∀ visited s s',
  (isLocked "where" s0 = true → isLocked "whereBound" s0 = true) →
  progress s0 visited s →
  inOrder l visited →
  forEach (lock fuel) l s = Returns tt s' →
  progress s0 (visited ++ flat_map phasesOf l) s'.
Proof.
  induction l as [|P l IH]; intros visited s s' Hw0 Hpg Hin H; simpl in H.
  - injection H as <-. simpl. by rewrite app_nil_r.
  - apply bind_returns in H as ([] & sa & Ha & H).
    destruct Hin as ((Hnew & Hfrom & Hsel & Hw) & Hin).
    simpl. rewrite app_assoc. apply (IH _ sa); [done| |done..].
    by apply (progress_step fuel s0 visited P s sa).
Qed.

Lemma lockEverything_inOrder : inOrder lockedByLockEverything [].
Proof.
  unfold lockedByLockEverything. simpl.
  repeat apply conj; try exact I;
    try (apply (bool_decide_unpack _); by vm_compute).
Qed.

(** C3, amended: on a builder configured through its mutators, whose
    [beforeLock] callbacks only configure, a [lockEverything] that returns
    has newly locked exactly the phases that were not yet locked, in the
    order from, flip, join, offset, limit, orderBy, cursorComparator,
    whereBound, where, selectCursor, select: [whereBound] is locked from
    inside [lock("where")] and therefore before [where], [selectCursor]
    before [select]; afterwards every phase is locked. *)
Theorem lockEverything_order isDev frames s fuel s1 :
  configured isDev frames s →
  lockEverything (lock fuel) s = Returns tt s1 →
  lockedPhases (history s1) =
    lockedPhases (history s) ++ List.filter (unlockedIn s) lockOrder
  ∧ Forall (λ P, isLocked P s1 = true) lockOrder.
Proof.
  intros Hc H. rewrite lockEverything_forEach in H.
  apply bind_returns in H as ([] & sa & [= <-] & H).
  pose proof (configured_tameTable _ _ _ Hc) as Ht.
  destruct (reaches_wired _ _ _ (configured_reaches _ _ _ Hc)) as [Hw _].
  assert (Hpg : progress s [] (set_finalized true s)).
  { split; [done|by rewrite app_nil_r|]. intros Q. by rewrite orb_false_r. }
  pose proof (forEach_progress fuel s lockedByLockEverything [] _ _ Hw Hpg
                lockEverything_inOrder H) as [_ Hp Hl].
  change ([] ++ flat_map phasesOf lockedByLockEverything) with lockOrder in *.
  split; [done|]. apply Forall_forall. intros P HP.
  by rewrite Hl, (bool_decide_eq_true_2 _ HP), orb_true_r.
Qed.

Lemma lockEverything_order_witness :
  configured false "" sourcedBuilder
  ∧ lockEverything (lock 3) sourcedBuilder = Returns tt finalizedSourcedBuilder
  ∧ lockedPhases (history finalizedSourcedBuilder) =
      ["limit"; "from"; "flip"; "join"; "offset"; "orderBy";
       "cursorComparator"; "whereBound"; "where"; "selectCursor"; "select"].
Proof.
  assert (Hc : configured false "" sourcedBuilder).
  { apply (configured_returns _ _ orderedBuilder _ 1
             (call_from (Some (Known (sql.identifier [Name "users"])))
                (Alias (sql.identifier [Name "u"]))));
      [|by right|by vm_compute].
    apply (configured_returns _ _ limitedBuilder _ 1
             (call_orderBy (Known (sql.identifier [Name "id"])) true));
      [|left; constructor|by vm_compute].
    apply (configured_returns _ _ (new false "") _ 1 (call_limit (ofZ (-3))));
      [apply configured_new|by right|by vm_compute]. }
  split; [exact Hc|]. split; [by vm_compute|].
  apply (lockEverything_order false "" sourcedBuilder 3
           finalizedSourcedBuilder Hc).
  by vm_compute.
Defined.

(** C3, counterexample: a pre-lock callback that calls an eager mutator
    locks that phase inside the lock of its own phase. With
    [beforeLock("from", () => queryBuilder.limit(5))] on a new builder,
    [lockEverything()] returns having locked "limit" first, before "from",
    "flip", "join" and "offset". *)
Lemma callback_locks_out_of_order :
  match beforeLock "from" (Script [call_limit (ofZ 5)]) (new false "") with
  | Returns _ s =>
      match lockEverything (lock 4) s with
      | Returns _ s1 =>
          lockedPhases (history s) = []
          ∧ lockedPhases (history s1) =
              ["limit"; "from"; "flip"; "join"; "offset"; "orderBy";
               "cursorComparator"; "whereBound"; "where"; "selectCursor";
               "select"]
      | _ => False
      end
  | _ => False
  end.
Proof. vm_compute. done. Qed.

Lemma lockEverything_progress isDev frames s fuel s1 :
  configured isDev frames s →
  lockEverything (lock fuel) s = Returns tt s1 →
  progress s lockOrder s1.
Proof.
  intros Hc H. rewrite lockEverything_forEach in H.
  apply bind_returns in H as ([] & sa & [= <-] & H).
  pose proof (configured_tameTable _ _ _ Hc) as Ht.
  destruct (reaches_wired _ _ _ (configured_reaches _ _ _ Hc)) as [Hw _].
  assert (Hpg : progress s [] (set_finalized true s)).
  { split; [done|by rewrite app_nil_r|]. intros Q. by rewrite orb_false_r. }
  exact (forEach_progress fuel s lockedByLockEverything [] _ _ Hw Hpg
           lockEverything_inOrder H).
Qed.

(** C4, amended: when [lockEverything()] has returned on a builder made by
    [new QueryBuilder()] and method calls, then from there on, whatever is
    called, [finalized] is true, the phases from, flip, join, offset, limit,
    orderBy, cursorComparator, where, whereBound, selectCursor and select
    are locked, and every mutator that checks one of these locks
    ([beforeLock] on such a phase, [setCursorComparator], [select],
    [selectCursor], [from], [where], [whereBound], [orderBy], [limit],
    [offset], [flip]) throws the already-locked error of [checkLock] and
    leaves the fields of the builder as they are. No method reads
    [finalized].  [beforeLock] on any name throws exactly when the name is
    locked, and registers the callback when it is not; and on a builder
    whose callbacks only configure, [lockEverything] locks these eleven
    phases and no other name: "orderIsUnique" and "cursorPrefix" are locked
    afterwards exactly when they were before. *)
Theorem mutators_after_lockEverything isDev frames s fuel s1 s2 :
  reaches (new isDev frames) s →
  lockEverything (lock fuel) s = Returns tt s1 →
  reaches s1 s2 →
  finalized s2 = true
  ∧ Forall (λ P, isLocked P s2 = true) ("whereBound" :: lockedByLockEverything)
  ∧ (∀ fuel' c P,
       checkedPhase c = Some P →
       P ∈ "whereBound" :: lockedByLockEverything →
       ∃ s3,
         call (lock fuel') c s2 =
           Throws (AlreadyLocked P (lockSite (locks s2 !! P))) s3
         ∧ sameBuilder s2 s3)
  ∧ (∀ P fn,
       if isLocked P s2
       then beforeLock P fn s2 =
              Throws (AlreadyLocked P (lockSite (locks s2 !! P))) s2
       else ∃ s3, beforeLock P fn s2 = Returns tt s3
                  ∧ callbacksOf P s3 = callbacksOf P s2 ++ [fn])
  ∧ (configured isDev frames s →
     ∀ P, isLocked P s1 = isLocked P s || bool_decide (P ∈ lockOrder)).
Proof.
  intros Hs Hle Hs2.
  assert (Hr1 : reaches (new isDev frames) s1).
  { by apply (reaches_returns _ s s1 fuel call_lockEverything). }
  pose proof (reaches_wired _ _ _ (reaches_trans _ _ _ Hr1 Hs2)) as [Hw _].
  pose proof Hle as Hle'.
  apply lockEverything_returns in Hle as (Hf & Hl & _).
  pose proof (reaches_evolves _ _ Hs2) as Hev.
  assert (Hl2 : Forall (λ P, isLocked P s2 = true) lockedByLockEverything).
  { eapply Forall_impl; [exact Hl|]. intros P. apply (ev_locks _ _ _ Hev). }
  assert (Hall : Forall (λ P, isLocked P s2 = true)
                   ("whereBound" :: lockedByLockEverything)).
  { constructor; [|done]. apply Hw.
    rewrite Forall_forall in Hl2. apply Hl2.
    unfold lockedByLockEverything. rewrite !elem_of_cons. tauto. }
  split; [by apply (ev_finalized _ _ _ Hev)|]. split; [done|].
  split; [|split].
  - intros fuel' c P Hc HP. apply checked_mutator_throws; [done|].
    rewrite Forall_forall in Hall. by apply Hall.
  - intros P fn. unfold beforeLock. rewrite bind_unfold, checkLock_unfold.
    destruct (isLocked P s2) eqn:E; [done|]. eexists. split; [reflexivity|].
    unfold callbacksOf. simpl. by rewrite lookup_insert_eq.
  - intros Hc. apply (pg_locks _ _ _ (lockEverything_progress _ _ _ _ _ Hc Hle')).
Qed.

Lemma mutators_after_lockEverything_witness :
  (lockEverything (lock 3) (new false "") = Returns tt finalizedBuilder
   ∧ finalized finalizedBuilder = true
   ∧ isLocked "orderIsUnique" finalizedBuilder = false
   ∧ ∃ s3, beforeLock "orderIsUnique" (Script []) finalizedBuilder =
             Returns tt s3)
  ∧ ∃ s1,
      lockEverything (lock 3) askedBuilder = Returns tt s1
      ∧ beforeLock "orderIsUnique" (Script []) s1 =
          Throws (AlreadyLocked "orderIsUnique" None) s1.
Proof.
  split.
  - assert (H : lockEverything (lock 3) (new false "") =
                Returns tt finalizedBuilder) by (vm_compute; reflexivity).
    destruct (mutators_after_lockEverything false "" (new false "") 3
                finalizedBuilder finalizedBuilder)
      as (Hf & _ & _ & Hbefore & Hnames);
      [apply reaches_here|exact H|apply reaches_here|].
    split; [exact H|]. split; [exact Hf|].
    assert (Hopen : isLocked "orderIsUnique" finalizedBuilder = false)
      by (by rewrite (Hnames (configured_new _ _) "orderIsUnique")).
    split; [exact Hopen|].
    specialize (Hbefore "orderIsUnique" (Script [])).
    rewrite Hopen in Hbefore. destruct Hbefore as (s3 & H3 & _).
    by exists s3.
  - destruct (lockEverything (lock 3) askedBuilder) as [[] s1| |] eqn:H;
      [|by vm_compute in H..].
    exists s1. split; [reflexivity|].
    assert (Hr : reaches (new false "") askedBuilder).
    { apply (reaches_returns _ (new false "") _ 1 call_isOrderUnique);
        [apply reaches_here|by vm_compute]. }
    destruct (mutators_after_lockEverything false "" askedBuilder 3 s1 s1 Hr H)
      as (_ & _ & _ & Hbefore & _); [apply reaches_here|].
    specialize (Hbefore "orderIsUnique" (Script [])).
    assert (Hl : isLocked "orderIsUnique" s1 = true).
    { vm_compute in H. injection H as <-. reflexivity. }
    rewrite Hl in Hbefore. rewrite Hbefore. do 2 f_equal.
    vm_compute in H. injection H as <-. reflexivity.
Defined.

(** ** Invariants of every run

    The mutators write a draft field only after [checkLock] of its phase has
    returned; [setOrderIsUnique] alone writes without a check.  A relation
    that each of these guarded writes, each write of [lock] and the
    bookkeeping respect is respected by every sequence of method calls. *)

(** The draft fields the mutators of phase [type] write are unchanged. *)
Definition draftFrozen (type : string) (d d' : data.t) : Prop :=
  (type = "select" → data.select d' = data.select d)
  ∧ (type = "selectCursor" → data.selectCursor d' = data.selectCursor d)
  ∧ (type = "from" → data.from d' = data.from d)
  ∧ (type = "join" → data.join d' = data.join d)
  ∧ (type = "where" → data.where_ d' = data.where_ d)
  ∧ (type = "whereBound" →
       data.whereBound_lower d' = data.whereBound_lower d
       ∧ data.whereBound_upper d' = data.whereBound_upper d)
  ∧ (type = "orderBy" → data.orderBy d' = data.orderBy d)
  ∧ (type = "limit" → data.limit d' = data.limit d)
  ∧ (type = "offset" → data.offset d' = data.offset d)
  ∧ (type = "flip" → data.flip d' = data.flip d)
  ∧ (type = "cursorComparator" →
       data.cursorComparator d' = data.cursorComparator d).

(** [f] writes draft fields of phase [P] only, and no callback. *)
Definition only (P : string) (f : data.t → data.t) : Prop :=
  ∀ d, data.beforeLock (f d) = data.beforeLock d
       ∧ data.join (f d) = data.join d
       ∧ data.cursorPrefix (f d) = data.cursorPrefix d
       ∧ data.orderIsUnique (f d) = data.orderIsUnique d
       ∧ ∀ Q, Q ≠ P → draftFrozen Q d (f d).

Lemma draftFrozen_refl P d : draftFrozen P d d.
Proof. unfold draftFrozen. by repeat apply conj. Qed.

Lemma draftFrozen_trans P d1 d2 d3 :
  draftFrozen P d1 d2 → draftFrozen P d2 d3 → draftFrozen P d1 d3.
Proof.
  unfold draftFrozen. intros H1 H2. repeat apply conj; intros ->;
    repeat match goal with
           | H : _ ∧ _ |- _ => destruct H
           | H : ?x = ?x → _ |- _ => specialize (H eq_refl)
           end; try split; congruence.
Qed.

Ltac only_field :=
  intros d; repeat apply conj;
  try (intros Q HQ; unfold draftFrozen; repeat apply conj; intros ->);
  simpl; repeat case_match; simpl; try done;
  match goal with HQ : ?x ≠ ?x |- _ => by destruct HQ end.

Section Guarded.

Variable R : State → State → Prop.
Hypothesis R_refl : ∀ s, R s s.
Hypothesis R_trans : ∀ s1 s2 s3, R s1 s2 → R s2 s3 → R s1 s3.
Hypothesis R_mutate : ∀ P f s,
  isLocked P s = false → only P f → R s (set_data (f (data s)) s).
Hypothesis R_unique : ∀ s,
  R s (set_data (set_data.orderIsUnique true (data s)) s).
Hypothesis R_register : ∀ field fn s,
  isLocked field s = false →
  R s (set_data
         (set_data.beforeLock
            (<[field := callbacksOf field s ++ [fn]]> (data.beforeLock (data s)))
            (data s)) s).
Hypothesis R_Symbol : ∀ s, R s (set_symbols (S (symbols s)) s).
Hypothesis R_finalize : ∀ s, R s (set_finalized true s).
Hypothesis R_compiled : ∀ f s, R s (set_compiledData (f (compiledData s)) s).
Hypothesis R_record : ∀ e s, R s (set_history (history s ++ [e]) s).
Hypothesis R_marked : ∀ type s s1,
  isLocked type s = false → R s s1 → R s (marked type s1).

Lemma guarded_write P f : only P f → preserves R (checkLock P;; update_data f).
Proof.
  intros Hf s. unfold after. rewrite bind_unfold, checkLock_unfold.
  destruct (isLocked P s) eqn:E; [apply R_refl|]. by apply (R_mutate P).
Qed.

Lemma guarded_write_then P f (k : M unit) :
  only P f → preserves R k → preserves R (checkLock P;; update_data f;; k).
Proof.
  intros Hf Hk s. unfold after. rewrite bind_unfold, checkLock_unfold.
  destruct (isLocked P s) eqn:E; [apply R_refl|].
  rewrite bind_unfold. simpl.
  pose proof (Hk (set_data (f (data s)) s)) as Hk'. unfold after in Hk'.
  destruct (k _) as [a s'|e s'|]; [| |done];
    (eapply R_trans; [by apply (R_mutate P)|exact Hk']).
Qed.

Lemma guarded_beforeLock field fn : preserves R (beforeLock field fn).
Proof.
  intros s. unfold after, beforeLock. rewrite bind_unfold, checkLock_unfold.
  destruct (isLocked field s) eqn:E; [apply R_refl|]. by apply R_register.
Qed.

Section Calls.

Variable lock : string → M unit.
Hypothesis R_lock : ∀ type, preserves R (lock type).

Lemma guarded_call c : preserves R (call lock c).
Proof.
  pose proof (λ A B, @preserves_bind R R_trans A B) as Hbind.
  pose proof (λ A, @preserves_ret R R_refl A) as Hret.
  pose proof (λ A, @preserves_gets R R_refl A) as Hgets.
  destruct c; simpl;
    try (apply Hbind; [|intros; apply Hret]).
  - apply guarded_beforeLock.
  - apply (guarded_write_then "cursorComparator"); [only_field|apply R_lock].
  - unfold cursorCondition. apply Hbind; [apply R_lock|intros _].
    apply Hbind; [apply Hgets|intros [cmp|]];
      [apply Hret|by apply preserves_throw].
  - apply (guarded_write "select"). only_field.
  - apply (guarded_write "selectCursor"). only_field.
  - unfold from. apply Hbind.
    { destruct alias; [|apply Hret..].
      apply Hbind; [intros s; apply R_Symbol|intros; apply Hret]. }
    intros a s. unfold after. rewrite bind_unfold, checkLock_unfold.
    destruct (isLocked "from" s) eqn:E; [apply R_refl|].
    destruct expr as [expr|]; [|apply R_refl].
    destruct a as [a|]; [|apply R_refl].
    rewrite bind_unfold. simpl.
    pose proof (R_lock "from"
      (set_data (set_data.from (Some (expr, a)) (data s)) s)) as Hk.
    unfold after in Hk.
    destruct (lock "from" _) as [u s'|e s'|]; [| |done];
      (eapply R_trans;
       [apply (R_mutate "from" (set_data.from (Some (expr, a))));
        [done|only_field]|exact Hk]).
  - apply (guarded_write "where"). only_field.
  - unfold whereBound. destruct isLower as [isLower|];
      [|by apply preserves_throw].
    apply (guarded_write "whereBound"). only_field.
  - intros s. apply R_unique.
  - apply (guarded_write "orderBy"). only_field.
  - apply (guarded_write_then "limit"); [only_field|apply R_lock].
  - apply (guarded_write_then "offset"); [only_field|apply R_lock].
  - apply (guarded_write_then "flip"); [only_field|apply R_lock].
  - unfold isOrderUnique. apply Hbind; [apply R_lock|intros; apply Hgets].
  - by apply preserves_getTableAlias.
  - unfold getSelectCursor. apply Hbind; [apply R_lock|intros; apply Hgets].
  - unfold getOffset. apply Hbind; [apply R_lock|intros _].
    apply Hbind; [apply Hgets|intros; apply Hret].
  - unfold getOrderByExpressionsAndDirections.
    apply Hbind; [apply R_lock|intros; apply Hgets].
  - by apply preserves_buildSelectFields.
  - by apply preserves_buildSelectJson.
  - by apply preserves_buildWhereBoundClause.
  - by apply preserves_buildWhereClause.
  - by apply preserves_build.
  - apply R_lock.
  - by apply preserves_lockEverything.
Qed.

Lemma guarded_invoke fn : preserves R (invoke lock fn).
Proof.
  destruct fn; simpl.
  - apply preserves_bind; [done|apply R_lock|]. intros _.
    apply preserves_bind; [done|by apply preserves_gets|]. intros [c|];
      [|by apply preserves_ret].
    apply (guarded_write "select"). only_field.
  - apply R_lock.
  - apply preserves_forEach; [done..|]. apply guarded_call.
Qed.

End Calls.

Lemma guarded_run fuel :
  (∀ type, preserves R (lock fuel type))
  ∧ (∀ type i, preserves R (runBeforeLock fuel type i)).
Proof.
  induction fuel as [|fuel [IHlock IHrun]].
  - split.
    + intros type s. unfold after. simpl.
      destruct (isLocked type s); [apply R_refl|done].
    + intros type i s. unfold after. simpl.
      destruct (callbacksOf type s !! i); [done|apply R_refl].
  - split.
    + intros type s. unfold after. rewrite lock_unfold.
      destruct (isLocked type s) eqn:E; [apply R_refl|].
      apply after_bind.
      { intros e s1 H. eapply preserves_throws; [apply IHrun|exact H]. }
      intros [] s1 Hrun. apply after_bind; [done|].
      intros [] s2 [= <-].
      assert (Hm : R s (marked type s1)).
      { apply R_marked; [done|].
        eapply preserves_returns; [apply IHrun|exact Hrun]. }
      eapply after_mono; [intros s'; by apply R_trans|].
      by apply (preserves_compile R R_refl R_trans).
    + intros type i s. unfold after. rewrite runBeforeLock_unfold.
      destruct (callbacksOf type s !! i) as [fn|]; [|apply R_refl].
      change (after (record (Fired type i);; invoke (lock fuel) fn;;
                     runBeforeLock fuel type (S i)) s (R s)).
      revert s. apply preserves_bind; [done| |].
      * apply preserves_modify. intros. apply R_record.
      * intros _. apply preserves_bind; [done| |auto].
        by apply guarded_invoke.
Qed.

Lemma guarded_reaches s s' : reaches s s' → R s s'.
Proof.
  induction 1 as [|s1 s2 fuel c _ IH H|s1 s2 fuel c e _ IH H].
  - apply R_refl.
  - eapply R_trans; [exact IH|].
    eapply preserves_returns; [|exact H].
    apply guarded_call, guarded_run.
  - eapply R_trans; [exact IH|].
    eapply preserves_throws; [|exact H].
    apply guarded_call, guarded_run.
Qed.

End Guarded.

(** ** The draft of a locked phase *)

(** [draftKept s s']: the phases locked in [s] are locked in [s'], with the
    draft they had in [s]. *)
Definition draftKept (s s' : State) : Prop :=
  ∀ P, isLocked P s = true →
       isLocked P s' = true ∧ draftFrozen P (data s) (data s').

Lemma draftKept_same s s' :
  locks s' = locks s → data s' = data s → draftKept s s'.
Proof.
  intros Hl Hd P HP. unfold isLocked. rewrite Hl, Hd.
  split; [done|apply draftFrozen_refl].
Qed.

Lemma draftKept_data f s :
  (∀ P, isLocked P s = true → draftFrozen P (data s) (f (data s))) →
  draftKept s (set_data (f (data s)) s).
Proof. intros Hf P HP. split; [done|]. by apply Hf. Qed.

Lemma draftKept_trans s1 s2 s3 :
  draftKept s1 s2 → draftKept s2 s3 → draftKept s1 s3.
Proof.
  intros H12 H23 P HP. destruct (H12 P HP) as [H2 F2].
  destruct (H23 P H2) as [H3 F3]. split; [done|].
  by eapply draftFrozen_trans.
Qed.

Lemma reaches_draftKept s s' : reaches s s' → draftKept s s'.
Proof.
  apply guarded_reaches.
  - intros s0. by apply draftKept_same.
  - apply draftKept_trans.
  - intros P f s0 E Hf. apply draftKept_data. intros Q HQ.
    apply Hf. intros ->. congruence.
  - intros s0. apply (draftKept_data (set_data.orderIsUnique true)).
    intros Q _. unfold draftFrozen. by repeat apply conj.
  - intros field fn s0 _.
    apply (draftKept_data
             (λ d, set_data.beforeLock
                     (<[field := callbacksOf field s0 ++ [fn]]>
                        (data.beforeLock d)) d)).
    intros Q _. unfold draftFrozen. by repeat apply conj.
  - intros s0. by apply draftKept_same.
  - intros s0. by apply draftKept_same.
  - intros f s0. by apply draftKept_same.
  - intros e s0. by apply draftKept_same.
  - intros type s0 s1 _ H01. apply (draftKept_trans _ s1); [done|].
    intros P HP. rewrite isLocked_marked.
    split; [by destruct (decide _)|apply draftFrozen_refl].
Qed.

(** ** The value recorded by a lock *)

(** Every lock holds what [lock] writes in this process: the stack of the
    error made there in a dev build, [true] otherwise. *)
Definition sited (s : State) : Prop :=
  ∀ P v, locks s !! P = Some v →
         v = if isDev s then LockStack (Error_stack s) else LockTrue.

Definition keepsSited (s s' : State) : Prop :=
  isDev s' = isDev s ∧ stackFrames s' = stackFrames s ∧ (sited s → sited s').

Lemma keepsSited_same s s' :
  locks s' = locks s → isDev s' = isDev s → stackFrames s' = stackFrames s →
  keepsSited s s'.
Proof.
  intros Hl Hd Hf. split; [done|]. split; [done|].
  unfold sited, Error_stack. by rewrite Hl, Hd, Hf.
Qed.

Lemma keepsSited_trans s1 s2 s3 :
  keepsSited s1 s2 → keepsSited s2 s3 → keepsSited s1 s3.
Proof.
  intros (Hd & Hf & H12) (Hd' & Hf' & H23).
  split; [congruence|]. split; [congruence|auto].
Qed.

Lemma reaches_keepsSited s s' : reaches s s' → keepsSited s s'.
Proof.
  apply guarded_reaches; try (intros; by apply keepsSited_same).
  - apply keepsSited_trans.
  - intros type s0 s1 _ H01. apply (keepsSited_trans _ s1); [done|].
    split; [done|]. split; [done|].
    intros Hs P v. unfold marked. simpl.
    destruct (decide (type = P)) as [->|Hne].
    + rewrite lookup_insert_eq. by intros [= <-].
    + rewrite lookup_insert_ne by done. apply Hs.
Qed.

(** The builder sets a lock only under a name it does not inherit:
    [lock] returns at its first line for the others. *)
Definition proper (s : State) : Prop :=
  ∀ P v, locks s !! P = Some v → inherited P = false.

Definition keepsProper (s s' : State) : Prop := proper s → proper s'.

Lemma keepsProper_same s s' : locks s' = locks s → keepsProper s s'.
Proof. intros Hl. unfold keepsProper, proper. by rewrite Hl. Qed.

Lemma reaches_keepsProper s s' : reaches s s' → keepsProper s s'.
Proof.
  apply guarded_reaches; try (intros; by apply keepsProper_same).
  - intros s1 s2 s3 H12 H23 Hs. auto.
  - intros type s0 s1 E H01 Hs P v. unfold marked. simpl.
    destruct (decide (type = P)) as [->|Hne].
    + intros _. unfold isLocked in E.
      destruct (locks s0 !! P) as [v0|] eqn:E0; [by apply (Hs P v0)|done].
    + rewrite lookup_insert_ne by done. by apply H01.
Qed.

Lemma reaches_proper dev frames s : reaches (new dev frames) s → proper s.
Proof.
  intros H. apply (reaches_keepsProper _ _ H). intros P v. by destruct dev.
Qed.

(** A name the builder inherits is locked from the start, and never holds a
    lock of the builder. *)
Lemma reaches_inherited dev frames s P :
  reaches (new dev frames) s →
  inherited P = true →
  locks s !! P = None ∧ isLocked P s = true.
Proof.
  intros Hr HP. pose proof (reaches_proper _ _ _ Hr) as Hs.
  assert (Hnone : locks s !! P = None).
  { destruct (locks s !! P) as [v|] eqn:E; [|done].
    rewrite (Hs P v E) in HP. discriminate. }
  split; [done|]. unfold isLocked. by rewrite Hnone.
Qed.

Lemma reaches_sited dev frames s :
  reaches (new dev frames) s →
  isDev s = dev ∧ stackFrames s = frames ∧ sited s.
Proof.
  intros H. destruct (reaches_keepsSited _ _ H) as (Hd & Hf & Hs).
  split; [by destruct dev|]. split; [by destruct dev|].
  apply Hs. by destruct dev.
Qed.

(** ** One run of [lock] *)

(** [loopedOver type i s s' bodies]: the loop of [lock(type)] from index [i]
    on: the callback read at each index, as the array is then, is called
    once on the builder the previous one left, until there is none at the
    index; [bodies] are the events of each of these calls. *)
Inductive loopedOver (type : string)
    : nat → State → State → list (list Event) → Prop :=
| looped_end i s :
    callbacksOf type s !! i = None → loopedOver type i s s []
| looped_call i s fn fuel s1 s2 body bodies :
    callbacksOf type s !! i = Some fn →
    invoke (lock fuel) fn (set_history (history s ++ [Fired type i]) s) =
      Returns tt s1 →
    history s1 = history s ++ Fired type i :: body →
    loopedOver type (S i) s1 s2 bodies →
    loopedOver type i s s2 (body :: bodies).

Lemma runBeforeLock_loopedOver fuel : ∀ type i s s',
  runBeforeLock fuel type i s = Returns tt s' →
  ∃ bodies, loopedOver type i s s' bodies.
Proof.
  induction fuel as [|fuel IH]; intros type i s s' H.
  - simpl in H. destruct (callbacksOf type s !! i) eqn:E; [done|].
    injection H as <-. exists []. by constructor.
  - rewrite runBeforeLock_unfold in H.
    destruct (callbacksOf type s !! i) as [fn|] eqn:E.
    + apply bind_returns in H as ([] & s1 & H1 & H).
      apply bind_returns in H as ([] & s2 & H2 & H).
      injection H1 as <-.
      pose proof (preserves_returns _ _ _ _ _ (invoke_evolves fuel fn) H2) as Hev.
      destruct (ev_history _ _ _ Hev) as [body Hbody]. simpl in Hbody.
      apply IH in H as (bodies & Hl).
      exists (body :: bodies).
      apply (looped_call type i s fn fuel s2 s' body bodies); try done.
      by rewrite Hbody, <- app_assoc.
    + injection H as <-. exists []. by constructor.
Qed.

Lemma loopedOver_history type i s s' bodies :
  loopedOver type i s s' bodies →
  (i ≤ length (callbacksOf type s))%nat →
  history s' = history s ++ firing type i bodies
  ∧ (i + length bodies = length (callbacksOf type s'))%nat.
Proof.
  induction 1 as [i s E|i s fn fuel s1 s2 body bodies E Hinv Hh _ IH];
    intros Hi.
  - simpl. rewrite app_nil_r. split; [done|].
    apply lookup_ge_None in E. lia.
  - pose proof (preserves_returns _ _ _ _ _ (invoke_evolves fuel fn) Hinv) as Hev.
    destruct IH as [IH1 IH2].
    { apply lookup_lt_Some in E.
      pose proof (ev_registered _ _ _ Hev type) as Hp. simpl in Hp.
      apply prefix_length in Hp. unfold callbacksOf in *. simpl in *. lia. }
    simpl. split; [|lia]. rewrite IH1, Hh. by rewrite <- !app_assoc.
Qed.

(** [calm P s s']: when [P] is locked in [s] it is locked in [s'], and
    nothing in between has fired a callback of [P] or set its lock. *)
Definition notOf (P : string) (e : Event) : Prop :=
  e ≠ Locked P ∧ ∀ i, e ≠ Fired P i.

Definition calm (P : string) (s s' : State) : Prop :=
  isLocked P s = true →
  isLocked P s' = true
  ∧ ∃ rest, history s' = history s ++ rest ∧ Forall (notOf P) rest.

Lemma calm_refl P s : calm P s s.
Proof. intros HP. split; [done|]. exists []. by rewrite app_nil_r. Qed.

Lemma calm_trans P s1 s2 s3 : calm P s1 s2 → calm P s2 s3 → calm P s1 s3.
Proof.
  intros H12 H23 HP. destruct (H12 HP) as (H2 & r12 & Hh12 & F12).
  destruct (H23 H2) as (H3 & r23 & Hh23 & F23). split; [done|].
  exists (r12 ++ r23). split; [by rewrite Hh23, Hh12, <- app_assoc|].
  by apply Forall_app.
Qed.

Lemma calm_same P s s' :
  locks s' = locks s → history s' = history s → calm P s s'.
Proof.
  intros Hl Hh HP. split; [unfold isLocked; by rewrite Hl|].
  exists []. by rewrite app_nil_r.
Qed.

Lemma calm_open P {A} (m : M A) s : isLocked P s = false → after m s (calm P s).
Proof.
  intros E. unfold after.
  destruct (m s) as [a s'|e s'|]; [| |done]; intros HP; congruence.
Qed.

Lemma calm_call P lock c :
  (∀ type, preserves (calm P) (lock type)) →
  preserves (calm P) (call lock c).
Proof.
  intros Hlock.
  apply (guarded_call (calm P) (calm_refl P) (calm_trans P));
    try (intros; by apply calm_same).
  done.
Qed.

Lemma calm_invoke P lock fn :
  (∀ type, preserves (calm P) (lock type)) →
  preserves (calm P) (invoke lock fn).
Proof.
  intros Hlock.
  apply (guarded_invoke (calm P) (calm_refl P) (calm_trans P));
    try (intros; by apply calm_same).
  done.
Qed.

Lemma calm_record P e s :
  notOf P e → calm P s (set_history (history s ++ [e]) s).
Proof.
  intros He HP. split; [done|]. exists [e]. split; [done|]. by constructor.
Qed.

Lemma calm_marked P type s : type ≠ P → calm P s (marked type s).
Proof.
  intros Hne HP. split.
  - rewrite isLocked_marked. by destruct (decide _).
  - exists [Locked type]. split; [done|]. constructor; [|done].
    split; [congruence|done].
Qed.

Lemma calm_run P fuel :
  (∀ type, preserves (calm P) (lock fuel type))
  ∧ (∀ type i, type ≠ P → preserves (calm P) (runBeforeLock fuel type i)).
Proof.
  induction fuel as [|fuel [IHlock IHrun]].
  - split.
    + intros type s. unfold after. simpl.
      destruct (isLocked type s); [apply calm_refl|done].
    + intros type i _ s. unfold after. simpl.
      destruct (callbacksOf type s !! i); [done|apply calm_refl].
  - split.
    + intros type s. unfold after. rewrite lock_unfold.
      destruct (isLocked type s) eqn:E; [apply calm_refl|].
      destruct (decide (type = P)) as [->|Hne]; [by apply calm_open|].
      apply after_bind.
      { intros e s1 H. eapply preserves_throws; [by apply IHrun|exact H]. }
      intros [] s1 Hrun. apply after_bind; [done|].
      intros [] s2 [= <-].
      assert (Hm : calm P s (marked type s1)).
      { eapply calm_trans; [|by apply calm_marked].
        eapply preserves_returns; [by apply IHrun|exact Hrun]. }
      eapply after_mono; [intros s'; by apply calm_trans|].
      apply (preserves_compile (calm P) (calm_refl P) (calm_trans P));
        [|done].
      intros f s0. by apply calm_same.
    + intros type i Hne s. unfold after. rewrite runBeforeLock_unfold.
      destruct (callbacksOf type s !! i) as [fn|]; [|apply calm_refl].
      change (after (record (Fired type i);; invoke (lock fuel) fn;;
                     runBeforeLock fuel type (S i)) s (calm P s)).
      revert s. apply preserves_bind; [apply calm_trans| |].
      * apply preserves_modify. intros s. apply calm_record.
        split; [done|]. intros j. congruence.
      * intros _. apply preserves_bind; [apply calm_trans| |auto].
        by apply calm_invoke.
Qed.

(** C2, amended: when [lock(type)] returns, the phase is locked and stays
    locked whatever is called later, so every later [lock(type)] returns at
    once and changes nothing (no callback, no compilation, the builder and
    its history are the same); a [lock(type)] that finds the phase locked is
    that no-op.  A [lock(type)] that finds the phase open runs its loop
    once: the callback at each index, the ones registered meanwhile
    included, is called once by the loop, in the order of registration, each
    on the builder the one before has left ([loopedOver]); then the lock is
    set and the phase is compiled once, from the draft as the callbacks left
    it.  The events of the call are [Fired type 0], what the first callback
    did, [Fired type 1], ..., then [Locked type], then what the compilation
    did; the compilation fires no callback of the phase and does not set its
    lock again.  What a callback does ([bodies]) can hold further events of
    the phase, when the callback locks the phase itself. *)
Theorem lock_idempotent fuel type s s1 :
  lock fuel type s = Returns tt s1 →
  isLocked type s1 = true
  ∧ (∀ s2 fuel', reaches s1 s2 → lock fuel' type s2 = Returns tt s2)
  ∧ (isLocked type s = true → s1 = s)
  ∧ (isLocked type s = false →
       ∃ sa bodies rest fuel',
         loopedOver type 0 s sa bodies
         ∧ length bodies = length (callbacksOf type s1)
         ∧ compile (lock fuel') type (marked type sa) = Returns tt s1
         ∧ history s1 = history s ++ firing type 0 bodies ++ Locked type :: rest
         ∧ Forall (notOf type) rest).
Proof.
  intros H. pose proof (lock_returns_locked _ _ _ _ H) as Hlocked.
  split; [done|]. split; [|split].
  - intros s2 fuel' Hr. apply lock_locked.
    by apply (ev_locks _ _ _ (reaches_evolves _ _ Hr)).
  - intros E. rewrite lock_locked in H by done. by injection H.
  - intros E. apply lock_returns_open in H as (fuel' & sa & -> & Hrun & Hc);
      [|done].
    apply runBeforeLock_loopedOver in Hrun as (bodies & Hloop).
    destruct (loopedOver_history _ _ _ _ _ Hloop) as [Hh Hl]; [lia|].
    assert (Hm : isLocked type (marked type sa) = true).
    { rewrite isLocked_marked. by rewrite decide_True. }
    pose proof (preserves_returns _ _ _ _ _
      (compile_evolvesBut _ type (lock_evolves fuel')) Hc) as Hev.
    pose proof (preserves_returns _ _ _ _ _
      (preserves_compile (calm type) (calm_refl type) (calm_trans type)
         (λ f s0, calm_same type s0 _ eq_refl eq_refl)
         (lock fuel') (proj1 (calm_run type fuel')) type) Hc Hm)
      as (_ & rest & Hrest & Hquiet).
    exists sa, bodies, rest, fuel'. split; [done|]. split.
    { rewrite (ev_callbacks _ _ _ Hev type) by done. simpl in Hl. exact Hl. }
    split; [done|]. split; [|done].
    rewrite Hrest. simpl. rewrite Hh. by rewrite <- !app_assoc.
Qed.

Lemma lock_idempotent_witness :
  lock 3 "select" (new true "") = Returns tt afterLockSelect
  ∧ isLocked "select" afterLockSelect = true
  ∧ lock 0 "select" afterLockSelect = Returns tt afterLockSelect
  ∧ times (Fired "select" 0) (history afterLockSelect) = 1
  ∧ times (Locked "select") (history afterLockSelect) = 1.
Proof.
  assert (H : lock 3 "select" (new true "") = Returns tt afterLockSelect)
    by (vm_compute; reflexivity).
  destruct (lock_idempotent 3 "select" (new true "") afterLockSelect H)
    as (Hl & Hagain & _ & _).
  split; [exact H|]. split; [exact Hl|].
  split; [apply Hagain, reaches_here|]. by vm_compute.
Defined.

(** ** Further properties of the builder *)

(** A dev builder after [flip()]. *)
Definition flippedDevBuilder : State :=
  Eval vm_compute in
    match flip (lock 1) (new true " at QueryBuilder.lock") with
    | Returns _ s => s
    | _ => new true " at QueryBuilder.lock"
    end.

(** A new builder after [from(sql.identifier("users"))], the alias left
    out. *)
Definition defaultAliasBuilder : State :=
  Eval vm_compute in
    match
      from (lock 1) (Some (Known (sql.identifier [Name "users"]))) DefaultAlias
        (new false "")
    with
    | Returns _ s => s
    | _ => new false ""
    end.

(** A new builder after [getOffset()]. *)
Definition askedOffsetBuilder : State :=
  Eval vm_compute in
    match getOffset (lock 1) (new false "") with
    | Returns _ s => s
    | _ => new false ""
    end.

(** A builder with a predicate that asks for the table alias, a select
    cursor and a column, configured before the source. *)
Definition lazyBuilder : State :=
  Eval vm_compute in
    match
      (where_ (DeferredOnAlias
                 (λ a, sql.fragment [""; ".id > 0"] [sql.value a]));;
       selectCursor (Known (sql.identifier [Name "id"]));;
       select (Known (sql.identifier [Name "name"])) (Name "name");;
       from (lock 1) (Some (Known (sql.identifier [Name "users"])))
         (Alias (sql.identifier [Name "u"])))
        (new false "")
    with
    | Returns _ s => s
    | _ => new false ""
    end.

Definition whereResolvedBuilder : State :=
  Eval vm_compute in
    match lock 3 "where" lazyBuilder with
    | Returns _ s => s
    | _ => lazyBuilder
    end.

Definition selectedBuilder : State :=
  Eval vm_compute in
    match lock 3 "select" lazyBuilder with
    | Returns _ s => s
    | _ => lazyBuilder
    end.

(** A new builder with a predicate that asks for the table alias and no
    source; the state the callbacks of "where" leave; and the state
    [lock("where")] leaves when it throws. *)
Definition orphanBuilder : State :=
  Eval vm_compute in
    match
      where_ (DeferredOnAlias (λ a, sql.fragment [""; ".id > 0"] [sql.value a]))
        (new false "")
    with
    | Returns _ s => s
    | _ => new false ""
    end.

Definition hookedBuilder : State :=
  Eval vm_compute in
    match runBeforeLock 2 "where" 0 orphanBuilder with
    | Returns _ s => s
    | _ => orphanBuilder
    end.

Definition failedBuilder : State :=
  Eval vm_compute in
    match lock 3 "where" orphanBuilder with
    | Throws _ s => s
    | _ => orphanBuilder
    end.

(** The phases [lock] has a branch for. *)
Definition knownPhases : list string :=
  ["cursorComparator"; "whereBound"; "select"; "orderBy"; "from"; "join";
   "where"; "selectCursor"; "cursorPrefix"; "orderIsUnique"; "limit";
   "offset"; "flip"].

(** The mutators that lock their phase themselves. *)
Definition eagerPhase (c : Call) : option string :=
  match c with
  | call_setCursorComparator _ => Some "cursorComparator"
  | call_from _ _ => Some "from"
  | call_limit _ => Some "limit"
  | call_offset _ => Some "offset"
  | call_flip => Some "flip"
  | _ => None
  end.

Lemma locked_getter {A} (f : State → A) fuel P s v s1 :
  (lock fuel P;; gets f) s = Returns v s1 →
  isLocked P s1 = true ∧ v = f s1.
Proof.
  intros H. apply bind_returns in H as ([] & sa & Hl & H).
  injection H as <- <-. split; [by eapply lock_returns_locked|done].
Qed.

Lemma locked_getter_again {A} (f : State → A) fuel P s :
  isLocked P s = true → (lock fuel P;; gets f) s = Returns (f s) s.
Proof. intros H. by rewrite bind_unfold, lock_locked. Qed.

(** X1.  What a getter has returned, it returns again after whatever is
    called next: when [isOrderUnique], [getTableAlias], [getSelectCursor],
    [getOffset] or [getOrderByExpressionsAndDirections] has returned a value
    and left the builder in a state [s1], then in every state [s2] that a
    sequence of method calls made from [s1] leads to, each returned or
    thrown, the same getter returns the same value and leaves the builder
    alone.  The statement is about calls that follow the return.  It says
    nothing of a [lock] of the phase that was already running when the
    getter was called (the getter was called from one of its pre-lock
    callbacks): when that [lock] resumes, it compiles the phase again, and
    the getter can return another value afterwards. *)
Theorem getters_are_stable fuel fuel' s s1 s2 :
  reaches s1 s2 →
  (∀ v, isOrderUnique (lock fuel) s = Returns v s1 →
        isOrderUnique (lock fuel') s2 = Returns v s2)
  ∧ (∀ v, getTableAlias (lock fuel) s = Returns v s1 →
          getTableAlias (lock fuel') s2 = Returns v s2)
  ∧ (∀ v, getSelectCursor (lock fuel) s = Returns v s1 →
          getSelectCursor (lock fuel') s2 = Returns v s2)
  ∧ (∀ v, getOffset (lock fuel) s = Returns v s1 →
          getOffset (lock fuel') s2 = Returns v s2)
  ∧ (∀ v, getOrderByExpressionsAndDirections (lock fuel) s = Returns v s1 →
          getOrderByExpressionsAndDirections (lock fuel') s2 = Returns v s2).
Proof.
  intros Hr. pose proof (reaches_evolves _ _ Hr) as Hev.
  assert (Hstays : ∀ P, isLocked P s1 = true →
    isLocked P s2 = true ∧ frozen P (compiledData s1) (compiledData s2)).
  { intros P HP. split; [by apply (ev_locks _ _ _ Hev)|].
    by apply evolves_frozen. }
  repeat apply conj; intros v H.
  - apply locked_getter in H as [HP ->].
    destruct (Hstays _ HP) as [HP2 F]. unfold isOrderUnique.
    rewrite locked_getter_again by done.
    cut (compiledData.orderIsUnique (compiledData s2) =
         compiledData.orderIsUnique (compiledData s1));
      [by intros ->|by apply F].
  - apply getTableAlias_returns in H as (Hl & f & Hf & ->).
    apply lock_returns_locked in Hl. destruct (Hstays _ Hl) as [HP2 F].
    unfold getTableAlias. rewrite bind_unfold, lock_locked by done.
    rewrite bind_unfold. simpl.
    replace (compiledData.from (compiledData s2)) with (Some f); [done|].
    rewrite <- Hf. symmetry. by apply F.
  - apply locked_getter in H as [HP ->].
    destruct (Hstays _ HP) as [HP2 F]. unfold getSelectCursor.
    rewrite locked_getter_again by done.
    cut (compiledData.selectCursor (compiledData s2) =
         compiledData.selectCursor (compiledData s1));
      [by intros ->|by apply F].
  - unfold getOffset in *.
    apply bind_returns in H as ([] & sa & Hl & H). injection H as <- <-.
    apply lock_returns_locked in Hl. destruct (Hstays _ Hl) as [HP2 F].
    rewrite bind_unfold, lock_locked by done. rewrite bind_unfold. simpl.
    replace (compiledData.offset (compiledData s2))
      with (compiledData.offset (compiledData sa)); [done|].
    symmetry. by apply F.
  - apply locked_getter in H as [HP ->].
    destruct (Hstays _ HP) as [HP2 F].
    unfold getOrderByExpressionsAndDirections.
    rewrite locked_getter_again by done.
    cut (compiledData.orderBy (compiledData s2) =
         compiledData.orderBy (compiledData s1));
      [by intros ->|by apply F].
Qed.

Lemma getters_are_stable_witness :
  reaches askedBuilder uniqueLateBuilder
  ∧ data.orderIsUnique (data uniqueLateBuilder) = true
  ∧ isOrderUnique (lock 1) uniqueLateBuilder = Returns false uniqueLateBuilder.
Proof.
  assert (Hr : reaches askedBuilder uniqueLateBuilder).
  { apply (reaches_returns _ askedBuilder _ 0 call_setOrderIsUnique);
      [apply reaches_here|by vm_compute]. }
  split; [exact Hr|]. split; [reflexivity|].
  apply (getters_are_stable 1 1 (new false "") askedBuilder uniqueLateBuilder Hr).
  by vm_compute.
Defined.

Lemma eager_mutator_locks fuel c P s s1 :
  eagerPhase c = Some P →
  call (lock fuel) c s = Returns tt s1 →
  isLocked P s1 = true.
Proof.
  intros Hc H. destruct c; simpl in Hc; try discriminate;
    injection Hc as <-; simpl in H.
  - apply bind_returns in H as ([] & sa & _ & H).
    apply bind_returns in H as ([] & sb & _ & H).
    by eapply lock_returns_locked.
  - unfold from in H. apply bind_returns in H as (a & sa & _ & H).
    apply bind_returns in H as ([] & sb & _ & H).
    destruct expr as [expr|]; [|done]. destruct a as [a|]; [|done].
    apply bind_returns in H as ([] & sc & _ & H).
    by eapply lock_returns_locked.
  - apply bind_returns in H as ([] & sa & _ & H).
    apply bind_returns in H as ([] & sb & _ & H).
    by eapply lock_returns_locked.
  - apply bind_returns in H as ([] & sa & _ & H).
    apply bind_returns in H as ([] & sb & _ & H).
    by eapply lock_returns_locked.
  - apply bind_returns in H as ([] & sa & _ & H).
    apply bind_returns in H as ([] & sb & _ & H).
    by eapply lock_returns_locked.
Qed.

Lemma eagerPhase_checked c P : eagerPhase c = Some P → checkedPhase c = Some P.
Proof. by destruct c. Qed.

(** X2.  [setCursorComparator], [from], [limit], [offset] and [flip] lock
    their phase before they return, so each can succeed once per builder:
    after one of them has returned, every later call of a mutator of the
    same phase, with whatever arguments and whatever was called in between,
    throws the already-locked error and leaves the fields of the builder as
    they were. *)
Theorem eager_mutators_run_once fuel fuel' c c' P s s1 s2 :
  eagerPhase c = Some P →
  call (lock fuel) c s = Returns tt s1 →
  reaches s1 s2 →
  eagerPhase c' = Some P →
  ∃ s3,
    call (lock fuel') c' s2 =
      Throws (AlreadyLocked P (lockSite (locks s2 !! P))) s3
    ∧ sameBuilder s2 s3.
Proof.
  intros Hc H Hr Hc'.
  apply checked_mutator_throws; [by apply eagerPhase_checked|].
  apply (ev_locks _ _ _ (reaches_evolves _ _ Hr)).
  exact (eager_mutator_locks _ _ _ _ _ Hc H).
Qed.

Lemma eager_mutators_run_once_witness :
  ∃ s3,
    call (lock 1) (call_limit (ofZ 10)) sourcedBuilder =
      Throws (AlreadyLocked "limit" None) s3
    ∧ sameBuilder sourcedBuilder s3.
Proof.
  apply (eager_mutators_run_once 1 1 (call_limit (ofZ (-3)))
           (call_limit (ofZ 10)) "limit" (new false "") limitedBuilder
           sourcedBuilder).
  - reflexivity.
  - by vm_compute.
  - apply (reaches_returns _ orderedBuilder _ 1
             (call_from (Some (Known (sql.identifier [Name "users"])))
                (Alias (sql.identifier [Name "u"]))));
      [|by vm_compute].
    apply (reaches_returns _ limitedBuilder _ 1
             (call_orderBy (Known (sql.identifier [Name "id"])) true));
      [apply reaches_here|by vm_compute].
  - reflexivity.
Defined.

Lemma compile_unknown lock type s :
  type ∉ knownPhases →
  compile lock type s = Throws (UnexpectedLock type) s.
Proof.
  intros H. unfold compile. rewrite gets_bind.
  repeat match goal with
         | |- context [String.eqb type ?x] =>
             destruct (String.eqb_spec type x) as [->|_];
             [exfalso; apply H; unfold knownPhases; by repeat constructor|]
         end.
  reflexivity.
Qed.

(** X3.  [lock] sets the lock before it looks at the name of the phase: for
    a name it has no branch for, that is not inherited and that it finds
    open, a [lock] whose callbacks have returned throws "Wasn't expecting to
    lock", but leaves the name locked; a second [lock] of that name returns
    without doing anything, and [beforeLock] on it throws the already-locked
    error.  A name inherited
    from [Object.prototype] ([constructor], [toString], ...) is never found
    open: on every builder made by [new QueryBuilder()] and method calls,
    [lock] of such a name returns at once and changes nothing, and
    [beforeLock] on it throws the already-locked error, without a site. *)
Theorem lock_unknown_phase type :
  type ∉ knownPhases →
  (∀ fuel s s1,
     inherited type = false →
     isLocked type s = false →
     runBeforeLock fuel type 0 s = Returns tt s1 →
     lock (S fuel) type s = Throws (UnexpectedLock type) (marked type s1)
     ∧ (∀ fuel', lock fuel' type (marked type s1) = Returns tt (marked type s1))
     ∧ ∀ fn, beforeLock type fn (marked type s1) =
             Throws (AlreadyLocked type
                       (lockSite (locks (marked type s1) !! type)))
               (marked type s1))
  ∧ (∀ dev frames fuel s fn,
       reaches (new dev frames) s →
       inherited type = true →
       lock fuel type s = Returns tt s
       ∧ beforeLock type fn s = Throws (AlreadyLocked type None) s).
Proof.
  intros Hu. split.
  - intros fuel s s1 _ E Hrun.
    assert (Hm : isLocked type (marked type s1) = true).
    { rewrite isLocked_marked. by rewrite decide_True. }
    split; [|split].
    + rewrite lock_unfold, E. rewrite (bind_eq_returns _ _ _ _ _ Hrun).
      rewrite bind_unfold, setLock_unfold. by apply compile_unknown.
    + intros fuel'. by apply lock_locked.
    + intros fn. unfold beforeLock.
      by rewrite bind_unfold, checkLock_unfold, Hm.
  - intros dev frames fuel s fn Hr Hi.
    destruct (reaches_inherited _ _ _ _ Hr Hi) as [Hnone Hl].
    split; [by apply lock_locked|].
    unfold beforeLock. by rewrite bind_unfold, checkLock_unfold, Hl, Hnone.
Qed.

Lemma lock_unknown_phase_witness :
  (lock 1 "having" (new false "") =
     Throws (UnexpectedLock "having") (marked "having" (new false ""))
   ∧ lock 0 "having" (marked "having" (new false "")) =
       Returns tt (marked "having" (new false "")))
  ∧ lock 1 "toString" (new true "") = Returns tt (new true "")
  ∧ beforeLock "toString" (Script []) (new true "") =
      Throws (AlreadyLocked "toString" None) (new true "").
Proof.
  split.
  - destruct (lock_unknown_phase "having") as [H _].
    { apply (bool_decide_unpack _). by vm_compute. }
    destruct (H 0 (new false "") (new false "")) as (H1 & H2 & _);
      [reflexivity..|].
    split; [exact H1|apply H2].
  - destruct (lock_unknown_phase "toString") as [_ H].
    { apply (bool_decide_unpack _). by vm_compute. }
    apply (H true "" 1 (new true "") (Script [])); [apply reaches_here|].
    reflexivity.
Defined.

(** X4.  [getOffset] always gives a count: in every state a builder
    reaches, the number it returns is not NaN and not below zero, and it is
    0 when no offset was compiled. *)
Theorem getOffset_is_a_count dev frames fuel s v s1 :
  reaches (new dev frames) s →
  getOffset (lock fuel) s = Returns v s1 →
  v ≠ NaN
  ∧ negative v = false
  ∧ (compiledData.offset (compiledData s1) = None → v = zero).
Proof.
  intros Hr H.
  assert (Hr1 : reaches (new dev frames) s1).
  { apply (reaches_returns _ s _ fuel call_getOffset); [done|].
    simpl. by rewrite (bind_eq_returns _ _ _ _ _ H). }
  destruct (reaches_clamped _ _ _ Hr1) as (_ & _ & _ & Hc).
  unfold getOffset in H.
  apply bind_returns in H as ([] & sa & _ & H). injection H as <- <-.
  destruct (compiledData.offset (compiledData sa)) as [n|]; [|done].
  simpl in Hc. split; [|split; [|done]].
  - by destruct n.
  - by destruct (truthyNumber n).
Qed.

Lemma getOffset_is_a_count_witness :
  getOffset (lock 1) (new false "") = Returns zero askedOffsetBuilder
  ∧ zero ≠ NaN.
Proof.
  split; [by vm_compute|].
  apply (getOffset_is_a_count false "" 1 (new false "") zero
           askedOffsetBuilder); [apply reaches_here|by vm_compute].
Defined.

(** X5.  The already-locked error names where the lock was taken exactly
    when the lock was set by [lock] in a dev build: in every state a builder
    reaches, a checking mutator of a locked phase throws the error with the
    stack of the error made in [lock] when [NODE_ENV] is test or
    development and the phase is not a name inherited from
    [Object.prototype]; it throws the error without any site otherwise (a
    production build, or [beforeLock] on an inherited name such as
    [toString], which counts as locked without [lock] having set anything);
    the fields of the builder are as they were. *)
Theorem already_locked_names_the_site dev frames fuel c P s :
  reaches (new dev frames) s →
  checkedPhase c = Some P →
  isLocked P s = true →
  ∃ s',
    call (lock fuel) c s =
      Throws (AlreadyLocked P
                (if dev && negb (inherited P)
                 then Some ("Error: Initally locked here" ++ frames)%string
                 else None)) s'
    ∧ sameBuilder s s'.
Proof.
  intros Hr Hc HP.
  destruct (checked_mutator_throws (lock fuel) c P s Hc HP) as (s' & H & Hs).
  exists s'. split; [|done]. rewrite H. do 2 f_equal.
  destruct (reaches_sited _ _ _ Hr) as (Hd & Hf & Hsited).
  pose proof (reaches_proper _ _ _ Hr) as Hproper.
  unfold isLocked in HP. destruct (locks s !! P) as [v|] eqn:E.
  - rewrite (Hproper P v E), (Hsited P v E), Hd. unfold Error_stack.
    rewrite Hf. by destruct dev.
  - simpl in HP. rewrite HP. by rewrite andb_false_r.
Qed.

Lemma already_locked_names_the_site_witness :
  ∃ s',
    call (lock 1) call_flip flippedDevBuilder =
      Throws (AlreadyLocked "flip"
                (Some "Error: Initally locked here at QueryBuilder.lock")) s'
    ∧ sameBuilder flippedDevBuilder s'.
Proof.
  apply (already_locked_names_the_site true " at QueryBuilder.lock" 1
           call_flip "flip" flippedDevBuilder).
  - apply (reaches_returns _ (new true " at QueryBuilder.lock") _ 1 call_flip);
      [apply reaches_here|by vm_compute].
  - reflexivity.
  - reflexivity.
Defined.

(** X6.  Nothing is taken back: in every state a later sequence of method
    calls leads to, the callbacks registered for a phase are still there, in
    their order and at the front; and once a phase is locked, its callbacks
    and the draft fields of the phase ([select], [selectCursor], [from],
    [join], [where], the two bounds, [orderBy], [limit], [offset], [flip],
    [cursorComparator]) are what they were when it was locked. *)
Theorem locked_draft_is_final P s s' :
  reaches s s' →
  callbacksOf P s `prefix_of` callbacksOf P s'
  ∧ (isLocked P s = true →
       callbacksOf P s' = callbacksOf P s
       ∧ draftFrozen P (data s) (data s')).
Proof.
  intros Hr. pose proof (reaches_evolves _ _ Hr) as Hev.
  split; [apply (ev_registered _ _ _ Hev)|]. intros HP.
  split; [by apply (ev_callbacks _ _ _ Hev)|].
  by apply (reaches_draftKept _ _ Hr).
Qed.

Lemma locked_draft_is_final_witness :
  reaches limitedBuilder sourcedBuilder
  ∧ draftFrozen "limit" (data limitedBuilder) (data sourcedBuilder).
Proof.
  assert (Hr : reaches limitedBuilder sourcedBuilder).
  { apply (reaches_returns _ orderedBuilder _ 1
             (call_from (Some (Known (sql.identifier [Name "users"])))
                (Alias (sql.identifier [Name "u"]))));
      [|by vm_compute].
    apply (reaches_returns _ limitedBuilder _ 1
             (call_orderBy (Known (sql.identifier [Name "id"])) true));
      [apply reaches_here|by vm_compute]. }
  split; [exact Hr|].
  by apply (locked_draft_is_final "limit" limitedBuilder sourcedBuilder Hr).
Defined.

(** ** Callbacks that only configure, continued *)

(** What the configuring mutators never write. *)
Record sparing (s s' : State) : Prop := {
  sp_from : data.from (data s') = data.from (data s);
  sp_join : data.join (data s') = data.join (data s);
  sp_flip : data.flip (data s') = data.flip (data s);
  sp_comparator :
    data.cursorComparator (data s') = data.cursorComparator (data s);
  sp_symbols : symbols s' = symbols s;
  sp_finalized : finalized s' = finalized s;
}.

Lemma sparing_refl s : sparing s s.
Proof. by split. Qed.

Lemma sparing_trans s1 s2 s3 : sparing s1 s2 → sparing s2 s3 → sparing s1 s3.
Proof. intros [] []. split; congruence. Qed.

Lemma sparing_call lock c s : tameCall c → after (call lock c) s (sparing s).
Proof.
  intros Hc. unfold after.
  destruct Hc as [field body Hbody| | | |g [isLower|]| |]; simpl;
    unfold beforeLock, select, selectCursor, where_, whereBound,
      setOrderIsUnique, orderBy, throw;
    rewrite ?bind_unfold, ?checkLock_unfold;
    try match goal with
        | |- context [isLocked ?P s] => destruct (isLocked P s)
        end;
    try apply sparing_refl;
    unfold update_data, modify; split; simpl; try done;
    by destruct isLower.
Qed.

Lemma sparing_script lock body s :
  Forall tameCall body → after (forEach (call lock) body) s (sparing s).
Proof.
  intros Hbody. revert s. induction Hbody as [|c body Hc _ IH]; intros s.
  - apply sparing_refl.
  - simpl. pose proof (sparing_call lock c s Hc) as Ht. unfold after in Ht.
    apply after_bind.
    + intros e s1 H. by rewrite H in Ht.
    + intros [] s1 H. rewrite H in Ht.
      eapply after_mono; [|apply IH]. intros s'. by apply sparing_trans.
Qed.

Lemma runBeforeLock_sparing fuel : ∀ (P : string) (i : nat) s,
  Forall tameCallback (drop i (callbacksOf P s)) →
  after (runBeforeLock fuel P i) s (λ s', tamely s s' ∧ sparing s s').
Proof.
  induction fuel as [|fuel IH]; intros P i s Hi; unfold after.
  - simpl. destruct (callbacksOf P s !! i);
      [done|split; [apply tamely_refl|apply sparing_refl]].
  - rewrite runBeforeLock_unfold.
    destruct (callbacksOf P s !! i) as [fn|] eqn:E;
      [|split; [apply tamely_refl|apply sparing_refl]].
    assert (Hfn : tameCallback fn).
    { rewrite Forall_forall in Hi. apply Hi.
      apply list_elem_of_lookup. exists 0. by rewrite lookup_drop, Nat.add_0_r. }
    destruct Hfn as (body & -> & Hbody).
    change (after (record (Fired P i);; invoke (lock fuel) (Script body);;
                   runBeforeLock fuel P (S i)) s
              (λ s', tamely s s' ∧ sparing s s')).
    apply after_bind; [done|]. intros [] s1 [= <-].
    set (sf := set_history (history s ++ [Fired P i]) s).
    pose proof (tamely_fired P i s) as Hf. fold sf in Hf.
    assert (Hsf : sparing s sf) by by split.
    pose proof (tame_script (lock fuel) body sf Hbody) as Ht.
    pose proof (sparing_script (lock fuel) body sf Hbody) as Hsp.
    unfold after in Ht, Hsp.
    apply after_bind.
    + intros e s2 H. simpl in H. rewrite H in Ht, Hsp.
      split; [by eapply tamely_trans|by eapply sparing_trans].
    + intros [] s2 H. simpl in H. rewrite H in Ht, Hsp.
      pose proof (tamely_trans _ _ _ Hf Ht) as H02.
      pose proof (sparing_trans _ _ _ Hsf Hsp) as S02.
      apply (after_mono _ _ (λ s', tamely s2 s' ∧ sparing s2 s'));
        [intros s' [? ?]; split;
         [by eapply tamely_trans|by eapply sparing_trans]|].
      apply IH. destruct (tm_added _ _ H02 P) as (added & -> & Hadded).
      rewrite <- (Nat.add_1_r i), <- drop_drop.
      apply Forall_drop. rewrite drop_app. apply Forall_app. split.
      * done.
      * by apply Forall_drop.
Qed.

(** The alias [from] stores: the one given, or a new symbol. *)
Definition aliasOf (alias : AliasArg) (s : State) : SQLAlias :=
  match alias with
  | Alias a => a
  | _ => sql.identifier [Sym (symbols s)]
  end.

(** X7.  [from] and [getTableAlias] agree: on a builder whose callbacks
    only configure, once [from(expr, alias)] has returned,
    [getTableAlias()] returns that alias (the new symbol when the alias was
    left out) in every state a later sequence of method calls leads to. *)
Theorem from_sets_the_alias fuel fuel' expr alias s s1 s2 :
  tameTable s →
  from (lock fuel) expr alias s = Returns tt s1 →
  reaches s1 s2 →
  getTableAlias (lock fuel') s2 = Returns (aliasOf alias s) s2.
Proof.
  intros Ht H Hr. unfold from in H.
  apply bind_returns in H as (a & sa & Ha & H).
  assert (Hsa : tameTable sa ∧ a = Some (aliasOf alias s)
                ∨ a = None).
  { destruct alias; simpl in Ha.
    - left. injection Ha as <- <-. split; [|done].
      intros P. apply (Ht P).
    - right. by injection Ha as <- <-.
    - left. by injection Ha as <- <-. }
  apply bind_returns in H as ([] & sb & Hb & H).
  rewrite checkLock_unfold in Hb.
  destruct (isLocked "from" sa) eqn:E; [done|]. injection Hb as <-.
  destruct expr as [expr|]; [|done].
  destruct Hsa as [[Hta ->]| ->]; [|done].
  apply bind_returns in H as ([] & sc & [= <-] & H).
  set (sd := set_data (set_data.from (Some (expr, aliasOf alias s)) (data sa)) sa)
    in *.
  apply lock_returns_open in H as (f & se & -> & Hrun & Hc); [|done].
  assert (Hse : data.from (data se) = Some (expr, aliasOf alias s)).
  { pose proof (runBeforeLock_sparing f "from" 0 sd) as Hl.
    unfold after in Hl. rewrite Hrun in Hl.
    destruct Hl as [_ Hsp].
    - destruct (Hta "from") as (l & El & Hl').
      change (callbacksOf "from" sd) with (callbacksOf "from" sa).
      by rewrite El.
    - by rewrite (sp_from _ _ Hsp). }
  assert (H1 : ∃ f0, compiledData.from (compiledData s1) =
                     Some (f0, aliasOf alias s)).
  { unfold compile in Hc. rewrite gets_bind in Hc. simpl in Hc.
    rewrite Hse in Hc.
    apply bind_returns in Hc as (f0 & sg & _ & Hc).
    injection Hc as <-. by exists f0. }
  destruct H1 as (f0 & H1).
  assert (Hl1 : isLocked "from" s1 = true).
  { eapply ev_locks.
    - eapply preserves_returns; [|exact Hc].
      apply compile_evolvesBut, lock_evolves.
    - rewrite isLocked_marked. by rewrite decide_True. }
  pose proof (reaches_evolves _ _ Hr) as Hev.
  unfold getTableAlias.
  rewrite bind_unfold, lock_locked by by apply (ev_locks _ _ _ Hev).
  rewrite gets_bind.
  replace (compiledData.from (compiledData s2)) with
    (Some (f0, aliasOf alias s)); [done|].
  rewrite <- H1. symmetry. by apply (evolves_frozen "from" _ _ Hev).
Qed.

Lemma from_sets_the_alias_witness :
  getTableAlias (lock 0) defaultAliasBuilder =
    Returns (sql.identifier [Sym 0]) defaultAliasBuilder.
Proof.
  apply (from_sets_the_alias 1 0
           (Some (Known (sql.identifier [Name "users"]))) DefaultAlias
           (new false "") defaultAliasBuilder defaultAliasBuilder).
  - apply new_tameTable.
  - by vm_compute.
  - apply reaches_here.
Defined.

(** ** Resolving the draft *)

(** [produced f g q]: the value or producer [g] gives [q] when the compiled
    source is [f]. *)
Definition produced (f : option (SQL * SQLAlias)) (g : SQLGen) (q : SQL) : Prop :=
  match g with
  | Known q' | Deferred q' => q = q'
  | DeferredOnAlias k => ∃ src, f = Some src ∧ q = k src.2
  end.

Definition producedPair {B} (f : option (SQL * SQLAlias))
    (x : SQLGen * B) (y : SQL * B) : Prop :=
  produced f x.1 y.1 ∧ x.2 = y.2.

(** The compiled fields of phase [P] are its draft, resolved in order. *)
Definition mirroredPhase (P : string) (s : State) : Prop :=
  let f := compiledData.from (compiledData s) in
  let d := data s in
  let c := compiledData s in
  (P = "join" → Forall2 (produced f) (data.join d) (compiledData.join c))
  ∧ (P = "where" → Forall2 (produced f) (data.where_ d) (compiledData.where_ c))
  ∧ (P = "whereBound" →
       Forall2 (produced f) (data.whereBound_lower d)
         (compiledData.whereBound_lower c)
       ∧ Forall2 (produced f) (data.whereBound_upper d)
           (compiledData.whereBound_upper c))
  ∧ (P = "orderBy" →
       Forall2 (producedPair f) (data.orderBy d) (compiledData.orderBy c))
  ∧ (P = "selectCursor" →
       option_Forall2 (produced f) (data.selectCursor d)
         (compiledData.selectCursor c))
  ∧ (P = "select" →
       Forall2 (producedPair f) (data.select d) (compiledData.select c)).

Lemma callIfNecessary_produced fuel g s q s' :
  isLocked "from" s = true →
  callIfNecessary (lock fuel) g s = Returns q s' →
  s' = s ∧ produced (compiledData.from (compiledData s)) g q.
Proof.
  intros Hl H. destruct g as [q'|q'|k]; simpl in H.
  - by injection H as <- <-.
  - by injection H as <- <-.
  - apply bind_returns in H as (a & sa & Ha & H). injection H as <- <-.
    apply getTableAlias_returns in Ha as (Hlock & f & Hf & ->).
    rewrite lock_locked in Hlock by done. injection Hlock as <-.
    split; [done|]. by exists f.
Qed.

Lemma callIfNecessaryArray_produced fuel l : ∀ s r s',
  isLocked "from" s = true →
  callIfNecessaryArray (lock fuel) l s = Returns r s' →
  s' = s ∧ Forall2 (produced (compiledData.from (compiledData s))) l r.
Proof.
  unfold callIfNecessaryArray.
  induction l as [|g l IH]; intros s r s' Hl H; simpl in H.
  - injection H as <- <-. by split.
  - apply bind_returns in H as (q & s1 & Hq & H).
    apply bind_returns in H as (qs & s2 & Hqs & H). injection H as <- <-.
    apply callIfNecessary_produced in Hq as [-> Hq]; [|done].
    apply IH in Hqs as [-> Hqs]; [|done].
    split; [done|by constructor].
Qed.

Lemma mapArray_producedPair {B} fuel (l : list (SQLGen * B)) : ∀ s r s',
  isLocked "from" s = true →
  mapArray (λ '(a, b), a' ← callIfNecessary (lock fuel) a; ret (a', b)) l s =
    Returns r s' →
  s' = s ∧ Forall2 (producedPair (compiledData.from (compiledData s))) l r.
Proof.
  induction l as [|[g b] l IH]; intros s r s' Hl H; simpl in H.
  - injection H as <- <-. by split.
  - apply bind_returns in H as ([q b'] & s1 & Hq & H).
    apply bind_returns in H as (qs & s2 & Hqs & H). injection H as <- <-.
    apply bind_returns in Hq as (q' & s3 & Hq & Hret).
    injection Hret as <- <- <-.
    apply callIfNecessary_produced in Hq as [-> Hq]; [|done].
    apply IH in Hqs as [-> Hqs]; [|done].
    split; [done|]. constructor; [by split|done].
Qed.

(** What [lock] compiles once the source is locked. *)
Lemma compile_mirrors fuel P s s' :
  isLocked "from" s = true →
  compile (lock fuel) P s = Returns tt s' →
  mirroredPhase P s'
  ∧ (P ≠ "from" →
     compiledData.from (compiledData s') = compiledData.from (compiledData s)).
Proof.
  intros Hl H. unfold compile in H. rewrite gets_bind in H.
  unfold mirroredPhase.
  repeat match type of H with
         | context [String.eqb P ?x] =>
             destruct (String.eqb_spec P x) as [->|?]
         end; try done.
  - injection H as <-. by repeat apply conj.
  - apply bind_returns in H as (lower & s1 & Hlow & H).
    apply callIfNecessaryArray_produced in Hlow as [-> Hlow]; [|done].
    apply bind_returns in H as ([] & s2 & [= <-] & H).
    rewrite gets_bind in H.
    apply bind_returns in H as (upper & s3 & Hup & H).
    apply callIfNecessaryArray_produced in Hup as [-> Hup]; [|done].
    injection H as <-. simpl in *. by repeat apply conj.
  - apply bind_returns in H as (r & s1 & Hr & H).
    apply mapArray_producedPair in Hr as [-> Hr]; [|done].
    injection H as <-. simpl. by repeat apply conj.
  - apply bind_returns in H as (r & s1 & Hr & H).
    apply mapArray_producedPair in Hr as [-> Hr]; [|done].
    injection H as <-. simpl. by repeat apply conj.
  - apply bind_returns in H as (r & s1 & Hr & H).
    apply callIfNecessaryArray_produced in Hr as [-> Hr]; [|done].
    injection H as <-. simpl. by repeat apply conj.
  - apply bind_returns in H as (r & s1 & Hr & H).
    apply callIfNecessaryArray_produced in Hr as [-> Hr]; [|done].
    injection H as <-. simpl. by repeat apply conj.
  - apply bind_returns in H as (r & s1 & Hr & H). injection H as <-.
    assert (s1 = s ∧ option_Forall2
              (produced (compiledData.from (compiledData s)))
              (data.selectCursor (data s)) r) as [-> Hc].
    { destruct (data.selectCursor (data s)) as [g|].
      - apply bind_returns in Hr as (q & s2 & Hq & Hr). injection Hr as <- <-.
        apply callIfNecessary_produced in Hq as [-> Hq]; [|done].
        split; [done|by constructor].
      - injection Hr as <- <-. split; [done|constructor]. }
    simpl. by repeat apply conj.
  - injection H as <-. by repeat apply conj.
  - injection H as <-. by repeat apply conj.
  - injection H as <-. by repeat apply conj.
  - injection H as <-. by repeat apply conj.
  - injection H as <-. by repeat apply conj.
Qed.

Lemma mirroredPhase_same P s s' :
  frozen P (compiledData s) (compiledData s') →
  frozen "from" (compiledData s) (compiledData s') →
  draftFrozen P (data s) (data s') →
  mirroredPhase P s → mirroredPhase P s'.
Proof.
  unfold mirroredPhase. intros Hc Hf Hd (M1 & M2 & M3 & M4 & M5 & M6).
  assert (Ef : compiledData.from (compiledData s') =
               compiledData.from (compiledData s)) by by apply Hf.
  rewrite Ef. repeat apply conj; intros ->.
  - replace (data.join (data s')) with (data.join (data s))
      by (symmetry; by apply Hd).
    replace (compiledData.join (compiledData s'))
      with (compiledData.join (compiledData s)) by (symmetry; by apply Hc).
    by apply M1.
  - replace (data.where_ (data s')) with (data.where_ (data s))
      by (symmetry; by apply Hd).
    replace (compiledData.where_ (compiledData s'))
      with (compiledData.where_ (compiledData s)) by (symmetry; by apply Hc).
    by apply M2.
  - assert (data.whereBound_lower (data s') = data.whereBound_lower (data s)
            ∧ data.whereBound_upper (data s') = data.whereBound_upper (data s))
      as [-> ->] by by apply Hd.
    assert (compiledData.whereBound_lower (compiledData s') =
              compiledData.whereBound_lower (compiledData s)
            ∧ compiledData.whereBound_upper (compiledData s') =
                compiledData.whereBound_upper (compiledData s))
      as [-> ->] by by apply Hc.
    by apply M3.
  - replace (data.orderBy (data s')) with (data.orderBy (data s))
      by (symmetry; by apply Hd).
    replace (compiledData.orderBy (compiledData s'))
      with (compiledData.orderBy (compiledData s)) by (symmetry; by apply Hc).
    by apply M4.
  - replace (data.selectCursor (data s')) with (data.selectCursor (data s))
      by (symmetry; by apply Hd).
    replace (compiledData.selectCursor (compiledData s'))
      with (compiledData.selectCursor (compiledData s))
      by (symmetry; by apply Hc).
    by apply M5.
  - replace (data.select (data s')) with (data.select (data s))
      by (symmetry; by apply Hd).
    replace (compiledData.select (compiledData s'))
      with (compiledData.select (compiledData s)) by (symmetry; by apply Hc).
    by apply M6.
Qed.

Lemma lock_mirrors fuel P s s1 :
  isLocked "from" s = true →
  isLocked P s = false →
  lock fuel P s = Returns tt s1 →
  mirroredPhase P s1 ∧ isLocked P s1 = true ∧ isLocked "from" s1 = true.
Proof.
  intros Hfrom E H. pose proof (lock_returns_locked _ _ _ _ H) as HP.
  pose proof (preserves_returns _ _ _ _ _ (lock_evolves fuel P) H) as Hev.
  split; [|split; [done|by apply (ev_locks _ _ _ Hev)]].
  apply lock_returns_open in H as (f & sa & -> & Hrun & Hc); [|done].
  eapply compile_mirrors; [|exact Hc].
  rewrite isLocked_marked. destruct (decide _); [done|].
  eapply ev_locks; [|exact Hfrom].
  eapply preserves_returns; [apply runBeforeLock_evolves|exact Hrun].
Qed.

(** X8.  Locking resolves: when [lock(P)] returns for a phase that was
    open, on a builder whose source is locked, the compiled fields of [P]
    are the draft of [P] entry by entry and in order (a value as it is,
    what a producer returned, a producer that asks for the table alias
    applied to the compiled alias, each with the alias or direction it was
    given), and they stay so in every state a later sequence of method
    calls leads to. *)
Theorem lock_resolves_the_draft fuel P s s1 s2 :
  isLocked "from" s = true →
  isLocked P s = false →
  lock fuel P s = Returns tt s1 →
  reaches s1 s2 →
  mirroredPhase P s2.
Proof.
  intros Hfrom E H Hr.
  destruct (lock_mirrors _ _ _ _ Hfrom E H) as (Hm & HP & Hf1).
  pose proof (reaches_evolves _ _ Hr) as Hev.
  apply (mirroredPhase_same P s1); [by apply evolves_frozen..| |done].
  by apply (reaches_draftKept _ _ Hr).
Qed.

Lemma lock_resolves_the_draft_witness :
  mirroredPhase "where" whereResolvedBuilder
  ∧ compiledData.where_ (compiledData whereResolvedBuilder) =
      [sql.fragment [""; ".id > 0"] [sql.value (sql.identifier [Name "u"])]].
Proof.
  split; [|reflexivity].
  apply (lock_resolves_the_draft 3 "where" lazyBuilder whereResolvedBuilder
           whereResolvedBuilder).
  - reflexivity.
  - reflexivity.
  - by vm_compute.
  - apply reaches_here.
Defined.

(** The column the closure of the constructor selects. *)
Definition cursorColumn {A} (wrap : SQL → A) (c : option SQL)
    : list (A * RawAlias) :=
  match c with
  | Some cursor => [(wrap cursor, Name "__cursor")]
  | None => []
  end.

(** X9.  The cursor column: on a builder whose source is locked and that
    has no callback on "select" and "selectCursor" but the one of the
    constructor, a [lock("select")] that returns has compiled the select
    list to the selected columns, resolved and in order, followed by the
    compiled select cursor under the alias [__cursor] when there is one,
    and by nothing when there is none. *)
Theorem select_gets_the_cursor fuel s s' :
  isLocked "from" s = true →
  isLocked "select" s = false →
  callbacksOf "select" s = [selectCursorHook] →
  (isLocked "selectCursor" s = false → callbacksOf "selectCursor" s = []) →
  lock fuel "select" s = Returns tt s' →
  ∃ fields,
    compiledData.select (compiledData s') =
      fields ++ cursorColumn id (compiledData.selectCursor (compiledData s'))
    ∧ Forall2 (producedPair (compiledData.from (compiledData s')))
        (data.select (data s)) fields.
Proof.
  intros Hfrom E Hcb Hsc H.
  destruct (lock_mirrors _ _ _ _ Hfrom E H) as (Hm & _ & _).
  assert (Hsel : Forall2 (producedPair (compiledData.from (compiledData s')))
            (data.select (data s')) (compiledData.select (compiledData s')))
    by by apply Hm.
  clear Hm.
  apply lock_returns_open in H as (f & sa & -> & Hrun & Hc); [|done].
  destruct f as [|f]; [simpl in Hrun; by rewrite Hcb in Hrun|].
  rewrite runBeforeLock_unfold, Hcb in Hrun. simpl in Hrun.
  apply bind_returns in Hrun as ([] & sr & [= <-] & Hrun).
  apply bind_returns in Hrun as ([] & sb & Hhook & Hrun).
  set (sr := set_history (history s ++ [Fired "select" 0]) s) in *.
  apply bind_returns in Hhook as ([] & sc & Hlock & Hhook).
  assert (Hc' : data sc = data s
                ∧ isLocked "select" sc = false
                ∧ isLocked "selectCursor" sc = true
                ∧ isLocked "from" sc = true).
  { destruct (isLocked "selectCursor" s) eqn:Esc.
    - rewrite lock_locked in Hlock by done. by injection Hlock as <-.
    - apply lock_returns_open in Hlock as (f2 & sx & -> & Hrun2 & Hc2);
        [|done].
      assert (sx = sr) as ->.
      { destruct f2; simpl in Hrun2;
          change (callbacksOf "selectCursor" sr)
            with (callbacksOf "selectCursor" s) in Hrun2;
          rewrite (Hsc eq_refl) in Hrun2; by injection Hrun2. }
      apply compile_quiet in Hc2 as [Hl Hh Hd];
        [|rewrite isLocked_marked; by destruct (decide _)].
      split; [by rewrite Hd|]. unfold isLocked. rewrite Hl.
      fold (isLocked "select" (marked "selectCursor" sr)).
      fold (isLocked "selectCursor" (marked "selectCursor" sr)).
      fold (isLocked "from" (marked "selectCursor" sr)).
      rewrite !isLocked_marked. by repeat split. }
  destruct Hc' as (Hd & Esel & Ecur & Efrom).
  rewrite gets_bind in Hhook.
  assert (Hsb : data.select (data sb) =
                  data.select (data s)
                  ++ cursorColumn Known (compiledData.selectCursor (compiledData sc))
                ∧ locks sb = locks sc
                ∧ compiledData sb = compiledData sc
                ∧ data.beforeLock (data sb) = data.beforeLock (data s)).
  { destruct (compiledData.selectCursor (compiledData sc)) as [c|].
    - unfold select in Hhook.
      rewrite bind_unfold, checkLock_unfold, Esel in Hhook.
      injection Hhook as <-. simpl. by rewrite Hd.
    - injection Hhook as <-. simpl. by rewrite app_nil_r, Hd. }
  destruct Hsb as (Hsel_b & Hlocks_b & Hcomp_b & Hcb_b).
  assert (sa = sb) as ->.
  { assert (Hnone : callbacksOf "select" sb !! 1 = None).
    { unfold callbacksOf. rewrite Hcb_b. fold (callbacksOf "select" s).
      by rewrite Hcb. }
    destruct f; simpl in Hrun; rewrite Hnone in Hrun; by injection Hrun. }
  assert (Elocked : ∀ P, isLocked P (marked "select" sb) =
                         if decide ("select" = P) then true else isLocked P sc).
  { intros P. rewrite isLocked_marked. unfold isLocked. by rewrite Hlocks_b. }
  pose proof (preserves_returns _ _ _ _ _
    (compile_evolvesBut _ "select" (lock_evolves (S f))) Hc) as Hev.
  assert (Hcursor : compiledData.selectCursor (compiledData s') =
                    compiledData.selectCursor (compiledData sc)).
  { rewrite <- Hcomp_b.
    apply (ev_frozen _ _ _ Hev "selectCursor"); [|done..].
    rewrite Elocked. by destruct (decide _). }
  apply compile_quiet in Hc as [_ _ Hdata];
    [|rewrite Elocked; by destruct (decide _)].
  simpl in Hdata. rewrite Hdata, Hsel_b, <- Hcursor in Hsel.
  apply Forall2_app_inv_l in Hsel as (fields & col & Hfields & Hcol & ->).
  exists fields. split; [|done]. f_equal.
  destruct (compiledData.selectCursor (compiledData s')) as [c|]; simpl in *.
  - apply Forall2_cons_inv_l in Hcol as ([q a] & rest & [Hq Ha] & Hrest & ->).
    apply Forall2_nil_inv_l in Hrest as ->. simpl in *. by subst.
  - by apply Forall2_nil_inv_l in Hcol.
Qed.

Lemma select_gets_the_cursor_witness :
  ∃ fields,
    compiledData.select (compiledData selectedBuilder) =
      fields ++ [(sql.identifier [Name "id"], Name "__cursor")]
    ∧ Forall2 (producedPair (compiledData.from (compiledData selectedBuilder)))
        (data.select (data lazyBuilder)) fields.
Proof.
  apply (select_gets_the_cursor 3 lazyBuilder selectedBuilder).
  - reflexivity.
  - reflexivity.
  - reflexivity.
  - reflexivity.
  - by vm_compute.
Defined.

(** ** Reading a finalized builder *)

(** [lock] on the phases of a settled builder; used to reason about the
    methods that lock nothing else. *)
Definition lockSettled (fuel : nat) (type : string) : M unit :=
  if bool_decide (type ∈ "whereBound" :: lockedByLockEverything)
  then lock fuel type
  else ret tt.

(** The methods that lock only phases of [lockEverything]. *)
Definition reading (c : Call) : Prop :=
  match c with
  | call_cursorCondition _ _ | call_getTableAlias | call_getSelectCursor
  | call_getOffset | call_getOrderByExpressionsAndDirections
  | call_buildSelectFields | call_buildSelectJson _
  | call_buildWhereBoundClause _ | call_buildWhereClause _ _ _
  | call_build _ | call_lockEverything => True
  | _ => False
  end.

Definition unchanged (s s' : State) : Prop :=
  sameBuilder s s' ∧ history s' = history s.

Definition unchangedIfSettled (s s' : State) : Prop :=
  settled s → unchanged s s'.

Lemma unchanged_settled s s' : unchanged s s' → settled s → settled s'.
Proof.
  intros [(Hl & Hf & _) _] [H1 H2]. unfold settled, isLocked in *.
  by rewrite Hl, Hf.
Qed.

Lemma unchangedIfSettled_refl s : unchangedIfSettled s s.
Proof. by intros _. Qed.

Lemma unchangedIfSettled_trans s1 s2 s3 :
  unchangedIfSettled s1 s2 → unchangedIfSettled s2 s3 →
  unchangedIfSettled s1 s3.
Proof.
  intros H12 H23 Hs. pose proof (H12 Hs) as U12.
  pose proof (H23 (unchanged_settled _ _ U12 Hs)) as U23.
  destruct U12 as [(? & ? & ? & ?) ?], U23 as [(? & ? & ? & ?) ?].
  repeat split; congruence.
Qed.

Lemma lockSettled_unchanged fuel type :
  preserves unchangedIfSettled (lockSettled fuel type).
Proof.
  intros s. unfold after, lockSettled.
  destruct (bool_decide_reflect (type ∈ "whereBound" :: lockedByLockEverything))
    as [Hin|_]; [|by intros _].
  destruct (isLocked type s) eqn:E.
  - rewrite lock_locked by done. by intros _.
  - assert (Hs : ¬ settled s).
    { intros [_ Hall]. rewrite Forall_forall in Hall.
      specialize (Hall type Hin). congruence. }
    by destruct (lock fuel type s).
Qed.

(** X10.  A finalized builder is only read: on a builder whose finalized
    flag is set and whose phases of [lockEverything], with "whereBound",
    are locked, [build], [buildSelectFields], [buildSelectJson],
    [buildWhereClause], [buildWhereBoundClause], [lockEverything],
    [cursorCondition] and the getters of these phases leave locks,
    finalized, data, compiledData and the lock history as they are, whether
    they return or throw; only the counter of symbols may move. *)
Theorem finalized_builder_is_read_only fuel c s :
  settled s →
  reading c →
  after (call (lock fuel) c) s (unchanged s).
Proof.
  intros Hs Hc.
  cut (preserves unchangedIfSettled (call (lockSettled fuel) c)).
  { intros H.
    apply (after_mono _ _ (unchangedIfSettled s)); [intros s' H'; by apply H'|].
    destruct c; try done; exact (H s). }
  assert (Hsym : ∀ s0, unchangedIfSettled s0 (set_symbols (S (symbols s0)) s0))
    by by intros s0 _.
  assert (Hfin : ∀ s0, unchangedIfSettled s0 (set_finalized true s0)).
  { intros s0 [Hf _]. by rewrite set_finalized_id. }
  pose proof (λ A B, @preserves_bind unchangedIfSettled
                       unchangedIfSettled_trans A B) as Hbind.
  pose proof (λ A, @preserves_ret unchangedIfSettled
                     unchangedIfSettled_refl A) as Hret.
  pose proof (λ A, @preserves_gets unchangedIfSettled
                     unchangedIfSettled_refl A) as Hgets.
  pose proof (lockSettled_unchanged fuel) as Hlock.
  clear s Hs.
  destruct c; try done; simpl;
    try (apply Hbind; [|intros; apply Hret]).
  - unfold cursorCondition. apply Hbind; [apply Hlock|intros _].
    apply Hbind; [apply Hgets|intros [cmp|]];
      [apply Hret|apply preserves_throw, unchangedIfSettled_refl].
  - exact (preserves_getTableAlias _ unchangedIfSettled_refl
             unchangedIfSettled_trans _ Hlock).
  - unfold getSelectCursor. apply Hbind; [apply Hlock|intros; apply Hgets].
  - unfold getOffset. apply Hbind; [apply Hlock|intros _].
    apply Hbind; [apply Hgets|intros; apply Hret].
  - unfold getOrderByExpressionsAndDirections.
    apply Hbind; [apply Hlock|intros; apply Hgets].
  - exact (preserves_buildSelectFields _ unchangedIfSettled_refl
             unchangedIfSettled_trans Hfin _ Hlock).
  - exact (preserves_buildSelectJson _ unchangedIfSettled_refl
             unchangedIfSettled_trans Hfin _ Hlock _).
  - exact (preserves_buildWhereBoundClause _ unchangedIfSettled_refl
             unchangedIfSettled_trans _ Hlock _).
  - exact (preserves_buildWhereClause _ unchangedIfSettled_refl
             unchangedIfSettled_trans _ Hlock _ _ _).
  - exact (preserves_build _ unchangedIfSettled_refl
             unchangedIfSettled_trans Hsym Hfin _ Hlock _).
  - exact (preserves_lockEverything _ unchangedIfSettled_trans Hfin _ Hlock).
Qed.

Lemma finalized_builder_is_read_only_witness :
  settled finalizedSourcedBuilder
  ∧ after (call (lock 0) (call_build defaultOptions)) finalizedSourcedBuilder
      (unchanged finalizedSourcedBuilder).
Proof.
  assert (Hs : settled finalizedSourcedBuilder).
  { split; [reflexivity|]. unfold lockedByLockEverything.
    repeat constructor. }
  split; [exact Hs|].
  apply (finalized_builder_is_read_only 0 (call_build defaultOptions)
           finalizedSourcedBuilder Hs).
  exact I.
Defined.

(** ** What configuring leaves open *)

(** The phases a mutator locks. *)
Definition eagerPhases : list string :=
  ["cursorComparator"; "from"; "limit"; "offset"; "flip"].

(** The mutators that only add to the draft, on the phases no mutator
    locks; a name inherited from [Object.prototype] counts as locked. *)
Definition accumulating (c : Call) : Prop :=
  match c with
  | call_beforeLock field (Script body) =>
      (field ∉ eagerPhases) ∧ inherited field = false ∧ Forall tameCall body
  | call_select _ _ | call_selectCursor _ | call_where _
  | call_whereBound _ (Some _) | call_setOrderIsUnique | call_orderBy _ _ =>
      True
  | _ => False
  end.

(** [grows s s']: the callbacks still only configure, and what was locked
    since [s] is a phase a mutator locks. *)
Definition grows (s s' : State) : Prop :=
  tameTable s →
  tameTable s'
  ∧ ∀ Q, isLocked Q s' = true → isLocked Q s = true ∨ Q ∈ eagerPhases.

Lemma grows_refl s : grows s s.
Proof. intros Ht. split; [done|]. intros Q HQ. by left. Qed.

Lemma grows_trans s1 s2 s3 : grows s1 s2 → grows s2 s3 → grows s1 s3.
Proof.
  intros H12 H23 Ht. destruct (H12 Ht) as [Ht2 Hl2].
  destruct (H23 Ht2) as [Ht3 Hl3]. split; [done|].
  intros Q HQ. destruct (Hl3 Q HQ) as [H2|]; [by apply Hl2|by right].
Qed.

Lemma grows_same s s' :
  locks s' = locks s →
  data.beforeLock (data s') = data.beforeLock (data s) →
  grows s s'.
Proof.
  intros Hl Hb Ht. split.
  - intros P. unfold callbacksOf. rewrite Hb. apply (Ht P).
  - intros Q. unfold isLocked. rewrite Hl. by left.
Qed.

Lemma grows_tamely s s' : tamely s s' → grows s s'.
Proof.
  intros Hs Ht. split; [by eapply tamely_tameTable|].
  intros Q. unfold isLocked. rewrite (tm_locks _ _ Hs). by left.
Qed.

Lemma compile_quietly fuel T : preserves quietlyIfFrom (compile (lock fuel) T).
Proof.
  change (compile (lock fuel) T) with (compile (λ _, lock fuel "from") T).
  apply preserves_compile.
  - intros s0 _. apply quietly_refl.
  - intros s1 s2 s3 H12 H23 Hl. destruct (H12 Hl) as [Hl2 Hh2 Hd2].
    assert (Hl' : isLocked "from" s2 = true)
      by (unfold isLocked; by rewrite Hl2).
    destruct (H23 Hl'). split; congruence.
  - by intros f s0 _.
  - intros _ s0. apply after_impl. intros Hl. unfold after.
    rewrite lock_locked by done. apply quietly_refl.
Qed.

Lemma compile_eager fuel P s :
  P ∈ eagerPhases →
  isLocked P s = true →
  after (compile (lock fuel) P) s (λ s', locks s' = locks s ∧ data s' = data s).
Proof.
  intros HP Hl. unfold eagerPhases in HP.
  repeat (apply elem_of_cons in HP as [->|HP]);
    [..|by apply elem_of_nil in HP]; try done.
  eapply after_mono; [|apply compile_quietly].
  intros s' Hq. destruct (Hq Hl). by split.
Qed.

Lemma lock_grows fuel P : P ∈ eagerPhases → preserves grows (lock fuel P).
Proof.
  intros HP s.
  assert (Hhooks : hooksOf P = []).
  { unfold eagerPhases in HP.
    repeat (apply elem_of_cons in HP as [->|HP]);
      [..|by apply elem_of_nil in HP]; done. }
  destruct fuel as [|fuel]; unfold after.
  { simpl. destruct (isLocked P s); [apply grows_refl|done]. }
  rewrite lock_unfold. destruct (isLocked P s) eqn:E; [apply grows_refl|].
  assert (Hloop : tameTable s →
                  after (runBeforeLock fuel P 0) s (tamely s)).
  { intros Ht. apply runBeforeLock_tame. destruct (Ht P) as (l & El & Hl).
    by rewrite El, Hhooks. }
  apply after_bind.
  { intros e s1 H Ht. specialize (Hloop Ht). unfold after in Hloop.
    rewrite H in Hloop. by apply grows_tamely. }
  intros [] sa Hrun. apply after_bind; [done|].
  intros [] sm [= <-].
  assert (Hm : isLocked P (marked P sa) = true).
  { rewrite isLocked_marked. by rewrite decide_True. }
  eapply after_mono; [|apply (compile_eager fuel P _ HP Hm)].
  intros s' [Hl Hd] Ht. specialize (Hloop Ht). unfold after in Hloop.
  rewrite Hrun in Hloop. split.
  - intros Q. unfold callbacksOf. rewrite Hd.
    apply (tamely_tameTable _ _ Ht Hloop Q).
  - intros Q. unfold isLocked. rewrite Hl.
    fold (isLocked Q (marked P sa)). rewrite isLocked_marked.
    destruct (decide (P = Q)) as [<-|]; [by right|].
    unfold isLocked. rewrite (tm_locks _ _ Hloop). by left.
Qed.

Lemma call_grows fuel c : configuring c → preserves grows (call (lock fuel) c).
Proof.
  pose proof (λ A B, @preserves_bind grows grows_trans A B) as Hbind.
  assert (Hdata : ∀ f, benign f → preserves grows (update_data f)).
  { intros f Hf s. apply grows_same; [done|]. simpl. apply Hf. }
  assert (Hlock : ∀ P, P ∈ eagerPhases → preserves grows (lock fuel P))
    by (intros; by apply lock_grows).
  assert (Hin : ∀ P, bool_decide (P ∈ eagerPhases) = true → P ∈ eagerPhases)
    by (intros P; apply bool_decide_eq_true_1).
  intros [Hc|Hc].
  { intros s. eapply after_mono; [|by apply tame_call].
    intros s'. apply grows_tamely. }
  destruct c; try done; simpl;
    unfold setCursorComparator, from, limit, offset, flip.
  - apply Hbind; [apply preserves_checkLock, grows_refl|intros _].
    apply Hbind; [by apply Hdata|intros _]. by apply Hlock, Hin.
  - apply Hbind; [|intros a].
    { destruct alias.
      - apply Hbind; [|intros; apply preserves_ret, grows_refl].
        intros s. by apply grows_same.
      - apply preserves_ret, grows_refl.
      - apply preserves_ret, grows_refl. }
    apply Hbind; [apply preserves_checkLock, grows_refl|intros _].
    destruct expr as [e|]; [|apply preserves_throw, grows_refl].
    destruct a as [a|]; [|apply preserves_throw, grows_refl].
    apply Hbind; [by apply Hdata|intros _]. by apply Hlock, Hin.
  - apply Hbind; [apply preserves_checkLock, grows_refl|intros _].
    apply Hbind; [|intros _; by apply Hlock, Hin].
    intros s. by apply grows_same.
  - apply Hbind; [apply preserves_checkLock, grows_refl|intros _].
    apply Hbind; [|intros _; by apply Hlock, Hin].
    intros s. by apply grows_same.
  - apply Hbind; [apply preserves_checkLock, grows_refl|intros _].
    apply Hbind; [by apply Hdata|intros _]. by apply Hlock, Hin.
Qed.

Lemma isLocked_new dev frames P : isLocked P (new dev frames) = inherited P.
Proof. by destruct dev. Qed.

Lemma configured_eagerOnly dev frames s :
  configured dev frames s →
  ∀ Q, isLocked Q s = true → Q ∈ eagerPhases ∨ inherited Q = true.
Proof.
  intros Hc.
  cut (grows (new dev frames) s).
  { intros Hg Q HQ. destruct (Hg (new_tameTable _ _)) as [_ Hl].
    destruct (Hl Q HQ) as [Hn|]; [|by left].
    right. by rewrite isLocked_new in Hn. }
  induction Hc as [|s s' fuel c _ IH Hc H|s s' fuel c e _ IH Hc H].
  - apply grows_refl.
  - eapply grows_trans; [exact IH|].
    by eapply preserves_returns; [apply call_grows|exact H].
  - eapply grows_trans; [exact IH|].
    by eapply preserves_throws; [apply call_grows|exact H].
Qed.

Lemma sourcedBuilder_configured : configured false "" sourcedBuilder.
Proof.
  apply (configured_returns _ _ orderedBuilder _ 1
           (call_from (Some (Known (sql.identifier [Name "users"])))
              (Alias (sql.identifier [Name "u"]))));
    [|by right|by vm_compute].
  apply (configured_returns _ _ limitedBuilder _ 1
           (call_orderBy (Known (sql.identifier [Name "id"])) true));
    [|left; constructor|by vm_compute].
  apply (configured_returns _ _ (new false "") _ 1 (call_limit (ofZ (-3))));
    [apply configured_new|by right|by vm_compute].
Qed.

(** X11.  The accumulating mutators never fail while a builder is being
    configured: in every state reached from [new QueryBuilder()] by mutator
    calls (whose callbacks only configure), in any order and number,
    [select], [selectCursor], [where], [whereBound] with a boolean,
    [orderBy], [setOrderIsUnique], and [beforeLock] on a name that no
    mutator locks and that is not inherited from [Object.prototype], return;
    and the state they leave is such a state again. *)
Theorem accumulating_mutators_return dev frames fuel c s :
  configured dev frames s →
  accumulating c →
  ∃ s', call (lock fuel) c s = Returns tt s' ∧ configured dev frames s'.
Proof.
  intros Hs Hc.
  pose proof (configured_eagerOnly _ _ _ Hs) as Hopen.
  assert (Hnot : ∀ P, P ∉ eagerPhases → inherited P = false →
                      isLocked P s = false).
  { intros P HP Hi. destruct (isLocked P s) eqn:E; [|done].
    destruct (Hopen P E) as [Hin|Hin]; [by destruct HP|congruence]. }
  assert (Hstr : ∀ P, bool_decide (P ∈ eagerPhases) = false →
                      inherited P = false → isLocked P s = false).
  { intros P HP. apply bool_decide_eq_false in HP. by apply Hnot. }
  assert (Htame : tameCall c).
  { destruct c as [field [| |body]| | | | | | |g [b|]| | | | | | | | | | | | | | | | |];
      try done; try constructor. by destruct Hc as (_ & _ & Hc). }
  cut (∃ s', call (lock fuel) c s = Returns tt s').
  { intros (s' & H). exists s'. split; [done|].
    apply (configured_returns _ _ s s' fuel c); [done|by left|done]. }
  destruct c as [field [| |body]| | | | | | |g [b|]| | | | | | | | | | | | | | | | |];
    try done; simpl;
    unfold beforeLock, select, selectCursor, where_, whereBound, orderBy,
      setOrderIsUnique;
    rewrite ?bind_unfold, ?checkLock_unfold.
  - destruct Hc as (Hf & Hi & _). rewrite (Hnot _ Hf Hi). by eexists.
  - rewrite (Hstr "select") by done. by eexists.
  - rewrite (Hstr "selectCursor") by done. by eexists.
  - rewrite (Hstr "where") by done. by eexists.
  - rewrite (Hstr "whereBound") by done. by eexists.
  - by eexists.
  - rewrite (Hstr "orderBy") by done. by eexists.
Qed.

Lemma accumulating_mutators_return_witness :
  ∃ s',
    call (lock 0) (call_where (Known (sql.literal (Boolean true))))
      sourcedBuilder = Returns tt s'
    ∧ configured false "" s'.
Proof.
  apply (accumulating_mutators_return false "" 0
           (call_where (Known (sql.literal (Boolean true)))) sourcedBuilder).
  - exact sourcedBuilder_configured.
  - exact I.
Defined.

(** ** Building from a source *)

(** A builder with no callback but those of the constructor, whose source
    is locked and compiled. *)
Definition ready (s : State) : Prop :=
  (∀ P, callbacksOf P s = hooksOf P)
  ∧ isLocked "from" s = true
  ∧ compiledData.from (compiledData s) ≠ None.

Lemma ready_same s s' :
  data.beforeLock (data s') = data.beforeLock (data s) →
  (∀ P, isLocked P s = true → isLocked P s' = true) →
  compiledData.from (compiledData s') = compiledData.from (compiledData s) →
  ready s → ready s'.
Proof.
  intros Hb Hl Hf (Hcb & Hfrom & Hsrc). split; [|split].
  - intros P. unfold callbacksOf. rewrite Hb. apply Hcb.
  - by apply Hl.
  - by rewrite Hf.
Qed.

Lemma ready_marked P s : ready s → ready (marked P s).
Proof.
  apply ready_same; [done| |done].
  intros Q HQ. rewrite isLocked_marked. by destruct (decide _).
Qed.

Lemma getTableAlias_ready fuel s :
  ready s → ∃ a, getTableAlias (lock fuel) s = Returns a s.
Proof.
  intros (_ & Hfrom & Hsrc). unfold getTableAlias.
  rewrite bind_unfold, lock_locked by done. rewrite gets_bind.
  destruct (compiledData.from (compiledData s)) as [src|]; [|done].
  by eexists.
Qed.

Lemma callIfNecessary_ready fuel g s :
  ready s → ∃ q, callIfNecessary (lock fuel) g s = Returns q s.
Proof.
  intros Hs. destruct g as [q|q|k]; simpl; [by eexists..|].
  destruct (getTableAlias_ready fuel s Hs) as [a Ha].
  rewrite (bind_eq_returns _ _ _ _ _ Ha). by eexists.
Qed.

Lemma callIfNecessaryArray_ready fuel l s :
  ready s → ∃ r, callIfNecessaryArray (lock fuel) l s = Returns r s.
Proof.
  intros Hs. unfold callIfNecessaryArray.
  induction l as [|g l [r IH]]; simpl; [by eexists|].
  destruct (callIfNecessary_ready fuel g s Hs) as [q Hq].
  rewrite (bind_eq_returns _ _ _ _ _ Hq), (bind_eq_returns _ _ _ _ _ IH).
  by eexists.
Qed.

Lemma mapArray_pair_ready {B} fuel (l : list (SQLGen * B)) s :
  ready s →
  ∃ r, mapArray (λ '(a, b), a' ← callIfNecessary (lock fuel) a; ret (a', b))
         l s = Returns r s.
Proof.
  intros Hs. induction l as [|[g b] l [r IH]]; simpl; [by eexists|].
  destruct (callIfNecessary_ready fuel g s Hs) as [q Hq].
  assert (Hpair : (a' ← callIfNecessary (lock fuel) g; ret (a', b)) s =
                  Returns (q, b) s)
    by (by rewrite (bind_eq_returns _ _ _ _ _ Hq)).
  rewrite (bind_eq_returns _ _ _ _ _ Hpair), (bind_eq_returns _ _ _ _ _ IH).
  by eexists.
Qed.

Lemma compile_ready fuel P s :
  ready s →
  P ∈ knownPhases →
  P ≠ "from" →
  ∃ c', compile (lock fuel) P s = Returns tt (set_compiledData c' s)
        ∧ compiledData.from c' = compiledData.from (compiledData s).
Proof.
  intros Hs HP Hne. unfold compile. rewrite gets_bind.
  unfold knownPhases in HP.
  repeat (apply elem_of_cons in HP as [->|HP]);
    [..|by apply elem_of_nil in HP]; try done; cbn [String.eqb Ascii.eqb
      Bool.eqb].
  - by exists (compiledData s); destruct s.
  - destruct (callIfNecessaryArray_ready fuel
                (data.whereBound_lower (data s)) s Hs) as [lower Hlow].
    rewrite (bind_eq_returns _ _ _ _ _ Hlow).
    rewrite bind_unfold. cbn [update_compiled modify]. rewrite gets_bind.
    set (s1 := set_compiledData _ s).
    assert (Hs1 : ready s1) by (revert Hs; by apply ready_same).
    destruct (callIfNecessaryArray_ready fuel
                (data.whereBound_upper (data s1)) s1 Hs1) as [upper Hup].
    rewrite (bind_eq_returns _ _ _ _ _ Hup).
    by eexists.
  - destruct (mapArray_pair_ready fuel (data.select (data s)) s Hs) as [r Hr].
    rewrite (bind_eq_returns _ _ _ _ _ Hr). by eexists.
  - destruct (mapArray_pair_ready fuel (data.orderBy (data s)) s Hs) as [r Hr].
    rewrite (bind_eq_returns _ _ _ _ _ Hr). by eexists.
  - destruct (callIfNecessaryArray_ready fuel (data.join (data s)) s Hs)
      as [r Hr].
    rewrite (bind_eq_returns _ _ _ _ _ Hr). by eexists.
  - destruct (callIfNecessaryArray_ready fuel (data.where_ (data s)) s Hs)
      as [r Hr].
    rewrite (bind_eq_returns _ _ _ _ _ Hr). by eexists.
  - destruct (data.selectCursor (data s)) as [g|].
    + destruct (callIfNecessary_ready fuel g s Hs) as [q Hq].
      assert (Hsome : (c ← callIfNecessary (lock fuel) g; ret (Some c)) s =
                      Returns (Some q) s)
        by (by rewrite (bind_eq_returns _ _ _ _ _ Hq)).
      rewrite (bind_eq_returns _ _ _ _ _ Hsome). by eexists.
    + rewrite ret_bind. by eexists.
  - by eexists.
  - by eexists.
  - by eexists.
  - by eexists.
  - by eexists.
Qed.

Lemma runBeforeLock_none fuel P i s :
  callbacksOf P s !! i = None → runBeforeLock fuel P i s = Returns tt s.
Proof. intros H. destruct fuel; simpl; by rewrite H. Qed.

Lemma lock_plain_ready f P s :
  ready s →
  hooksOf P = [] →
  P ∈ knownPhases →
  ∃ s', lock (S f) P s = Returns tt s'
        ∧ ready s'
        ∧ data s' = data s
        ∧ ∀ Q, isLocked Q s' = if decide (P = Q) then true else isLocked Q s.
Proof.
  intros Hs Hh HP. destruct (isLocked P s) eqn:E.
  - exists s. rewrite lock_locked by done.
    split; [done|]. split; [done|]. split; [done|].
    intros Q. destruct (decide (P = Q)) as [<-|]; [exact E|done].
  - assert (Hne : P ≠ "from").
    { intros ->. destruct Hs as (_ & Hfrom & _). congruence. }
    destruct (compile_ready f P (marked P s) (ready_marked P s Hs) HP Hne)
      as (c' & Hc & Hfrom).
    exists (set_compiledData c' (marked P s)).
    split; [|split; [|split]].
    + assert (Hnone : callbacksOf P s !! 0 = None).
      { destruct Hs as (Hcb & _). by rewrite Hcb, Hh. }
      rewrite lock_unfold, E.
      rewrite (bind_eq_returns _ _ _ _ _ (runBeforeLock_none f P 0 s Hnone)).
      by rewrite (bind_eq_returns _ _ _ _ _ (setLock_unfold P s)).
    + revert Hs. apply ready_same; [done| |done].
      intros Q HQ. change (isLocked Q (marked P s) = true).
      rewrite isLocked_marked. by destruct (decide _).
    + done.
    + intros Q. by rewrite <- (isLocked_marked P Q s).
Qed.

Lemma lock_where_ready f s :
  ready s →
  ∃ s', lock (S (S (S f))) "where" s = Returns tt s' ∧ ready s'.
Proof.
  intros Hs. destruct (isLocked "where" s) eqn:E.
  { exists s. by rewrite lock_locked. }
  set (sr := set_history (history s ++ [Fired "where" 0]) s).
  assert (Hsr : ready sr) by (revert Hs; by apply ready_same).
  destruct (lock_plain_ready f "whereBound" sr Hsr) as (sb & Hb & Hsb & _ & _);
    [done|unfold knownPhases; by repeat constructor|].
  assert (Hrun : runBeforeLock (S (S f)) "where" 0 s = Returns tt sb).
  { rewrite runBeforeLock_unfold. destruct Hs as (Hcb & _).
    rewrite (Hcb "where"). cbn [hooksOf String.eqb Ascii.eqb Bool.eqb lookup
      list_lookup].
    rewrite bind_unfold. cbn [record modify]. fold sr.
    change (invoke (lock (S f)) whereBoundHook) with (lock (S f) "whereBound").
    rewrite (bind_eq_returns _ _ _ _ _ Hb).
    apply runBeforeLock_none. destruct Hsb as (Hcb' & _).
    by rewrite (Hcb' "where"). }
  destruct (compile_ready (S (S f)) "where" (marked "where" sb)
              (ready_marked _ _ Hsb)) as (c' & Hc & Hfrom);
    [unfold knownPhases; by repeat constructor|done|].
  exists (set_compiledData c' (marked "where" sb)). split.
  - rewrite lock_unfold, E, (bind_eq_returns _ _ _ _ _ Hrun).
    by rewrite (bind_eq_returns _ _ _ _ _ (setLock_unfold "where" sb)).
  - generalize (ready_marked "where" sb Hsb). by apply ready_same.
Qed.

Lemma lock_select_ready f s :
  ready s →
  ∃ s', lock (S (S (S f))) "select" s = Returns tt s' ∧ ready s'.
Proof.
  intros Hs. destruct (isLocked "select" s) eqn:E.
  { exists s. by rewrite lock_locked. }
  set (sr := set_history (history s ++ [Fired "select" 0]) s).
  assert (Hsr : ready sr) by (revert Hs; by apply ready_same).
  destruct (lock_plain_ready f "selectCursor" sr Hsr)
    as (sc & Hlock & Hsc & _ & Hlocks);
    [done|unfold knownPhases; by repeat constructor|].
  assert (Esel : isLocked "select" sc = false).
  { rewrite Hlocks. by rewrite decide_False. }
  assert (Hhook : ∃ sb, invoke (lock (S f)) selectCursorHook sr = Returns tt sb
                        ∧ ready sb).
  { cbn [invoke]. rewrite (bind_eq_returns _ _ _ _ _ Hlock), gets_bind.
    destruct (compiledData.selectCursor (compiledData sc)) as [c|].
    - unfold select. rewrite bind_unfold, checkLock_unfold, Esel.
      eexists. split; [reflexivity|]. revert Hsc. by apply ready_same.
    - by exists sc. }
  destruct Hhook as (sb & Hhook & Hsb).
  assert (Hrun : runBeforeLock (S (S f)) "select" 0 s = Returns tt sb).
  { rewrite runBeforeLock_unfold. destruct Hs as (Hcb & _).
    rewrite (Hcb "select"). cbn [hooksOf String.eqb Ascii.eqb Bool.eqb lookup
      list_lookup].
    rewrite bind_unfold. cbn [record modify]. fold sr.
    rewrite (bind_eq_returns _ _ _ _ _ Hhook).
    apply runBeforeLock_none. destruct Hsb as (Hcb' & _).
    by rewrite (Hcb' "select"). }
  destruct (compile_ready (S (S f)) "select" (marked "select" sb)
              (ready_marked _ _ Hsb)) as (c' & Hc & Hfrom);
    [unfold knownPhases; by repeat constructor|done|].
  exists (set_compiledData c' (marked "select" sb)). split.
  - rewrite lock_unfold, E, (bind_eq_returns _ _ _ _ _ Hrun).
    by rewrite (bind_eq_returns _ _ _ _ _ (setLock_unfold "select" sb)).
  - generalize (ready_marked "select" sb Hsb). by apply ready_same.
Qed.

Lemma lock_ready f P s :
  ready s →
  P ∈ knownPhases →
  ∃ s', lock (S (S (S f))) P s = Returns tt s' ∧ ready s'.
Proof.
  intros Hs HP.
  destruct (decide (P = "where")) as [->|Hw]; [by apply lock_where_ready|].
  destruct (decide (P = "select")) as [->|Hsel]; [by apply lock_select_ready|].
  destruct (lock_plain_ready (S (S f)) P s Hs) as (s' & H & Hs' & _); [|done|].
  - unfold hooksOf.
    by rewrite (proj2 (String.eqb_neq _ _) Hsel),
               (proj2 (String.eqb_neq _ _) Hw).
  - by exists s'.
Qed.

Lemma forEach_lock_ready f l : ∀ s,
  ready s →
  Forall (λ P, P ∈ knownPhases) l →
  ∃ s', forEach (lock (S (S (S f)))) l s = Returns tt s' ∧ ready s'.
Proof.
  induction l as [|P l IH]; intros s Hs Hl; simpl.
  - by exists s.
  - apply Forall_cons in Hl as [HP Hl].
    destruct (lock_ready f P s Hs HP) as (s1 & H1 & Hs1).
    destruct (IH s1 Hs1 Hl) as (s' & H' & Hs').
    exists s'. by rewrite (bind_eq_returns _ _ _ _ _ H1).
Qed.

Lemma lockEverything_ready f s :
  ready s →
  ∃ s', lockEverything (lock (S (S (S f)))) s = Returns tt s' ∧ ready s'.
Proof.
  intros Hs. rewrite lockEverything_forEach.
  assert (Hf : ready (set_finalized true s))
    by (revert Hs; by apply ready_same).
  destruct (forEach_lock_ready f lockedByLockEverything _ Hf) as (s' & H & Hs').
  - unfold lockedByLockEverything, knownPhases.
    repeat constructor; apply (bool_decide_unpack _); by vm_compute.
  - by exists s'.
Qed.

Lemma getTableAlias_sourced fuel s :
  settled s →
  compiledData.from (compiledData s) ≠ None →
  ∃ a, getTableAlias (lock fuel) s = Returns a s.
Proof.
  intros H Hfrom. rewrite getTableAlias_settled by done.
  destruct (compiledData.from (compiledData s)); [by eexists|done].
Qed.

Lemma buildSelectJson_sourced fuel nullCase s :
  settled s →
  compiledData.from (compiledData s) ≠ None →
  ∃ r, buildSelectJson (lock fuel) nullCase s = Returns r s.
Proof.
  intros H Hfrom. destruct (getTableAlias_sourced fuel s H Hfrom) as [a Ha].
  unfold buildSelectJson.
  rewrite (bind_eq_returns _ _ _ _ _ (lockEverything_settled fuel s H)).
  rewrite gets_bind.
  destruct (bool_decide _).
  - rewrite ret_bind. destruct nullCase; [|by eexists].
    rewrite (bind_eq_returns _ _ _ _ _ Ha). by eexists.
  - assert (Hobj :
      (a ← getTableAlias (lock fuel);
       ret (sql.fragment ["to_json("; ".*)"] [sql.value a])) s =
      Returns (sql.fragment ["to_json("; ".*)"] [sql.value a]) s)
      by (by rewrite (bind_eq_returns _ _ _ _ _ Ha)).
    rewrite (bind_eq_returns _ _ _ _ _ Hobj). destruct nullCase; [|by eexists].
    rewrite (bind_eq_returns _ _ _ _ _ Ha). by eexists.
Qed.

Lemma buildWhereClause_sourced fuel (nullCase : bool) s :
  settled s →
  compiledData.from (compiledData s) ≠ None →
  ∃ r, buildWhereClause (lock fuel) true true nullCase s = Returns r s.
Proof.
  intros H Hfrom. destruct (getTableAlias_sourced fuel s H Hfrom) as [a Ha].
  pose proof H as H'. settle H'.
  unfold buildWhereClause. step_locked.
  assert (Hguard : ∃ g,
    (if nullCase
     then a ← getTableAlias (lock fuel);
          ret [sql.fragment ["not ("; " is null)"] [sql.value a]]
     else ret []) s = Returns g s).
  { destruct nullCase; [|by eexists].
    rewrite (bind_eq_returns _ _ _ _ _ Ha). by eexists. }
  destruct Hguard as [g Hg].
  rewrite (bind_eq_returns _ _ _ _ _ Hg), gets_bind.
  rewrite !bind_unfold, !buildWhereBoundClause_settled by done. simpl.
  rewrite !bind_unfold, !buildWhereBoundClause_settled by done. simpl.
  destruct (bool_decide _); by eexists.
Qed.

(** The FROM clause of a builder with a compiled source. *)
Definition fromClause (c : compiledData.t) : option Slot :=
  (λ src, sql.value (sql.fragment ["from "; " as "; ""]
                       [sql.value src.1; sql.value src.2]))
    <$> compiledData.from c.

Lemma build_sourced fuel options s :
  settled s →
  compiledData.from (compiledData s) ≠ None →
  ∃ r s',
    build (lock fuel) options s = Returns r s'
    ∧ (onlyJsonField options = false →
       ∃ statement flipAlias aggAlias,
         r = assembled (asJsonAggregate options) (compiledData s')
               flipAlias aggAlias statement
         ∧ clauseAt 1 statement = fromClause (compiledData s')).
Proof.
  intros H Hfrom. unfold build.
  rewrite (bind_eq_returns _ _ _ _ _ (lockEverything_settled fuel s H)).
  destruct options as [json aggregate only nullCase]. cbn [onlyJsonField
    asJson asJsonAggregate addNullCase].
  destruct (buildSelectJson_sourced fuel nullCase s H Hfrom) as [rj Hj].
  destruct (buildSelectFields_settled fuel s H) as [rf Hf].
  destruct (buildWhereClause_sourced fuel nullCase s H Hfrom) as [rw Hw].
  pose proof (getTableAlias_settled fuel s H) as Ha.
  destruct only; [by exists rj, s|].
  assert (Hfields : ∃ fields,
    (if json || aggregate
     then j ← buildSelectJson (lock fuel) nullCase;
          ret (sql.fragment [""; " as object"] [sql.value j])
     else buildSelectFields (lock fuel)) s = Returns fields s).
  { destruct (json || aggregate); [|by eexists].
    rewrite (bind_eq_returns _ _ _ _ _ Hj). by eexists. }
  destruct Hfields as [fields Hfields].
  rewrite (bind_eq_returns _ _ _ _ _ Hfields), gets_bind.
  unfold fromClause.
  destruct (compiledData.from (compiledData s)) as [src|] eqn:Esrc; [|done].
  assert (Hslot :
    (a ← getTableAlias (lock fuel);
     ret (sql.value (sql.fragment ["from "; " as "; ""]
                       [sql.value src.1; sql.value a]))) s =
    Returns (sql.value (sql.fragment ["from "; " as "; ""]
                          [sql.value src.1; sql.value src.2])) s)
    by (by rewrite (bind_eq_returns _ _ _ _ _ Ha)).
  rewrite (bind_eq_returns _ _ _ _ _ Hslot).
  rewrite gets_bind, (bind_eq_returns _ _ _ _ _ Hw), gets_bind.
  cbv zeta. unfold assembled.
  set (statement :=
    selectStatement fields
      (sql.value (sql.fragment ["from "; " as "; ""]
                    [sql.value src.1; sql.value src.2]))
      (joinSlot (compiledData s)) rw (compiledData s)).
  destruct (compiledData.flip (compiledData s)) eqn:Ef; destruct aggregate;
    rewrite ?bind_unfold;
    (eexists _, _; split; [reflexivity|]; intros _);
    [ exists statement, (Sym (symbols s)), (Sym (S (symbols s)))
    | exists statement, (Sym (symbols s)), (Sym 0)
    | exists statement, (Sym 0), (Sym (symbols s))
    | exists statement, (Sym 0), (Sym 0) ];
    cbn [compiledData set_symbols]; rewrite Ef, Esrc; by split.
Qed.

(** X12.  A builder with a source builds: in every state a builder reaches
    in which no callback but those of the constructor is registered and the
    source is locked and compiled ([from] has returned), [build] returns a
    statement, whatever its options and whatever draft was configured,
    within three nested calls of [lock]; the source is as it was, and
    outside the only-JSON mode the FROM clause of the statement is
    [from <compiled source> as <alias>]. *)
Theorem build_returns_with_a_source dev frames s options :
  reaches (new dev frames) s →
  ready s →
  ∃ r s',
    build (lock 3) options s = Returns r s'
    ∧ compiledData.from (compiledData s') = compiledData.from (compiledData s)
    ∧ (onlyJsonField options = false →
       ∃ statement flipAlias aggAlias,
         r = assembled (asJsonAggregate options) (compiledData s')
               flipAlias aggAlias statement
         ∧ clauseAt 1 statement = fromClause (compiledData s')).
Proof.
  intros Hr Hs.
  destruct (lockEverything_ready 0 s Hs) as (s1 & Hle & (_ & _ & Hsrc)).
  pose proof (lockEverything_settles _ _ _ _ _ Hr Hle) as Hset.
  rewrite (build_after_lockEverything _ _ _ _ Hle Hset).
  destruct (build_sourced 3 options s1 Hset Hsrc) as (r & s' & Hb & Hst).
  exists r, s'. split; [done|]. split; [|done].
  assert (Hr' : reaches s s').
  { apply (reaches_returns _ s s' 3 (call_build options)); [apply reaches_here|].
    change (call (lock 3) (call_build options) s)
      with ((build (lock 3) options;; ret tt) s).
    rewrite bind_unfold, (build_after_lockEverything _ _ _ _ Hle Hset).
    by rewrite Hb. }
  apply (evolves_frozen "from" _ _ (reaches_evolves _ _ Hr')); [|done].
  by destruct Hs as (_ & Hl & _).
Qed.

Lemma reaches_forEach fuel body : ∀ s s',
  forEach (call (lock fuel)) body s = Returns tt s' → reaches s s'.
Proof.
  induction body as [|c body IH]; intros s s' H; simpl in H.
  - injection H as <-. apply reaches_here.
  - apply bind_returns in H as ([] & s1 & H1 & H).
    eapply reaches_trans; [|by apply IH].
    by apply (reaches_returns _ s s1 fuel c); [apply reaches_here|].
Qed.

Lemma lazyBuilder_ready : reaches (new false "") lazyBuilder ∧ ready lazyBuilder.
Proof.
  split.
  - apply (reaches_forEach 1
             [call_where (DeferredOnAlias
                            (λ a, sql.fragment [""; ".id > 0"] [sql.value a]));
              call_selectCursor (Known (sql.identifier [Name "id"]));
              call_select (Known (sql.identifier [Name "name"])) (Name "name");
              call_from (Some (Known (sql.identifier [Name "users"])))
                (Alias (sql.identifier [Name "u"]))]).
    by vm_compute.
  - split; [|split; [reflexivity|done]].
    intros P. unfold callbacksOf.
    change (data.beforeLock (data lazyBuilder))
      with (<["where" := [whereBoundHook]]>
              (<["select" := [selectCursorHook]]> (∅ : gmap string (list Callback)))).
    unfold hooksOf.
    destruct (String.eqb_spec P "select") as [->|Hs]; [reflexivity|].
    destruct (String.eqb_spec P "where") as [->|Hw]; [reflexivity|].
    rewrite !lookup_insert_ne by done. by rewrite lookup_empty.
Qed.

Lemma build_returns_with_a_source_witness :
  ∃ r s',
    build (lock 3)
      {| asJson := false; asJsonAggregate := true;
         onlyJsonField := false; addNullCase := true |}
      lazyBuilder = Returns r s'
    ∧ compiledData.from (compiledData s') =
        Some (sql.identifier [Name "users"], sql.identifier [Name "u"]).
Proof.
  destruct (build_returns_with_a_source false "" lazyBuilder
              {| asJson := false; asJsonAggregate := true;
                 onlyJsonField := false; addNullCase := true |}
              (proj1 lazyBuilder_ready) (proj2 lazyBuilder_ready))
    as (r & s' & H & Hfrom & _).
  exists r, s'. split; [exact H|]. rewrite Hfrom. reflexivity.
Defined.

(** ** A lock that fails *)

Lemma bind_throws {A B} (m : M A) (k : A → M B) s e s' :
  (m ≫= k) s = Throws e s' →
  m s = Throws e s' ∨ ∃ a s1, m s = Returns a s1 ∧ k a s1 = Throws e s'.
Proof.
  rewrite bind_unfold. intros H.
  destruct (m s) as [a s1|e1 s1|]; [right; by exists a, s1| |done].
  injection H as <- <-. by left.
Qed.

Lemma callIfNecessary_evolves fuel g :
  preserves evolves (callIfNecessary (lock fuel) g).
Proof. apply callIfNecessary_evolvesBut, lock_evolves. Qed.

(** The compilation of a phase writes nothing before it has resolved
    everything (the two bounds are written one after the other). *)
Lemma compile_throws fuel P s e s' :
  P ≠ "whereBound" →
  compile (lock fuel) P s = Throws e s' →
  evolves s s'.
Proof.
  intros Hne H. unfold compile in H. rewrite gets_bind in H.
  pose proof (λ A B, @preserves_mapArray evolves (evolvesBut_refl None)
                       (evolvesBut_trans None) A B) as Hmap.
  assert (Hpair : ∀ B (l : list (SQLGen * B)),
    preserves evolves
      (mapArray (λ '(a, b), a' ← callIfNecessary (lock fuel) a; ret (a', b)) l)).
  { intros B l. apply Hmap. intros [a b].
    apply preserves_bind; [apply evolvesBut_trans| |].
    - apply callIfNecessary_evolves.
    - intros. apply preserves_ret, evolvesBut_refl. }
  assert (Harr : ∀ l, preserves evolves (callIfNecessaryArray (lock fuel) l)).
  { intros l. apply Hmap. intros. apply callIfNecessary_evolves. }
  repeat match type of H with
         | context [String.eqb P ?x] =>
             destruct (String.eqb_spec P x) as [->|?]
         end; try done.
  - apply bind_throws in H as [H|(c & s1 & _ & H)]; [|done].
    by eapply preserves_throws; [apply Hpair|].
  - apply bind_throws in H as [H|(c & s1 & _ & H)]; [|done].
    by eapply preserves_throws; [apply Hpair|].
  - destruct (data.from (data s)) as [f|]; [|done].
    apply bind_throws in H as [H|(c & s1 & _ & H)]; [|done].
    by eapply preserves_throws; [apply callIfNecessary_evolves|].
  - apply bind_throws in H as [H|(c & s1 & _ & H)]; [|done].
    by eapply preserves_throws; [apply Harr|].
  - apply bind_throws in H as [H|(c & s1 & _ & H)]; [|done].
    by eapply preserves_throws; [apply Harr|].
  - apply bind_throws in H as [H|(c & s1 & _ & H)]; [|done].
    destruct (data.selectCursor (data s)) as [g|]; [|done].
    apply bind_throws in H as [H|(c & s1 & _ & H)]; [|done].
    by eapply preserves_throws; [apply callIfNecessary_evolves|].
  - injection H as _ <-. apply evolvesBut_refl.
Qed.

(** X13.  [lock] is not undone by a failure: when the callbacks of an open
    phase have returned and [lock] then throws while it resolves the draft
    (a producer throws, or the name has no branch), the phase is locked all
    the same, its compiled fields are what they were before the call, and
    every later [lock] of it returns without compiling anything. (The two
    bounds of "whereBound" are written one after the other and are left
    out.) *)
Theorem failed_lock_stays_locked fuel P s s1 e s' :
  isLocked P s = false →
  P ≠ "whereBound" →
  runBeforeLock fuel P 0 s = Returns tt s1 →
  lock (S fuel) P s = Throws e s' →
  isLocked P s' = true
  ∧ frozen P (compiledData s1) (compiledData s')
  ∧ ∀ fuel', lock fuel' P s' = Returns tt s'.
Proof.
  intros E Hne Hrun H. rewrite lock_unfold, E in H.
  rewrite (bind_eq_returns _ _ _ _ _ Hrun) in H.
  rewrite (bind_eq_returns _ _ _ _ _ (setLock_unfold P s1)) in H.
  apply compile_throws in H; [|done].
  assert (Hm : isLocked P (marked P s1) = true).
  { rewrite isLocked_marked. by rewrite decide_True. }
  assert (Hl : isLocked P s' = true) by by apply (ev_locks _ _ _ H).
  split; [done|]. split; [|intros; by apply lock_locked].
  by apply (evolves_frozen P _ _ H).
Qed.

Lemma failed_lock_stays_locked_witness :
  lock 3 "where" orphanBuilder = Throws NoFromTable failedBuilder
  ∧ isLocked "where" failedBuilder = true
  ∧ frozen "where" (compiledData hookedBuilder) (compiledData failedBuilder)
  ∧ buildWhereClause (lock 0) false false false failedBuilder =
      Returns (sql.fragment ["1 = 1"] []) failedBuilder.
Proof.
  assert (H : lock 3 "where" orphanBuilder = Throws NoFromTable failedBuilder)
    by (by vm_compute).
  split; [exact H|].
  destruct (failed_lock_stays_locked 2 "where" orphanBuilder hookedBuilder
              NoFromTable failedBuilder) as (Hl & Hf & _).
  - reflexivity.
  - done.
  - by vm_compute.
  - exact H.
  - split; [exact Hl|]. split; [exact Hf|]. by vm_compute.
Defined.

(** ** Nothing is compiled before its lock *)

(** [unwritten s s']: locks are kept, and the compiled fields of the phases
    that are open in [s'] are those of [s]. *)
Definition unwritten (s s' : State) : Prop :=
  (∀ P, isLocked P s = true → isLocked P s' = true)
  ∧ ∀ Q, isLocked Q s' = false → frozen Q (compiledData s) (compiledData s').

Lemma unwritten_refl s : unwritten s s.
Proof. split; [done|]. intros. apply frozen_refl. Qed.

Lemma unwritten_trans s1 s2 s3 :
  unwritten s1 s2 → unwritten s2 s3 → unwritten s1 s3.
Proof.
  intros [L12 F12] [L23 F23]. split; [auto|]. intros Q HQ.
  eapply frozen_trans; [|by apply F23]. apply F12.
  destruct (isLocked Q s2) eqn:E; [|done]. rewrite (L23 Q E) in HQ. done.
Qed.

Lemma unwritten_same s s' :
  (∀ P, isLocked P s = true → isLocked P s' = true) →
  compiledData s' = compiledData s →
  unwritten s s'.
Proof. intros Hl Hc. split; [done|]. intros. rewrite Hc. apply frozen_refl. Qed.

Lemma unwritten_write T f s :
  isLocked T s = true →
  (∀ Q c, Q ≠ T → frozen Q c (f c)) →
  unwritten s (set_compiledData (f (compiledData s)) s).
Proof.
  intros HT Hf. split; [done|]. intros Q HQ. apply Hf. intros ->.
  change (isLocked T s = false) in HQ. congruence.
Qed.

Lemma unwritten_bind {A B} T (m : M A) (k : A → M B) s :
  after m s (unwritten s) →
  (∀ a s1, isLocked T s1 = true → after (k a) s1 (unwritten s1)) →
  isLocked T s = true →
  after (m ≫= k) s (unwritten s).
Proof.
  intros Hm Hk HT. unfold after in Hm. apply after_bind.
  - intros e s1 H. by rewrite H in Hm.
  - intros a s1 H. rewrite H in Hm.
    eapply after_mono; [intros s'; by apply unwritten_trans|].
    apply Hk. by apply Hm.
Qed.

Lemma compile_unwritten lock T :
  (∀ type, preserves unwritten (lock type)) →
  ∀ s, isLocked T s = true → after (compile lock T) s (unwritten s).
Proof.
  intros Hlock s HT.
  pose proof (preserves_callIfNecessary unwritten unwritten_refl
                unwritten_trans lock Hlock) as Hgen.
  pose proof (λ A B, @preserves_mapArray unwritten unwritten_refl
                       unwritten_trans A B) as Hmap.
  assert (Hpair : ∀ B (l : list (SQLGen * B)),
    preserves unwritten
      (mapArray (λ '(a, b), a' ← callIfNecessary lock a; ret (a', b)) l)).
  { intros B l. apply Hmap. intros [a b].
    apply preserves_bind; [apply unwritten_trans|done|].
    intros. apply preserves_ret, unwritten_refl. }
  assert (Hwrite : ∀ f s1,
    (∀ Q c, Q ≠ T → frozen Q c (f c)) →
    isLocked T s1 = true → after (update_compiled f) s1 (unwritten s1)).
  { intros f s1 Hf H1. by apply (unwritten_write T). }
  unfold compile. apply after_gets_bind.
  repeat match goal with
         | |- context [String.eqb T ?x] =>
             destruct (String.eqb_spec T x) as [->|?]
         end.
  - apply unwritten_refl.
  - apply (unwritten_bind "whereBound"); [by apply Hmap| |done].
    intros lower s1 H1.
    apply (unwritten_bind "whereBound"); [| |done].
    { apply Hwrite; [|done]. frozen_field. }
    intros [] s2 H2. apply after_gets_bind.
    apply (unwritten_bind "whereBound"); [by apply Hmap| |done].
    intros upper s3 H3. apply Hwrite; [|done]. frozen_field.
  - apply (unwritten_bind "select"); [apply Hpair| |done].
    intros r s1 H1. apply Hwrite; [|done]. frozen_field.
  - apply (unwritten_bind "orderBy"); [apply Hpair| |done].
    intros r s1 H1. apply Hwrite; [|done]. frozen_field.
  - destruct (data.from (data s)) as [f|]; [|apply unwritten_refl].
    apply (unwritten_bind "from"); [apply Hgen| |done].
    intros r s1 H1. apply Hwrite; [|done]. frozen_field.
  - apply (unwritten_bind "join"); [by apply Hmap| |done].
    intros r s1 H1. apply Hwrite; [|done]. frozen_field.
  - apply (unwritten_bind "where"); [by apply Hmap| |done].
    intros r s1 H1. apply Hwrite; [|done]. frozen_field.
  - apply (unwritten_bind "selectCursor"); [| |done].
    { destruct (data.selectCursor (data s)) as [g|].
      - apply preserves_bind; [apply unwritten_trans|apply Hgen|].
        intros. apply preserves_ret, unwritten_refl.
      - apply unwritten_refl. }
    intros r s1 H1. apply Hwrite; [|done]. frozen_field.
  - apply Hwrite; [|done]. frozen_field.
  - apply Hwrite; [|done]. frozen_field.
  - apply Hwrite; [|done]. frozen_field.
  - apply Hwrite; [|done]. frozen_field.
  - apply Hwrite; [|done]. frozen_field.
  - apply unwritten_refl.
Qed.

Lemma unwritten_data f s : unwritten s (set_data f s).
Proof. by apply unwritten_same. Qed.

Lemma unwritten_call lock c :
  (∀ type, preserves unwritten (lock type)) →
  preserves unwritten (call lock c).
Proof.
  intros Hlock.
  apply (guarded_call unwritten unwritten_refl unwritten_trans);
    [intros; apply unwritten_data..| | |done].
  - intros s. by apply unwritten_same.
  - intros s. by apply unwritten_same.
Qed.

Lemma unwritten_invoke lock fn :
  (∀ type, preserves unwritten (lock type)) →
  preserves unwritten (invoke lock fn).
Proof.
  intros Hlock.
  apply (guarded_invoke unwritten unwritten_refl unwritten_trans);
    [intros; apply unwritten_data..| | |done].
  - intros s. by apply unwritten_same.
  - intros s. by apply unwritten_same.
Qed.

Lemma unwritten_run fuel :
  (∀ type, preserves unwritten (lock fuel type))
  ∧ (∀ type i, preserves unwritten (runBeforeLock fuel type i)).
Proof.
  induction fuel as [|fuel [IHlock IHrun]].
  - split.
    + intros type s. unfold after. simpl.
      destruct (isLocked type s); [apply unwritten_refl|done].
    + intros type i s. unfold after. simpl.
      destruct (callbacksOf type s !! i); [done|apply unwritten_refl].
  - split.
    + intros type s. unfold after. rewrite lock_unfold.
      destruct (isLocked type s) eqn:E; [apply unwritten_refl|].
      apply after_bind.
      { intros e s1 H. eapply preserves_throws; [apply IHrun|exact H]. }
      intros [] s1 Hrun. apply after_bind; [done|].
      intros [] s2 [= <-].
      assert (Hm : unwritten s (marked type s1)).
      { eapply unwritten_trans.
        - eapply preserves_returns; [apply IHrun|exact Hrun].
        - apply unwritten_same; [|done]. intros P HP.
          rewrite isLocked_marked. by destruct (decide _). }
      eapply after_mono; [intros s'; by apply unwritten_trans|].
      apply compile_unwritten; [done|].
      rewrite isLocked_marked. by rewrite decide_True.
    + intros type i s. unfold after. rewrite runBeforeLock_unfold.
      destruct (callbacksOf type s !! i) as [fn|]; [|apply unwritten_refl].
      change (after (record (Fired type i);; invoke (lock fuel) fn;;
                     runBeforeLock fuel type (S i)) s (unwritten s)).
      revert s. apply preserves_bind; [apply unwritten_trans| |].
      * apply preserves_modify. intros. by apply unwritten_same.
      * intros _. apply preserves_bind; [apply unwritten_trans| |auto].
        by apply unwritten_invoke.
Qed.

Lemma reaches_unwritten s s' : reaches s s' → unwritten s s'.
Proof.
  assert (Hcall : ∀ fuel c, preserves unwritten (call (lock fuel) c)).
  { intros fuel c. apply unwritten_call, unwritten_run. }
  induction 1 as [|s1 s2 fuel c _ IH H|s1 s2 fuel c e _ IH H].
  - apply unwritten_refl.
  - eapply unwritten_trans; [exact IH|]. by eapply preserves_returns.
  - eapply unwritten_trans; [exact IH|]. by eapply preserves_throws.
Qed.

(** X16.  Nothing is compiled before its lock: in every state a builder
    reaches, the compiled fields of a phase that is not locked are the ones
    the constructor wrote: no select list, cursor, source, join, predicate,
    bound or ordering, no limit and offset, and the flags false. *)
Theorem open_phase_is_not_compiled dev frames s P :
  reaches (new dev frames) s →
  isLocked P s = false →
  frozen P emptyCompiledData (compiledData s).
Proof.
  intros Hr HP. destruct (reaches_unwritten _ _ Hr) as [_ Hf].
  replace emptyCompiledData with (compiledData (new dev frames))
    by (by destruct dev).
  by apply Hf.
Qed.

Lemma open_phase_is_not_compiled_witness :
  reaches (new false "") lazyBuilder
  ∧ frozen "where" emptyCompiledData (compiledData lazyBuilder).
Proof.
  split; [apply lazyBuilder_ready|].
  apply (open_phase_is_not_compiled false "" lazyBuilder "where");
    [apply lazyBuilder_ready|reflexivity].
Defined.

(** ** The order of configuration *)

(** The mutators but [beforeLock], and the phase each writes. *)
Definition mutatedPhase (c : Call) : option string :=
  match c with
  | call_setCursorComparator _ => Some "cursorComparator"
  | call_select _ _ => Some "select"
  | call_selectCursor _ => Some "selectCursor"
  | call_from _ _ => Some "from"
  | call_where _ => Some "where"
  | call_whereBound _ _ => Some "whereBound"
  | call_setOrderIsUnique => Some "orderIsUnique"
  | call_orderBy _ _ => Some "orderBy"
  | call_limit _ => Some "limit"
  | call_offset _ => Some "offset"
  | call_flip => Some "flip"
  | _ => None
  end.

(** No callback is registered but those of the constructor. *)
Definition bare (s : State) : Prop := ∀ P, callbacksOf P s = hooksOf P.

(** The builder after a write to the draft, and after a write followed by
    [lock(P)] where no callback is registered on [P]. *)
Definition written (f : data.t → data.t) (s : State) : State :=
  set_data (f (data s)) s.

Definition writtenAndLocked (P : string) (f : data.t → data.t)
    (g : compiledData.t → compiledData.t) (s : State) : State :=
  let s' := marked P (written f s) in
  set_compiledData (g (compiledData s')) s'.

(** What a mutator that returns makes of a builder with no callback but
    those of the constructor. *)
Definition applied (c : Call) (s : State) : option State :=
  let unlessLocked P s' := if isLocked P s then None else Some s' in
  match c with
  | call_setCursorComparator fn =>
      unlessLocked "cursorComparator"
        (writtenAndLocked "cursorComparator"
           (set_data.cursorComparator (Some fn)) id s)
  | call_select g a =>
      unlessLocked "select"
        (written (λ d, set_data.select (data.select d ++ [(g, a)]) d) s)
  | call_selectCursor g =>
      unlessLocked "selectCursor"
        (written (set_data.selectCursor (Some g)) s)
  | call_from (Some expr) alias =>
      let '(a, s0) :=
        match alias with
        | DefaultAlias =>
            (Some (sql.identifier [Sym (symbols s)]),
             set_symbols (S (symbols s)) s)
        | NullAlias => (None, s)
        | Alias a => (Some a, s)
        end in
      q ← match expr with
          | Known q | Deferred q => Some q
          | DeferredOnAlias k =>
              f ← compiledData.from (compiledData s); Some (k f.2)
          end;
      a ← a;
      unlessLocked "from"
        (writtenAndLocked "from" (set_data.from (Some (expr, a)))
           (set_compiled.from (Some (q, a))) s0)
  | call_where g =>
      unlessLocked "where"
        (written (λ d, set_data.where_ (data.where_ d ++ [g]) d) s)
  | call_whereBound g (Some true) =>
      unlessLocked "whereBound"
        (written (λ d, set_data.whereBound_lower
                         (data.whereBound_lower d ++ [g]) d) s)
  | call_whereBound g (Some false) =>
      unlessLocked "whereBound"
        (written (λ d, set_data.whereBound_upper
                         (data.whereBound_upper d ++ [g]) d) s)
  | call_setOrderIsUnique => Some (written (set_data.orderIsUnique true) s)
  | call_orderBy g ascending =>
      unlessLocked "orderBy"
        (written (λ d, set_data.orderBy (data.orderBy d ++ [(g, ascending)]) d)
           s)
  | call_limit n =>
      unlessLocked "limit"
        (writtenAndLocked "limit" (set_data.limit (Some (Math_max zero n)))
           (set_compiled.limit (Some (Math_max zero n))) s)
  | call_offset n =>
      unlessLocked "offset"
        (writtenAndLocked "offset" (set_data.offset (Some (Math_max zero n)))
           (set_compiled.offset (Some (Math_max zero n))) s)
  | call_flip =>
      unlessLocked "flip"
        (writtenAndLocked "flip" (set_data.flip true)
           (set_compiled.flip true) s)
  | _ => None
  end.

Lemma lock_bare f P s :
  callbacksOf P s = [] →
  isLocked P s = false →
  lock (S f) P s = compile (lock f) P (marked P s).
Proof.
  intros Hcb E. rewrite lock_unfold, E.
  assert (Hnone : callbacksOf P s !! 0 = None) by by rewrite Hcb.
  rewrite (bind_eq_returns _ _ _ _ _ (runBeforeLock_none f P 0 s Hnone)).
  by rewrite (bind_eq_returns _ _ _ _ _ (setLock_unfold P s)).
Qed.

Ltac normal_form :=
  match goal with
  | |- ?L = Returns () _ ↔ Some ?X = Some _ =>
      change L with (Returns tt X); split; intros [= <-]; reflexivity
  end.

Ltac open_phase P s :=
  rewrite bind_unfold, checkLock_unfold;
  destruct (isLocked P s) eqn:?; [done|].

Lemma from_open f expr a s s' :
  callbacksOf "from" s = [] →
  (checkLock "from";;
   match expr, a with
   | None, _ => throw NoFromSource
   | Some _, None => throw NoFromAlias
   | Some expr, Some alias =>
       update_data (set_data.from (Some (expr, alias)));;
       lock (S f) "from"
   end) s = Returns tt s' ↔
  (expr ← expr;
   q ← match expr with
       | Known q | Deferred q => Some q
       | DeferredOnAlias k =>
           f ← compiledData.from (compiledData s); Some (k f.2)
       end;
   a ← a;
   if isLocked "from" s then None
   else Some (writtenAndLocked "from" (set_data.from (Some (expr, a)))
                (set_compiled.from (Some (q, a))) s)) = Some s'.
Proof.
  intros Hcb. rewrite bind_unfold, checkLock_unfold.
  destruct expr as [expr|]; [|by destruct (isLocked "from" s)].
  destruct (isLocked "from" s) eqn:E.
  { split; [done|].
    by destruct expr as [q|q|k], a; simpl;
      try destruct (compiledData.from (compiledData s)). }
  destruct a as [a|]; [|split; [done|by destruct expr as [q|q|k]; simpl;
      try destruct (compiledData.from (compiledData s))]].
  rewrite bind_unfold. cbn [update_data modify].
  rewrite lock_bare; [|exact Hcb|done].
  destruct expr as [q|q|k]; [simpl; normal_form..|].
  set (st := marked "from" _).
  assert (Hst : isLocked "from" st = true).
  { unfold st. rewrite isLocked_marked. by destruct (decide _). }
  change (compile (lock f) "from" st)
    with ((f0 ← (a0 ← getTableAlias (lock f); ret (k a0));
           update_compiled (set_compiled.from (Some (f0, a)))) st).
  unfold getTableAlias. rewrite !bind_unfold, (lock_locked f "from" st Hst).
  rewrite bind_unfold. cbn [gets].
  change (compiledData.from (compiledData st))
    with (compiledData.from (compiledData s)).
  destruct (compiledData.from (compiledData s)) as [[q0 a0]|]; simpl;
    [normal_form|done].
Qed.

Lemma call_applied f c s s' :
  bare s →
  mutatedPhase c ≠ None →
  call (lock (S f)) c s = Returns tt s' ↔ applied c s = Some s'.
Proof.
  intros Hbare Hc.
  destruct c as [? ?|fn|? ?|g a|g|expr alias|g|g [[|]|]| |g asc|n|n| | | | |
                 | | | | | | | |];
    try done; cbn [call applied].
  - unfold setCursorComparator. open_phase "cursorComparator" s.
    rewrite bind_unfold. cbn [update_data modify].
    rewrite lock_bare; [|exact (Hbare "cursorComparator")|done]. normal_form.
  - unfold select. open_phase "select" s. normal_form.
  - unfold selectCursor. open_phase "selectCursor" s. normal_form.
  - destruct alias as [| |a].
    + exact (from_open f expr (Some (sql.identifier [Sym (symbols s)]))
               (set_symbols (S (symbols s)) s) s' (Hbare "from")).
    + exact (from_open f expr None s s' (Hbare "from")).
    + exact (from_open f expr (Some a) s s' (Hbare "from")).
  - unfold where_. open_phase "where" s. normal_form.
  - unfold whereBound. open_phase "whereBound" s. normal_form.
  - unfold whereBound. open_phase "whereBound" s. normal_form.
  - unfold setOrderIsUnique. normal_form.
  - unfold orderBy. open_phase "orderBy" s. normal_form.
  - unfold limit. open_phase "limit" s.
    rewrite bind_unfold. cbn [update_data modify].
    rewrite lock_bare; [|exact (Hbare "limit")|done]. normal_form.
  - unfold offset. open_phase "offset" s.
    rewrite bind_unfold. cbn [update_data modify].
    rewrite lock_bare; [|exact (Hbare "offset")|done]. normal_form.
  - unfold flip. open_phase "flip" s.
    rewrite bind_unfold. cbn [update_data modify].
    rewrite lock_bare; [|exact (Hbare "flip")|done]. normal_form.
Qed.

Lemma isLocked_writtenAndLocked P Q f g s :
  isLocked Q (writtenAndLocked P f g s) =
  if decide (P = Q) then true else isLocked Q s.
Proof. exact (isLocked_marked P Q (written f s)). Qed.

Lemma applied_bare c s s' : applied c s = Some s' → bare s → bare s'.
Proof.
  intros H Hbare P. rewrite <- (Hbare P). unfold callbacksOf. f_equal.
  destruct c as [? ?|fn|? ?|g a|g|[[q|q|k]|] [| |a]|g|g [[|]|]| |g asc|n|n
                 | | | | | | | | | | | | |];
    try done; cbn [applied] in H; simpl in H;
    repeat match type of H with
      | context [isLocked ?P ?s] => destruct (isLocked P s); [done|]
      | context [compiledData.from ?c] => destruct (compiledData.from c); [|done]
      end; simpl in H; try done; by injection H as <-.
Qed.

Lemma isLocked_written P f s : isLocked P (written f s) = isLocked P s.
Proof. reflexivity. Qed.

Lemma isLocked_set_symbols P n s : isLocked P (set_symbols n s) = isLocked P s.
Proof. reflexivity. Qed.

Ltac open_applied H :=
  cbn [applied] in H;
  rewrite ?isLocked_writtenAndLocked, ?isLocked_written,
    ?isLocked_set_symbols in H;
  simpl in H;
  repeat match type of H with
    | context [decide (?P = ?Q)] => destruct (decide (P = Q)); [done|]
    | context [isLocked ?P ?s] => destruct (isLocked P s) eqn:?; [done|]
    | context [compiledData.from ?c] =>
        destruct (compiledData.from c) eqn:?; [|done]
    end;
  simpl in H; try done; injection H as <-.

Ltac close_applied :=
  cbn [applied];
  rewrite ?isLocked_writtenAndLocked, ?isLocked_written,
    ?isLocked_set_symbols;
  simpl;
  repeat match goal with
    | |- context [decide (?P = ?Q)] => destruct (decide (P = Q)); [done|]
    | H : isLocked ?P ?s = false |- context [isLocked ?P ?s] => rewrite H
    | H : compiledData.from ?c = Some _ |- context [compiledData.from ?c] =>
        rewrite H
    end;
  simpl; reflexivity.

Lemma applied_commute c1 c2 s s1 s12 :
  mutatedPhase c1 ≠ mutatedPhase c2 →
  applied c1 s = Some s1 →
  applied c2 s1 = Some s12 →
  ∃ s2 s21,
    applied c2 s = Some s2 ∧ applied c1 s2 = Some s21 ∧ sameBuilder s12 s21.
Proof.
  intros Hne H1 H2.
  destruct c1 as [? ?|fn|? ?|g a|g|[[q|q|k]|] [| |a]|g|g [[|]|]| |g asc|n|n
                  | | | | | | | | | | | | |];
    try done;
    destruct c2 as [? ?|fn'|? ?|g' a'|g'|[[q'|q'|k']|] [| |a']|g'|g' [[|]|]|
                    |g' asc'|n'|n'| | | | | | | | | | | | |];
    try done.
  all: try (by destruct Hne).
  all: open_applied H1; open_applied H2.
  all: eexists _, _; split; [close_applied|split; [close_applied|]].
  all: repeat split; try reflexivity.
  all: simpl; try (unfold Error_stack; simpl; by apply insert_insert_ne).
Qed.

Lemma new_bare isDev frames : bare (new isDev frames).
Proof.
  intros P. unfold hooksOf.
  destruct (String.eqb_spec P "select") as [->|Hs]; [by destruct isDev|].
  destruct (String.eqb_spec P "where") as [->|Hw]; [by destruct isDev|].
  unfold callbacksOf.
  change (data.beforeLock (data (new isDev frames)))
    with (<["where" := [whereBoundHook]]>
            (<["select" := [selectCursorHook]]> (∅ : gmap string (list Callback)))).
  by rewrite !lookup_insert_ne, lookup_empty by done.
Qed.

(** X17.  On a builder that holds no callback but those of the constructor,
    two mutators of different phases can be called in either order: if
    calling the first and then the second returns, so does calling the
    second and then the first, and the locks, the finalized flag, the draft
    and the compiled data of the builder are the same afterwards. *)
Theorem mutators_of_different_phases_commute f c1 c2 s s1 s12 :
  bare s →
  mutatedPhase c1 ≠ None →
  mutatedPhase c2 ≠ None →
  mutatedPhase c1 ≠ mutatedPhase c2 →
  call (lock (S f)) c1 s = Returns tt s1 →
  call (lock (S f)) c2 s1 = Returns tt s12 →
  ∃ s2 s21,
    call (lock (S f)) c2 s = Returns tt s2
    ∧ call (lock (S f)) c1 s2 = Returns tt s21
    ∧ sameBuilder s12 s21.
Proof.
  intros Hbare Hc1 Hc2 Hne H1 H2.
  apply call_applied in H1; [|done..].
  apply call_applied in H2; [|by apply (applied_bare c1 s)|done].
  destruct (applied_commute c1 c2 s s1 s12 Hne H1 H2)
    as (s2 & s21 & H3 & H4 & Hsame).
  exists s2, s21. split; [by apply call_applied|].
  split; [|done]. apply call_applied; [by apply (applied_bare c2 s)|done..].
Qed.

(** A new builder after [from(sql.identifier("users"))]. *)
Definition fromBuilder : State :=
  Eval vm_compute in
    match
      from (lock 1) (Some (Known (sql.identifier [Name "users"]))) DefaultAlias
        (new false "")
    with
    | Returns _ s => s
    | _ => new false ""
    end.

(** [fromBuilder] after [select(sql.identifier("id"), "id")]. *)
Definition selectedAfterFrom : State :=
  Eval vm_compute in
    match
      select (Known (sql.identifier [Name "id"])) (Name "id") fromBuilder
    with
    | Returns _ s => s
    | _ => fromBuilder
    end.

Lemma mutators_of_different_phases_commute_witness :
  ∃ s2 s21,
    call (lock 1) (call_select (Known (sql.identifier [Name "id"])) (Name "id"))
      (new false "") = Returns tt s2
    ∧ call (lock 1)
        (call_from (Some (Known (sql.identifier [Name "users"]))) DefaultAlias)
        s2 = Returns tt s21
    ∧ sameBuilder selectedAfterFrom s21.
Proof.
  apply (mutators_of_different_phases_commute 0
           (call_from (Some (Known (sql.identifier [Name "users"]))) DefaultAlias)
           (call_select (Known (sql.identifier [Name "id"])) (Name "id"))
           (new false "") fromBuilder selectedAfterFrom).
  - apply new_bare.
  - done.
  - done.
  - done.
  - vm_compute. reflexivity.
  - vm_compute. reflexivity.
Defined.

(** C10, counterexample: a pre-lock callback of "limit" can lead to another
    [limit] call, whose value is the one that stays.  After
    [beforeLock("from", () => queryBuilder.lock("having"))], a
    [from(users, u)] that throws "Wasn't expecting to lock 'having'" (the
    source is in the draft, "from" is open),
    [beforeLock("from", () => queryBuilder.limit(7))],
    [beforeLock("limit", () => queryBuilder.lock("where"))] and
    [where(() => sql.fragment`${queryBuilder.getTableAlias()}.age > 18`)],
    the call [limit(5)] returns, and the draft and the compiled limit are 7:
    locking "where" evaluates the predicate, which locks "from", whose
    callback calls [limit(7)]. *)
Definition overwritingConfiguration : M unit :=
  beforeLock "from" (Script [call_limit (ofZ 7)]);;
  beforeLock "limit" (Script [call_lock "where"]);;
  where_ (DeferredOnAlias
            (λ a, sql.fragment [""; ".age > 18"] [sql.value a])).

Lemma limit_overwritten_by_callback :
  match
    (beforeLock "from" (Script [call_lock "having"]);;
     from (lock 3) (Some (Known (sql.identifier [Name "users"])))
       (Alias (sql.identifier [Name "u"]))) (new false "")
  with
  | Throws e s =>
      e = UnexpectedLock "having"
      ∧ isLocked "from" s = false
      ∧ match (overwritingConfiguration;; limit (lock 8) (ofZ 5)) s with
        | Returns _ s' =>
            data.limit (data s') = Some (ofZ 7)
            ∧ compiledData.limit (compiledData s') = Some (ofZ 7)
            ∧ Math_max zero (ofZ 5) = ofZ 5
        | _ => False
        end
  | _ => False
  end.
Proof. vm_compute. done. Qed.

Lemma limit_open f n s :
  isLocked "limit" s = false →
  callbacksOf "limit" s = [] →
  limit (lock (S f)) n s =
    Returns tt
      (writtenAndLocked "limit" (set_data.limit (Some (Math_max zero n)))
         (set_compiled.limit (Some (Math_max zero n))) s).
Proof.
  intros E Hcb. unfold limit. rewrite bind_unfold, checkLock_unfold, E.
  rewrite bind_unfold. cbn [update_data modify].
  by rewrite lock_bare.
Qed.

Lemma offset_open f n s :
  isLocked "offset" s = false →
  callbacksOf "offset" s = [] →
  offset (lock (S f)) n s =
    Returns tt
      (writtenAndLocked "offset" (set_data.offset (Some (Math_max zero n)))
         (set_compiled.offset (Some (Math_max zero n))) s).
Proof.
  intros E Hcb. unfold offset. rewrite bind_unfold, checkLock_unfold, E.
  rewrite bind_unfold. cbn [update_data modify].
  by rewrite lock_bare.
Qed.

(** C10, amended: on a builder whose phase "limit" is open and has no
    pre-lock callback, [limit(n)] returns for every number [n], below zero
    or not, and the draft and the compiled limit are then [Math.max(0, n)];
    when the phase has callbacks that only add configuration and the call
    returns, they are [Math.max(0, n)] as well; on a locked phase the call
    throws the already-locked error and changes nothing.  The same holds for
    [offset(n)].  [Math.max(0, n)] is [max(0, n)] on the integers and is
    never below zero; and on every builder made by [new QueryBuilder()] and
    method calls the compiled limit and offset, when set, are not
    negative. *)
Theorem limit_offset_clamped :
  (∀ f n s,
     isLocked "limit" s = false →
     callbacksOf "limit" s = [] →
     ∃ s', limit (lock (S f)) n s = Returns tt s'
           ∧ data.limit (data s') = Some (Math_max zero n)
           ∧ compiledData.limit (compiledData s') = Some (Math_max zero n))
  ∧ (∀ f n s,
       isLocked "offset" s = false →
       callbacksOf "offset" s = [] →
       ∃ s', offset (lock (S f)) n s = Returns tt s'
             ∧ data.offset (data s') = Some (Math_max zero n)
             ∧ compiledData.offset (compiledData s') = Some (Math_max zero n))
  ∧ (∀ fuel n s s',
       Forall tameCallback (callbacksOf "limit" s) →
       limit (lock fuel) n s = Returns tt s' →
       data.limit (data s') = Some (Math_max zero n)
       ∧ compiledData.limit (compiledData s') = Some (Math_max zero n))
  ∧ (∀ fuel n s s',
       Forall tameCallback (callbacksOf "offset" s) →
       offset (lock fuel) n s = Returns tt s' →
       data.offset (data s') = Some (Math_max zero n)
       ∧ compiledData.offset (compiledData s') = Some (Math_max zero n))
  ∧ (∀ fuel n s,
       (isLocked "limit" s = true →
        limit (lock fuel) n s =
          Throws (AlreadyLocked "limit" (lockSite (locks s !! "limit"))) s)
       ∧ (isLocked "offset" s = true →
          offset (lock fuel) n s =
            Throws (AlreadyLocked "offset" (lockSite (locks s !! "offset"))) s))
  ∧ (∀ n,
       negative (Math_max zero n) = false
       ∧ ∀ z, integerValue n = Some z →
              integerValue (Math_max zero n) = Some (Z.max 0 z))
  ∧ (∀ isDev frames s,
       reaches (new isDev frames) s →
       nonNegative (compiledData.limit (compiledData s))
       ∧ nonNegative (compiledData.offset (compiledData s))).
Proof.
  split; [|split; [|split; [exact limit_returns|split;
    [exact offset_returns|split; [|split]]]]].
  - intros f n s E Hcb. eexists. split; [by apply limit_open|]. by split.
  - intros f n s E Hcb. eexists. split; [by apply offset_open|]. by split.
  - intros fuel n s. split; intros E.
    + unfold limit. by rewrite bind_unfold, checkLock_unfold, E.
    + unfold offset. by rewrite bind_unfold, checkLock_unfold, E.
  - intros n. split; [apply Math_max_zero_nonNegative|].
    apply Math_max_integer.
  - intros isDev frames s Hs.
    by destruct (reaches_clamped _ _ _ Hs) as (_ & _ & ? & ?).
Qed.

(** A new builder after [offset(-2)]. *)
Definition offsetBuilder : State :=
  Eval vm_compute in
    match offset (lock 1) (ofZ (-2)) (new false "") with
    | Returns _ s => s
    | _ => new false ""
    end.

Lemma limit_offset_clamped_witness :
  (limit (lock 1) (ofZ (-3)) (new false "") = Returns tt limitedBuilder
   ∧ data.limit (data limitedBuilder) = Some zero
   ∧ compiledData.limit (compiledData limitedBuilder) = Some zero)
  ∧ (offset (lock 1) (ofZ (-2)) (new false "") = Returns tt offsetBuilder
     ∧ data.offset (data offsetBuilder) = Some zero
     ∧ compiledData.offset (compiledData offsetBuilder) = Some zero)
  ∧ limit (lock 1) (ofZ 10) limitedBuilder =
      Throws (AlreadyLocked "limit" None) limitedBuilder.
Proof.
  destruct limit_offset_clamped as (Hl & Ho & Hlt & Hot & Hlocked & _).
  split; [|split].
  - assert (H : limit (lock 1) (ofZ (-3)) (new false "") =
                Returns tt limitedBuilder) by (vm_compute; reflexivity).
    destruct (Hl 0 (ofZ (-3)) (new false "") eq_refl eq_refl)
      as (s' & H' & _).
    assert (Ht : Forall tameCallback (callbacksOf "limit" (new false "")))
      by constructor.
    split; [exact H|]. exact (Hlt 1 (ofZ (-3)) (new false "") _ Ht H).
  - assert (H : offset (lock 1) (ofZ (-2)) (new false "") =
                Returns tt offsetBuilder) by (vm_compute; reflexivity).
    assert (Ht : Forall tameCallback (callbacksOf "offset" (new false "")))
      by constructor.
    split; [exact H|]. exact (Hot 1 (ofZ (-2)) (new false "") _ Ht H).
  - exact (proj1 (Hlocked 1 (ofZ 10) limitedBuilder) eq_refl).
Defined.

(** * PgMutationPayloadEdgePlugin: the caller of the builder

    The two functions of the edge field of a mutation payload that order
    the row: [withQueryBuilder], which selects the cursor column through
    the builder, and [resolve], which reads it back from the row. They are
    closures over [canOrderBy] and [primaryKeys]. *)

Module PgMutationPayloadEdge.

(** The first component of an order spec [[col, ascending]]: nothing, the
    name of a column, or an SQL expression. *)
Inductive Col :=
| NoCol
| ColName (name : string)
| ColExpr (expr : SQL).

(** [specs]: one spec, or an array of specs. *)
Inductive Specs :=
| OneSpec (col : Col) (ascending : bool)
| ManySpecs (specs : list (Col * bool)).

(** [Array.isArray(e)] for an SQL expression: in pg-sql2 what
    [sql.fragment] and [sql.join] return is an array of nodes, and an
    identifier or a literal is one node, an object. *)
Definition isArray (e : SQL) : bool :=
  match e with
  | sql.fragment _ _ | sql.join _ _ => true
  | sql.identifier _ | sql.literal _ => false
  end.

(** [Array.isArray(specs[0]) ? specs : [specs]], when it is a list of
    specs; an empty array has no first element and is taken for one spec,
    whose column is undefined. One spec whose column is an SQL expression
    that is an array is taken for an array of specs: [orders] is then the
    spec [[col, ascending]] itself, which is no list of specs ([None]). *)
Definition ordersOf (specs : Specs) : option (list (Col * bool)) :=
  match specs with
  | OneSpec (ColExpr expr) ascending =>
      if isArray expr then None else Some [(ColExpr expr, ascending)]
  | OneSpec col ascending => Some [(col, ascending)]
  | ManySpecs [] => Some [(NoCol, false)]
  | ManySpecs specs => Some specs
  end.

(** An [OrderByValue]; [alias] is [None] when it is null or undefined. *)
Record OrderByValue := {
  alias : option string;
  specs : Specs;
  unique : bool;
}.

(** The argument [orderBy]: missing, one value, or an array of values. *)
Inductive OrderByArg :=
| NoOrderBy
| OneValue (item : OrderByValue)
| Values (items : list OrderByValue).

(** [canOrderBy && rawOrderBy
       ? (Array.isArray(rawOrderBy) ? rawOrderBy : [rawOrderBy]) : null] *)
Definition orderByOf (canOrderBy : bool) (rawOrderBy : OrderByArg)
    : option (list OrderByValue) :=
  if canOrderBy
  then match rawOrderBy with
       | NoOrderBy => None
       | OneValue item => Some [item]
       | Values items => Some items
       end
  else None.

(** The column [withQueryBuilder] selects. *)
Definition orderColumn (aliases : list string) (expressions : list SQL) : SQL :=
  sql.fragment ["json_build_array("; ", json_build_array("; "))"]
    [sql.value
       (sql.join
          (map (λ a, sql.fragment [""; "::text"] [sql.value (sql.literal (Str a))])
               aliases)
          ", ");
     sql.value (sql.join expressions ", ")].

(** ["__order_" + aliases.join("__")] *)
Definition orderAlias (aliases : list string) : string :=
  ("__order_" ++ String.concat "__" aliases)%string.

Section WithQueryBuilder.

Variable lock : string → M unit.
Variable canOrderBy : bool.
(** [primaryKeyConstraint && primaryKeyConstraint.keyAttributes], by the
    names of the attributes. *)
Variable primaryKeys : option (list string).

(** [sql.fragment`${queryBuilder.getTableAlias()}.${sql.identifier(name)}`] *)
Definition columnOf (name : string) : M SQL :=
  a ← getTableAlias lock;
  ret (sql.fragment [""; "."; ""]
         [sql.value a; sql.value (sql.identifier [Name name])]).

(** [orders.forEach(([col, _ascending]) => ...)] *)
Fixpoint forEachOrder (orders : list (Col * bool)) (expressions : list SQL)
    : M (list SQL) :=
  match orders with
  | [] => ret expressions
  | (col, _) :: orders' =>
      match col with
      | NoCol => forEachOrder orders' expressions
      | ColName name =>
          if String.eqb name "" then forEachOrder orders' expressions
          else
            expr ← columnOf name;
            forEachOrder orders' (expressions ++ [expr])
      | ColExpr expr => forEachOrder orders' (expressions ++ [expr])
      end
  end.

(** [orderBy.forEach(item => ...)] over [aliases], [expressions] and
    [unique]. When [orders] is the spec [[col, ascending]] itself, the
    callback of [orders.forEach] first takes the array [col] for a spec: its
    first node, an object and no string, is pushed on the local array
    [expressions] if there is one, with no call on the builder; it then
    takes the boolean [ascending] for a spec, and destructuring it throws a
    TypeError. *)
Fixpoint forEachItem (orderBy : list OrderByValue)
    (acc : list string * list SQL * bool) : M (list string * list SQL * bool) :=
  match orderBy with
  | [] => ret acc
  | item :: orderBy' =>
      let '(aliases, expressions, isUnique) := acc in
      let isUnique := isUnique || unique item || false in
      match ordersOf (specs item) with
      | None => throw NotIterable
      | Some orders =>
          expressions ← forEachOrder orders expressions;
          match alias item with
          | None => forEachItem orderBy' (aliases, expressions, isUnique)
          | Some a =>
              forEachItem orderBy' (aliases ++ [a], expressions, isUnique)
          end
      end
  end.

(** [primaryKeys.forEach(key => ...)] *)
Fixpoint forEachKey (keys : list string) (expressions : list SQL)
    : M (list SQL) :=
  match keys with
  | [] => ret expressions
  | name :: keys' =>
      expr ← columnOf name;
      forEachKey keys' (expressions ++ [expr])
  end.

Definition withQueryBuilder (rawOrderBy : OrderByArg) : M unit :=
  match orderByOf canOrderBy rawOrderBy with
  | None => ret tt
  | Some orderBy =>
      acc ← forEachItem orderBy ([], [], false);
      let '(aliases, expressions, isUnique) := acc in
      expressions ←
        match negb isUnique, primaryKeys with
        | true, Some keys => forEachKey keys expressions
        | _, _ => ret expressions
        end;
      if bool_decide (length aliases ≠ 0)
      then select (Known (orderColumn aliases expressions))
                  (Name (orderAlias aliases))
      else ret tt
  end.

End WithQueryBuilder.

(** The values of a row. *)
#[local] Set Warnings "-register-all".
Inductive Json :=
| JUndefined
| JNull
| JBool (b : bool)
| JNumber (n : number)
| JString (s : string)
| JArray (items : list Json)
| JObject (fields : list (string * Json)).

Definition truthyJson (v : Json) : bool :=
  match v with
  | JUndefined | JNull => false
  | JBool b => b
  | JNumber n => truthyNumber n
  | JString s => negb (String.eqb s "")
  | JArray _ | JObject _ => true
  end.

Definition Edge : Type := gmap string Json.

(** [edge[key]] *)
Definition field (edge : Edge) (key : string) : Json :=
  default JUndefined (edge !! key).

(** [item.alias], as a condition and as an element of [join]. *)
Definition truthyAlias (item : OrderByValue) : bool :=
  match alias item with
  | Some a => negb (String.eqb a "")
  | None => false
  end.

Definition aliasText (item : OrderByValue) : string :=
  default "" (alias item).

(** What [resolve] returns: [null], a row, or the value every object
    inherits under the name [safeAlias]. *)
Inductive Resolved :=
| RNull
| RRow (edge : Edge)
| RInherited (name : string).

(** [resolve(data, { orderBy: rawOrderBy }, _context, resolveInfo)];
    [data] holds the fields of [data.data] when it is there, each a row or
    [null], and [safeAlias] is what
    [getSafeAliasFromResolveInfo(resolveInfo)] returns.  Under a name it
    inherits from [Object.prototype] and has no field of its own for,
    [data.data] holds a function (the prototype itself for [__proto__]):
    a truthy value with no field [__identifiers], no field [__order_...]
    and nothing to spread. *)
Definition resolve (canOrderBy : bool)
    (data : option (gmap string (option Edge)))
    (safeAlias : string) (rawOrderBy : OrderByArg) : Resolved :=
  match data with
  | None => RNull
  | Some data =>
      let order :=
        match orderByOf canOrderBy rawOrderBy with
        | Some orderBy =>
            if existsb truthyAlias orderBy
            then Some (List.filter truthyAlias orderBy)
            else None
        | None => None
        end in
      match data !! safeAlias with
      | None =>
          if inherited safeAlias
          then match order with
               | None => RInherited safeAlias
               | Some _ => RRow (<["__cursor" := JUndefined]> ∅)
               end
          else RNull
      | Some None => RNull
      | Some (Some edge) =>
          match order with
          | None =>
              if truthyJson (field edge "__identifiers")
              then RRow (<["__cursor" :=
                            JArray [JString "primary_key_asc";
                                    field edge "__identifiers"]]> edge)
              else RRow edge
          | Some order =>
              RRow (<["__cursor" :=
                      field edge (orderAlias (map aliasText order))]> edge)
          end
      end
  end.

(** ** What [withQueryBuilder] selects *)

(** The expression of one spec, for the table alias [a]. *)
Definition exprOf (a : SQL) (order : Col * bool) : option SQL :=
  match order.1 with
  | NoCol => None
  | ColName name =>
      if String.eqb name "" then None
      else Some (sql.fragment [""; "."; ""]
                   [sql.value a; sql.value (sql.identifier [Name name])])
  | ColExpr expr => Some expr
  end.

(** The specs of a value, when they can be iterated. *)
Definition iterable (item : OrderByValue) : bool :=
  match ordersOf (specs item) with
  | Some _ => true
  | None => false
  end.

Definition ordersOfItem (item : OrderByValue) : list (Col * bool) :=
  default [] (ordersOf (specs item)).

(** No value of [orderBy] has for its specs one spec whose column is an SQL
    expression that is an array. *)
Definition wellFormed (canOrderBy : bool) (rawOrderBy : OrderByArg) : bool :=
  match orderByOf canOrderBy rawOrderBy with
  | Some orderBy => forallb iterable orderBy
  | None => true
  end.

(** The column and its alias, when there is one to select: the aliases
    that are there, the expressions of all specs and, unless a value is
    unique, the columns of the primary key. *)
Definition selected (canOrderBy : bool) (primaryKeys : option (list string))
    (a : SQL) (rawOrderBy : OrderByArg) : option (SQL * string) :=
  orderBy ← orderByOf canOrderBy rawOrderBy;
  let aliases := omap alias orderBy in
  let expressions :=
    flat_map (λ item, omap (exprOf a) (ordersOfItem item)) orderBy in
  let keys :=
    match existsb unique orderBy, primaryKeys with
    | false, Some keys =>
        map (λ name, sql.fragment [""; "."; ""]
                       [sql.value a; sql.value (sql.identifier [Name name])])
            keys
    | _, _ => []
    end in
  if bool_decide (length aliases ≠ 0)
  then Some (orderColumn aliases (expressions ++ keys), orderAlias aliases)
  else None.

Lemma columnOf_sourced fuel name s src :
  isLocked "from" s = true →
  compiledData.from (compiledData s) = Some src →
  columnOf (lock fuel) name s =
    Returns (sql.fragment [""; "."; ""]
               [sql.value src.2; sql.value (sql.identifier [Name name])]) s.
Proof.
  intros Hl Hsrc. unfold columnOf, getTableAlias.
  rewrite !bind_unfold, lock_locked by done. rewrite gets_bind, Hsrc.
  reflexivity.
Qed.

Lemma forEachOrder_sourced fuel s src :
  isLocked "from" s = true →
  compiledData.from (compiledData s) = Some src →
  ∀ orders expressions,
    forEachOrder (lock fuel) orders expressions s =
      Returns (expressions ++ omap (exprOf src.2) orders) s.
Proof.
  intros Hl Hsrc.
  induction orders as [|[col asc] orders IH]; intros expressions; simpl.
  - by rewrite app_nil_r.
  - unfold exprOf at 1. simpl. destruct col as [|name|expr].
    + apply IH.
    + destruct (String.eqb name ""); [apply IH|].
      rewrite (bind_eq_returns _ _ _ _ _ (columnOf_sourced fuel name s src Hl Hsrc)).
      by rewrite IH, <- app_assoc.
    + by rewrite IH, <- app_assoc.
Qed.

Lemma forEachItem_sourced fuel s src :
  isLocked "from" s = true →
  compiledData.from (compiledData s) = Some src →
  ∀ items aliases expressions isUnique,
    forEachItem (lock fuel) items (aliases, expressions, isUnique) s =
      if forallb iterable items
      then Returns
             (aliases ++ omap alias items,
              expressions
              ++ flat_map (λ item, omap (exprOf src.2) (ordersOfItem item))
                   items,
              isUnique || existsb unique items) s
      else Throws NotIterable s.
Proof.
  intros Hl Hsrc.
  induction items as [|item items IH]; intros aliases expressions isUnique;
    simpl.
  - by rewrite !app_nil_r, orb_false_r.
  - unfold iterable at 1, ordersOfItem at 1.
    destruct (ordersOf (specs item)) as [orders|]; [|reflexivity].
    rewrite (bind_eq_returns _ _ _ _ _
               (forEachOrder_sourced fuel s src Hl Hsrc _ _)).
    rewrite orb_false_r. simpl.
    destruct (alias item) as [a|]; rewrite IH;
      destruct (forallb iterable items); try reflexivity; simpl;
      by rewrite <- !app_assoc, orb_assoc.
Qed.

Lemma forEachKey_sourced fuel s src :
  isLocked "from" s = true →
  compiledData.from (compiledData s) = Some src →
  ∀ keys expressions,
    forEachKey (lock fuel) keys expressions s =
      Returns
        (expressions
         ++ map (λ name, sql.fragment [""; "."; ""]
                           [sql.value src.2;
                            sql.value (sql.identifier [Name name])]) keys) s.
Proof.
  intros Hl Hsrc. induction keys as [|name keys IH]; intros expressions; simpl.
  - by rewrite app_nil_r.
  - rewrite (bind_eq_returns _ _ _ _ _ (columnOf_sourced fuel name s src Hl Hsrc)).
    by rewrite IH, <- app_assoc.
Qed.

Lemma withQueryBuilder_sourced fuel canOrderBy primaryKeys rawOrderBy s src :
  isLocked "from" s = true →
  compiledData.from (compiledData s) = Some src →
  isLocked "select" s = false →
  withQueryBuilder (lock fuel) canOrderBy primaryKeys rawOrderBy s =
    if wellFormed canOrderBy rawOrderBy
    then Returns tt
           match selected canOrderBy primaryKeys src.2 rawOrderBy with
           | Some (column, a) =>
               set_data
                 (set_data.select
                    (data.select (data s) ++ [(Known column, Name a)])
                    (data s)) s
           | None => s
           end
    else Throws NotIterable s.
Proof.
  intros Hl Hsrc Hsel. unfold withQueryBuilder, selected, wellFormed.
  destruct (orderByOf canOrderBy rawOrderBy) as [items|]; [|reflexivity].
  cbn [mbind option_bind]. rewrite bind_unfold.
  rewrite (forEachItem_sourced fuel s src Hl Hsrc items [] [] false).
  destruct (forallb iterable items); [|reflexivity].
  cbn [app orb negb].
  assert (Hkeys :
    match negb (existsb unique items), primaryKeys with
    | true, Some keys =>
        forEachKey (lock fuel) keys
          (flat_map (λ item, omap (exprOf src.2) (ordersOfItem item)) items)
    | _, _ =>
        ret (flat_map (λ item, omap (exprOf src.2) (ordersOfItem item)) items)
    end s =
    Returns
      (flat_map (λ item, omap (exprOf src.2) (ordersOfItem item)) items
       ++ match existsb unique items, primaryKeys with
          | false, Some keys =>
              map (λ name, sql.fragment [""; "."; ""]
                             [sql.value src.2;
                              sql.value (sql.identifier [Name name])]) keys
          | _, _ => []
          end) s).
  { destruct (existsb unique items), primaryKeys as [keys|]; simpl;
      rewrite ?app_nil_r; try reflexivity.
    by apply forEachKey_sourced. }
  rewrite (bind_eq_returns _ _ _ _ _ Hkeys).
  destruct (bool_decide _); [|reflexivity].
  unfold select. by rewrite bind_unfold, checkLock_unfold, Hsel.
Qed.

(** X14.  What [withQueryBuilder] does to a builder whose source is
    compiled and whose select list is open.  When a value of [orderBy] has
    for its specs one spec [[col, ascending]] whose column is an SQL
    fragment (an array), the spec is taken for an array of specs and
    [withQueryBuilder] throws a TypeError, the builder unchanged.  If not:
    nothing is done when the table cannot be ordered, no [orderBy] was given
    or no value has an alias; otherwise it returns having selected one
    column, under the alias [__order_] followed by the aliases joined by
    [__], that holds the aliases and, in order, the expressions of all specs
    (a column name qualified by the table alias, an SQL expression as it is,
    a missing or empty column skipped) followed by the columns of the
    primary key unless a value is unique. *)
Theorem withQueryBuilder_selects fuel canOrderBy primaryKeys rawOrderBy s src :
  isLocked "from" s = true →
  compiledData.from (compiledData s) = Some src →
  isLocked "select" s = false →
  withQueryBuilder (lock fuel) canOrderBy primaryKeys rawOrderBy s =
    if wellFormed canOrderBy rawOrderBy
    then Returns tt
           match selected canOrderBy primaryKeys src.2 rawOrderBy with
           | Some (column, a) =>
               set_data
                 (set_data.select
                    (data.select (data s) ++ [(Known column, Name a)])
                    (data s)) s
           | None => s
           end
    else Throws NotIterable s.
Proof. apply withQueryBuilder_sourced. Qed.

Lemma aliases_truthy items :
  (∀ item, item ∈ items → alias item ≠ Some "") →
  existsb truthyAlias items = bool_decide (length (omap alias items) ≠ 0)
  ∧ map aliasText (List.filter truthyAlias items) = omap alias items.
Proof.
  induction items as [|item items IH]; intros Hne; [done|].
  destruct IH as [IH1 IH2].
  { intros i Hi. apply Hne. by right. }
  assert (Hitem : alias item ≠ Some "") by (apply Hne; by left).
  assert (Ht : truthyAlias item =
               match alias item with Some _ => true | None => false end).
  { unfold truthyAlias. destruct (alias item) as [a|]; [|done].
    by destruct (String.eqb_spec a "") as [->|_]. }
  simpl. rewrite Ht. destruct (alias item) as [a|] eqn:Ea; simpl.
  - split; [done|]. unfold aliasText at 1. by rewrite Ea, IH2.
  - by rewrite IH1, IH2.
Qed.

Lemma resolve_selected canOrderBy primaryKeys a rawOrderBy rows safeAlias edge :
  (∀ items item, orderByOf canOrderBy rawOrderBy = Some items →
                 item ∈ items → alias item ≠ Some "") →
  rows !! safeAlias = Some (Some edge) →
  resolve canOrderBy (Some rows) safeAlias rawOrderBy =
    RRow match selected canOrderBy primaryKeys a rawOrderBy with
         | Some (_, key) => <["__cursor" := field edge key]> edge
         | None =>
             if truthyJson (field edge "__identifiers")
             then <["__cursor" :=
                     JArray [JString "primary_key_asc";
                             field edge "__identifiers"]]> edge
             else edge
         end.
Proof.
  intros Hne Hedge. unfold resolve, selected. rewrite Hedge.
  destruct (orderByOf canOrderBy rawOrderBy) as [items|];
    [|cbn [mbind option_bind]; by destruct (truthyJson _)].
  destruct (aliases_truthy items) as [H1 H2];
    [intros item Hi; by apply (Hne items item)|].
  cbn [mbind option_bind]. rewrite H1.
  destruct (bool_decide _); [by rewrite H2|by destruct (truthyJson _)].
Qed.

(** X15.  [resolve] reads the column [withQueryBuilder] selected: on a
    builder whose source is compiled and whose select list is open, when no
    value of [orderBy] has the empty string for its alias and none has for
    its specs one spec whose column is an SQL fragment, [withQueryBuilder]
    returns, and the [__cursor] of the row [resolve] returns for the same
    [orderBy] is the field of the row under the alias of the select entry
    [withQueryBuilder] has added; when it has added none, [__cursor] is
    [["primary_key_asc", __identifiers]] if the row has identifiers, and the
    row is returned as it is if not.  With such a spec [withQueryBuilder]
    throws a TypeError and selects nothing. *)
Theorem cursor_is_the_selected_column fuel canOrderBy primaryKeys rawOrderBy
    s src rows safeAlias edge :
  isLocked "from" s = true →
  compiledData.from (compiledData s) = Some src →
  isLocked "select" s = false →
  (∀ items item, orderByOf canOrderBy rawOrderBy = Some items →
                 item ∈ items → alias item ≠ Some "") →
  rows !! safeAlias = Some (Some edge) →
  if wellFormed canOrderBy rawOrderBy
  then
    ∃ s',
      withQueryBuilder (lock fuel) canOrderBy primaryKeys rawOrderBy s =
        Returns tt s'
      ∧ resolve canOrderBy (Some rows) safeAlias rawOrderBy =
          RRow match drop (length (data.select (data s)))
                       (data.select (data s'))
               with
               | (_, Name key) :: _ => <["__cursor" := field edge key]> edge
               | _ =>
                   if truthyJson (field edge "__identifiers")
                   then <["__cursor" :=
                           JArray [JString "primary_key_asc";
                                   field edge "__identifiers"]]> edge
                   else edge
               end
  else
    withQueryBuilder (lock fuel) canOrderBy primaryKeys rawOrderBy s =
      Throws NotIterable s.
Proof.
  intros Hl Hsrc Hsel Hne Hedge.
  pose proof (withQueryBuilder_sourced fuel canOrderBy primaryKeys rawOrderBy
                s src Hl Hsrc Hsel) as Hw.
  destruct (wellFormed canOrderBy rawOrderBy); [|exact Hw].
  eexists. split; [exact Hw|].
  rewrite (resolve_selected canOrderBy primaryKeys src.2 rawOrderBy rows
             safeAlias edge Hne Hedge).
  destruct (selected canOrderBy primaryKeys src.2 rawOrderBy)
    as [[column key]|]; simpl.
  - by rewrite drop_app_length.
  - by rewrite drop_all.
Qed.

(** Ordering by the column [name], under the alias [name_asc]; ordering by
    the one spec [[sql.fragment`lower(name)`, true]]; a row that carries the
    cursor column. *)
Definition byName : OrderByValue :=
  {| alias := Some "name_asc"; specs := OneSpec (ColName "name") true;
     unique := false |}.

Definition byLowerName : OrderByValue :=
  {| alias := Some "lower_name_asc";
     specs := OneSpec (ColExpr (sql.fragment ["lower(name)"] [])) true;
     unique := false |}.

Definition rowByName : Edge :=
  <["__order_name_asc" := JString "cursor"]> (<["name" := JString "Ada"]> ∅).

Lemma withQueryBuilder_selects_witness :
  (∃ s',
     withQueryBuilder (lock 0) true (Some ["id"]) (OneValue byName)
       sourcedBuilder = Returns tt s'
     ∧ data.select (data s') =
         [(Known
             (orderColumn ["name_asc"]
                [sql.fragment [""; "."; ""]
                   [sql.value (sql.identifier [Name "u"]);
                    sql.value (sql.identifier [Name "name"])];
                 sql.fragment [""; "."; ""]
                   [sql.value (sql.identifier [Name "u"]);
                    sql.value (sql.identifier [Name "id"])]]),
           Name "__order_name_asc")])
  ∧ withQueryBuilder (lock 0) true (Some ["id"]) (OneValue byLowerName)
      sourcedBuilder = Throws NotIterable sourcedBuilder.
Proof.
  split.
  - eexists. split.
    + apply (withQueryBuilder_selects 0 true (Some ["id"]) (OneValue byName)
               sourcedBuilder
               (sql.identifier [Name "users"], sql.identifier [Name "u"]));
        reflexivity.
    + reflexivity.
  - apply (withQueryBuilder_selects 0 true (Some ["id"]) (OneValue byLowerName)
             sourcedBuilder
             (sql.identifier [Name "users"], sql.identifier [Name "u"]));
      reflexivity.
Defined.

Lemma cursor_is_the_selected_column_witness :
  ∃ s',
    withQueryBuilder (lock 0) true (Some ["id"]) (OneValue byName)
      sourcedBuilder = Returns tt s'
    ∧ resolve true (Some (<["edge" := Some rowByName]> ∅)) "edge"
        (OneValue byName) =
        RRow (<["__cursor" := JString "cursor"]> rowByName).
Proof.
  destruct (cursor_is_the_selected_column 0 true (Some ["id"]) (OneValue byName)
              sourcedBuilder
              (sql.identifier [Name "users"], sql.identifier [Name "u"])
              (<["edge" := Some rowByName]> ∅) "edge" rowByName)
    as (s' & Hw & Hr).
  - reflexivity.
  - reflexivity.
  - reflexivity.
  - intros items item [= <-] Hin. apply list_elem_of_singleton in Hin as ->.
    discriminate.
  - vm_compute. reflexivity.
  - exists s'. split; [exact Hw|]. rewrite Hr.
    assert (Hs' : s' =
      set_data
        (set_data.select
           [(Known
               (orderColumn ["name_asc"]
                  [sql.fragment [""; "."; ""]
                     [sql.value (sql.identifier [Name "u"]);
                      sql.value (sql.identifier [Name "name"])];
                   sql.fragment [""; "."; ""]
                     [sql.value (sql.identifier [Name "u"]);
                      sql.value (sql.identifier [Name "id"])]]),
             Name "__order_name_asc")] (data sourcedBuilder))
        sourcedBuilder).
    { pose proof (withQueryBuilder_sourced 0 true (Some ["id"]) (OneValue byName)
                    sourcedBuilder
                    (sql.identifier [Name "users"], sql.identifier [Name "u"])
                    eq_refl eq_refl eq_refl) as Hw'.
      rewrite Hw in Hw'. by injection Hw'. }
    rewrite Hs'. vm_compute. reflexivity.
Defined.

End PgMutationPayloadEdge.
